(** * Entity simulation and combat resolution: a shallow embedding

    The development follows the JavaScript sources of the game core:
    - [config/constants.js]   (module [Constants]),
    - [state/GameState.js]    (modules [GameState] and [Store]),
    - [ui/Shop.js]            (module [Shop]),
    - [entities/Weapon.js]    (modules [Weapon] and [Volley]),
    - [systems/CollisionSystem.js] (modules [CollisionSystem] and [Queries]),
    - [entities/Enemy.js]     (modules [Enemy] and [EnemyLife]),
    - [systems/SpawnerSystem.js]   (modules [SpawnerSystem] and
      [SpawnerQueries]),
    - [systems/RaycastSystem.js]   (module [RaycastSystem]),
    - [main.js]               (module [Game]),
    - [entities/Player.js]    (module [Player]).

    JavaScript numbers that the game only ever uses as whole quantities
    (health, armor, ammo, coins, millisecond timestamps) are integers [Z];
    numbers that are genuinely fractional (coordinates, frame deltas) are
    real numbers [R], that is, IEEE doubles without rounding. The ray-sphere
    test of [CollisionSystem] is the exception: rounded intermediate values
    decide whether it reports a hit, so it is computed in binary64 itself
    (module [Double]) and set against the quadratic over the reals.
    Rendering objects (meshes, materials, the scene graph) and timers that
    only revert a colour or a recoil offset are cosmetic and left out. *)

From Stdlib Require Import ZArith Reals Lra Lia.
From Stdlib Require QArith Qreals Floats.
From stdpp Require Import base option list gmap strings.

Local Open Scope Z_scope.

(** ** config/constants.js *)

Module Constants.

Definition ZOMBIE_SPEED : R := 2.
Definition ZOMBIE_HEALTH : Z := 100.
Definition ZOMBIE_DAMAGE : Z := 10.
Definition ZOMBIE_SPAWN_INTERVAL : R := 3000.
Definition ZOMBIE_SPAWN_DISTANCE_MIN : R := 60.
Definition ZOMBIE_SPAWN_DISTANCE_MAX : R := 80.
Definition ZOMBIE_ATTACK_COOLDOWN : Z := 1000.
Definition ZOMBIE_BODY_DESPAWN_TIME : Z := 5000.
Definition MAP_BOUNDARY : R := 95.

End Constants.

(** ** state/EventBus.js and state/GameState.js *)

Module GameState.

(** Leaf paths of the state tree that hold a number; these are the paths
    the store's own numeric mutations pass to [setState]. *)
Inductive path :=
| player_health | player_maxHealth | player_armor | player_maxArmor
| player_coins | player_kills
| weapons_ammo (weapon : string).

(** The closed set of event names of [EVENTS], each with the payload the
    publishers below attach to it. [None] stands for [undefined]. *)
Inductive event :=
| PLAYER_DAMAGED (amount remaining : Z)
| PLAYER_DIED
| ENEMY_KILLED
| ENEMY_HEADSHOT
| WEAPON_FIRED (weapon : string) (ammoLeft : Z)
| WEAPON_SWITCHED (weapon : string)
| WEAPON_EMPTY (weapon : string)
| ARMOR_BROKEN
| STATE_CHANGED (p : path) (oldValue : option Z) (newValue : Z).

Global Instance path_eq_dec : EqDecision path.
Proof. solve_decision. Defined.

Global Instance event_eq_dec : EqDecision event.
Proof. solve_decision. Defined.

Record playerStats := mkPlayer {
  health : Z; maxHealth : Z; armor : Z; maxArmor : Z; coins : Z; kills : Z }.

Record weaponsState := mkWeapons {
  current : string; owned : list string;
  ammo : gmap string Z; maxAmmo : gmap string Z }.

Record state := mkState {
  isPlaying : bool; isPaused : bool; shopOpen : bool; isFirstPerson : bool;
  player : playerStats; weapons : weaponsState }.

Definition initialState : state :=
  {| isPlaying := false; isPaused := false; shopOpen := false;
     isFirstPerson := false;
     player := {| health := 100; maxHealth := 100; armor := 0; maxArmor := 0;
                   coins := 0; kills := 0 |};
     weapons := {| current := "pistol"; owned := ["pistol"%string];
                    ammo := {[ "pistol"%string := 12; "shotgun"%string := 0 ]};
                    maxAmmo := {[ "pistol"%string := 12; "shotgun"%string := 6 ]} |} |}.

(** A method of the store runs on the current state and returns its result,
    the new state and the events it published, oldest first. *)
Definition M (A : Type) : Type := state → A * state * list event.

Global Instance M_ret : MRet M := λ A a s, (a, s, []).
Global Instance M_bind : MBind M := λ A B f m s,
  let '(a, s1, l1) := m s in
  let '(b, s2, l2) := f a s1 in
  (b, s2, l1 ++ l2).

Definition getState : M state := λ s, (s, s, []).

(** Modelled from the spec: [EventBus.emit], whose file state/EventBus.js is
    not among the sources. A publish is synchronous and hands the event to
    the handlers registered for its name, in registration order. The
    handlers belong to the UI and audio layers, outside the store: a publish
    is recorded in the log and leaves the store as it is. *)
Definition emit (e : event) : M unit := λ s, (tt, s, [e]).

Definition result_of {A} (r : A * state * list event) : A := r.1.1.
Definition state_of {A} (r : A * state * list event) : state := r.1.2.
Definition events_of {A} (r : A * state * list event) : list event := r.2.

(** [current[keys[last]]] read and written through a dot path. *)
Definition read (p : path) (s : state) : option Z :=
  match p with
  | player_health => Some (health (player s))
  | player_maxHealth => Some (maxHealth (player s))
  | player_armor => Some (armor (player s))
  | player_maxArmor => Some (maxArmor (player s))
  | player_coins => Some (coins (player s))
  | player_kills => Some (kills (player s))
  | weapons_ammo w => ammo (weapons s) !! w
  end.

Definition with_player (f : playerStats → playerStats) (s : state) : state :=
  {| isPlaying := isPlaying s; isPaused := isPaused s; shopOpen := shopOpen s;
     isFirstPerson := isFirstPerson s;
     player := f (player s); weapons := weapons s |}.

Definition with_weapons (f : weaponsState → weaponsState) (s : state) : state :=
  {| isPlaying := isPlaying s; isPaused := isPaused s; shopOpen := shopOpen s;
     isFirstPerson := isFirstPerson s;
     player := player s; weapons := f (weapons s) |}.

Definition write (p : path) (v : Z) (s : state) : state :=
  match p with
  | player_health => with_player (λ q,
      mkPlayer v (maxHealth q) (armor q) (maxArmor q) (coins q) (kills q)) s
  | player_maxHealth => with_player (λ q,
      mkPlayer (health q) v (armor q) (maxArmor q) (coins q) (kills q)) s
  | player_armor => with_player (λ q,
      mkPlayer (health q) (maxHealth q) v (maxArmor q) (coins q) (kills q)) s
  | player_maxArmor => with_player (λ q,
      mkPlayer (health q) (maxHealth q) (armor q) v (coins q) (kills q)) s
  | player_coins => with_player (λ q,
      mkPlayer (health q) (maxHealth q) (armor q) (maxArmor q) v (kills q)) s
  | player_kills => with_player (λ q,
      mkPlayer (health q) (maxHealth q) (armor q) (maxArmor q) (coins q) v) s
  | weapons_ammo w => with_weapons (λ q,
      mkWeapons (current q) (owned q) (<[w := v]> (ammo q)) (maxAmmo q)) s
  end.

Definition setState (p : path) (value : Z) : M unit := λ s,
  let oldValue := read p s in
  (tt, write p value s, [STATE_CHANGED p oldValue value]).

Definition damage (amount : Z) : M unit :=
  let remaining := amount in
  s ← getState;
  remaining ← (if 0 <? armor (player s) then
      let armorDamage := Z.min (armor (player s)) remaining in
      setState player_armor (armor (player s) - armorDamage);;
      let remaining := remaining - armorDamage in
      s1 ← getState;
      (if armor (player s1) <=? 0 then emit ARMOR_BROKEN else mret tt);;
      mret remaining
    else mret remaining);
  (if 0 <? remaining then
      s2 ← getState;
      let newHealth := Z.max 0 (health (player s2) - remaining) in
      setState player_health newHealth;;
      (if newHealth <=? 0 then emit PLAYER_DIED else mret tt)
    else mret tt);;
  s3 ← getState;
  emit (PLAYER_DAMAGED amount (health (player s3))).

Definition heal (amount : Z) : M unit :=
  s ← getState;
  let newHealth := Z.min (maxHealth (player s)) (health (player s) + amount) in
  setState player_health newHealth.

Definition useAmmo : M bool :=
  s ← getState;
  let weapon := current (weapons s) in
  let currentAmmo := ammo (weapons s) !! weapon in
  match currentAmmo with
  | Some n =>
      if 0 <? n then
        setState (weapons_ammo weapon) (n - 1);;
        emit (WEAPON_FIRED weapon (n - 1));;
        mret true
      else
        emit (WEAPON_EMPTY weapon);;
        mret false
  | None =>
      emit (WEAPON_EMPTY weapon);;
      mret false
  end.

(** The two phases of [damage] in closed form: what the armor takes, then
    what reaches the health, each with the state it leaves and the events it
    publishes. [damage_run] below shows that [damage] is their sequence. *)
Definition absorbed (s : state) (amount : Z) : Z :=
  if 0 <? armor (player s) then Z.min (armor (player s)) amount else 0.

Definition afterArmor (s : state) (amount : Z) : state * list event :=
  let a := armor (player s) in
  if 0 <? a then
    let a' := a - Z.min a amount in
    (write player_armor a' s,
     STATE_CHANGED player_armor (Some a) a' ::
       (if a' <=? 0 then [ARMOR_BROKEN] else []))
  else (s, []).

Definition afterHealth (s : state) (remaining : Z) : state * list event :=
  if 0 <? remaining then
    let h := health (player s) in
    let h' := Z.max 0 (h - remaining) in
    (write player_health h' s,
     STATE_CHANGED player_health (Some h) h' ::
       (if h' <=? 0 then [PLAYER_DIED] else []))
  else (s, []).

(** How many times [e] was published in a log. *)
Definition published (e : event) (log : list event) : nat :=
  count_occ event_eq_dec log e.

End GameState.

(** ** entities/Weapon.js *)

Module Weapon.
Import GameState.

Record weapon := mkWeapon { type : string; lastFireTime : Z; fireRate : Z }.

Definition new (type : string) : weapon :=
  {| type := type; lastFireTime := 0;
     fireRate := if decide (type = "shotgun"%string) then 800 else 300 |}.

(** [now] is the reading of [Date.now()]. A missing ammo entry reads as
    [undefined], and [undefined > 0] is false. *)
Definition canFire (now : Z) (w : weapon) (s : state) : bool :=
  match read (weapons_ammo (type w)) s with
  | Some ammo => (0 <? ammo) && (fireRate w <=? now - lastFireTime w)
  | None => false
  end.

(** Every entry of the log of a shot names the component whose code made the
    [eventBus.emit] call: the weapon, or the store it calls into. *)
Inductive publisher := ByWeapon | ByStore.

Global Instance publisher_eq_dec : EqDecision publisher.
Proof. solve_decision. Defined.

(** [now] is the clock reading inside [canFire], [now'] the later one stored
    in [lastFireTime]. [undefined <= 0] is false. *)
Definition fire (now now' : Z) (w : weapon) (s : state)
  : bool * weapon * state * list (publisher * event) :=
  if negb (canFire now w s) then
    let log :=
      match read (weapons_ammo (type w)) s with
      | Some ammo =>
          if ammo <=? 0 then [(ByWeapon, WEAPON_EMPTY (type w))] else []
      | None => []
      end in
    (false, w, s, log)
  else
    let w' := {| type := type w; lastFireTime := now'; fireRate := fireRate w |} in
    let r := useAmmo s in
    (true, w', state_of r, pair ByStore <$> events_of r).

End Weapon.

(** ** THREE.Vector3 *)

(** The vector operations of the three.js library that the sources call
    ([subVectors], [dot], [length], [normalize], [multiplyScalar], [add]),
    with the library's meaning; [normalize] divides by [length() || 1], so
    the zero vector stays zero. *)
Module Vector3.

Local Open Scope R_scope.

Record vec3 := mkVec3 { x : R; y : R; z : R }.

Global Instance Rlt_decision : RelDecision Rlt := Rlt_dec.
Global Instance Rle_decision : RelDecision Rle := Rle_dec.
Global Instance Req_decision : EqDecision R := Req_dec_T.

Definition subVectors (a b : vec3) : vec3 :=
  {| x := x a - x b; y := y a - y b; z := z a - z b |}.
Definition add (a b : vec3) : vec3 :=
  {| x := x a + x b; y := y a + y b; z := z a + z b |}.
Definition multiplyScalar (a : vec3) (s : R) : vec3 :=
  {| x := x a * s; y := y a * s; z := z a * s |}.
Definition dot (a b : vec3) : R := x a * x b + y a * y b + z a * z b.
Definition length (a : vec3) : R := sqrt (dot a a).
Definition normalize (a : vec3) : vec3 :=
  let l := length a in
  multiplyScalar a (1 / (if decide (l = 0) then 1 else l)).

End Vector3.

(** ** IEEE 754 binary64 *)

(** A JavaScript number is an IEEE 754 binary64 value. Where the outcome of
    the code hangs on a rounded intermediate value, the arithmetic is the
    machine's: [PrimFloat.float] with its correctly rounded [+], [-], [*],
    [/] and [sqrt], its infinities and its NaN, and the comparison [<?],
    which is false as soon as an operand is NaN, as [<] is in JavaScript.
    [vec3] is THREE.Vector3 over these numbers, each method with the
    library's order of operations ([dot] adds its three products from left
    to right). *)
Module Double.
Import PrimFloat SpecFloat FloatOps.

Local Open Scope float_scope.

Record vec3 := mkVec3 { x : float; y : float; z : float }.

Definition subVectors (a b : vec3) : vec3 :=
  {| x := x a - x b; y := y a - y b; z := z a - z b |}.
Definition add (a b : vec3) : vec3 :=
  {| x := x a + x b; y := y a + y b; z := z a + z b |}.
Definition multiplyScalar (a : vec3) (s : float) : vec3 :=
  {| x := x a * s; y := y a * s; z := z a * s |}.
Definition dot (a b : vec3) : float := x a * x b + y a * y b + z a * z b.

(** The test [f < 0] of the sources. *)
Definition negative (f : float) : bool := f <? 0.


Definition toQ (f : float) : QArith_base.Q :=
  match Prim2SF f with
  | S754_finite s m e =>
      QArith_base.Qmult
        (QArith_base.inject_Z (if s then Z.neg m else Z.pos m))
        (QArith_base.Qpower (QArith_base.inject_Z 2) e)
  | _ => QArith_base.inject_Z 0
  end.

Definition toR (f : float) : R := Q2R (toQ f).

Definition toR3 (v : vec3) : Vector3.vec3 :=
  {| Vector3.x := toR (x v); Vector3.y := toR (y v); Vector3.z := toR (z v) |}.



End Double.

(** ** systems/CollisionSystem.js *)

Module CollisionSystem.
Import Vector3.

Local Open Scope R_scope.

Record hit := mkHit { distance : PrimFloat.float; point : Double.vec3 }.

Section RaySphere.
Import PrimFloat.
Local Open Scope float_scope.

(** [raycastSphere], operation for operation: [4 * a * c] is [(4 * a) * c],
    [-b] changes the sign of [b], [Math.sqrt] is the correctly rounded square
    root, and [null] is [None]. *)
Definition raycastSphere (origin direction sphereCenter : Double.vec3)
    (radius : float) : option hit :=
  let oc := Double.subVectors origin sphereCenter in
  let a := Double.dot direction direction in
  let b := 2 * Double.dot oc direction in
  let c := Double.dot oc oc - radius * radius in
  let discriminant := b * b - 4 * a * c in
  if discriminant <? 0 then None else
  let t := (- b - sqrt discriminant) / (2 * a) in
  if t <? 0 then None else
  let hitPoint := Double.add origin (Double.multiplyScalar direction t) in
  Some {| distance := t; point := hitPoint |}.




End RaySphere.






End CollisionSystem.

(** ** entities/Enemy.js *)

Module Enemy.
Import Vector3 Constants.

(** [id] is the number [n] of the identifier ["enemy_n"]; [position] is
    [group.position]; [head] tells whether the head mesh is still attached. *)
Record enemy := mkEnemy {
  id : nat; position : vec3; health : Z; isDead : bool;
  deathTime : Z; lastAttackTime : Z; head : bool }.

Definition new (id : nat) : enemy :=
  {| id := id; position := mkVec3 0 0 0; health := ZOMBIE_HEALTH;
     isDead := false; deathTime := 0; lastAttackTime := 0; head := false |}.

Definition init (pos : vec3) (e : enemy) : enemy :=
  {| id := id e; position := pos; health := health e; isDead := isDead e;
     deathTime := deathTime e; lastAttackTime := lastAttackTime e;
     head := true |}.

(** Returns whether the enemy asks to be removed. *)
Definition update (deltaTime : R) (playerPosition : vec3) (now : Z) (e : enemy)
  : bool * enemy :=
  if isDead e then
    if ZOMBIE_BODY_DESPAWN_TIME <? now - deathTime e then (true, e)
    else (false, e)
  else
    let direction := normalize (subVectors playerPosition (position e)) in
    let pos := position e in
    let pos' :=
      {| x := (x pos + x direction * ZOMBIE_SPEED * deltaTime)%R;
         y := y pos;
         z := (z pos + z direction * ZOMBIE_SPEED * deltaTime)%R |} in
    (false,
     {| id := id e; position := pos'; health := health e; isDead := isDead e;
        deathTime := deathTime e; lastAttackTime := lastAttackTime e;
        head := head e |}).

Definition die (now : Z) (isHeadshot : bool) (e : enemy) : enemy :=
  let pos := position e in
  {| id := id e;
     position := {| x := x pos; y := 0.3%R; z := z pos |};
     health := health e; isDead := true; deathTime := now;
     lastAttackTime := lastAttackTime e;
     head := if isHeadshot && head e then false else head e |}.

(** Returns whether this hit killed the enemy. *)
Definition takeDamage (now : Z) (amount : Z) (isHeadshot : bool) (e : enemy)
  : bool * enemy :=
  if isDead e then (false, e)
  else
    let e1 :=
      {| id := id e; position := position e; health := health e - amount;
         isDead := isDead e; deathTime := deathTime e;
         lastAttackTime := lastAttackTime e; head := head e |} in
    if health e1 <=? 0 then (true, die now isHeadshot e1)
    else (false, e1).

Definition canAttack (now : Z) (e : enemy) : bool :=
  negb (isDead e) && (ZOMBIE_ATTACK_COOLDOWN <=? now - lastAttackTime e).

(** Returns the damage dealt. *)
Definition attack (now now' : Z) (e : enemy) : Z * enemy :=
  if negb (canAttack now e) then (0, e)
  else
    (ZOMBIE_DAMAGE,
     {| id := id e; position := position e; health := health e;
        isDead := isDead e; deathTime := deathTime e;
        lastAttackTime := now'; head := head e |}).

End Enemy.

(** ** systems/SpawnerSystem.js *)

Module SpawnerSystem.
Import Vector3 Constants.

(** An [Enemy] object is known by its reference, the index of the object in
    [heap]; [new Enemy] allocates the next index, and no object is ever
    freed, so two references are equal exactly when they denote the same
    object ([includes] and [indexOf] compare by identity). *)
Record world := mkWorld {
  heap : list Enemy.enemy;
  enemies : list nat;
  deadEnemies : list nat;
  spawnTimer : R;
  enemyIdCounter : nat;
  isActive : bool;
  playerPosition : vec3 }.

Definition initial : world :=
  {| heap := []; enemies := []; deadEnemies := []; spawnTimer := 0%R;
     enemyIdCounter := 0%nat; isActive := false;
     playerPosition := mkVec3 0 0 0 |}.

(** What a method does to its collaborators: [Spawned r] is
    [scene.add(enemy.getGroup())], [Updated r] a call of [enemy.update],
    [Disposed r] is [scene.remove(enemy.getGroup())] with [enemy.dispose()]. *)
Inductive action := Spawned (r : nat) | Updated (r : nat) | Disposed (r : nat).

Global Instance action_eq_dec : EqDecision action.
Proof. solve_decision. Defined.

(** A method either raises (a [TypeError] on reading a property of
    [undefined]), which is [None], or returns its result with the new world
    and the actions it performed, oldest first. *)
Definition Op (A : Type) : Type := world → option (A * world * list action).

Global Instance Op_ret : MRet Op := λ A a w, Some (a, w, []).
Global Instance Op_bind : MBind Op := λ A B f m w,
  match m w with
  | Some (a, w1, l1) =>
      match f a w1 with
      | Some (b, w2, l2) => Some (b, w2, l1 ++ l2)
      | None => None
      end
  | None => None
  end.

Definition throw {A} : Op A := λ _, None.
Definition this : Op world := λ w, Some (w, w, []).
Definition modify (f : world → world) : Op unit := λ w, Some (tt, f w, []).
Definition perform (a : action) : Op unit := λ w, Some (tt, w, [a]).

Definition set_heap (f : list Enemy.enemy → list Enemy.enemy) (w : world) :=
  mkWorld (f (heap w)) (enemies w) (deadEnemies w) (spawnTimer w)
          (enemyIdCounter w) (isActive w) (playerPosition w).
Definition set_enemies (f : list nat → list nat) (w : world) :=
  mkWorld (heap w) (f (enemies w)) (deadEnemies w) (spawnTimer w)
          (enemyIdCounter w) (isActive w) (playerPosition w).
Definition set_deadEnemies (f : list nat → list nat) (w : world) :=
  mkWorld (heap w) (enemies w) (f (deadEnemies w)) (spawnTimer w)
          (enemyIdCounter w) (isActive w) (playerPosition w).
Definition set_spawnTimer (f : R → R) (w : world) :=
  mkWorld (heap w) (enemies w) (deadEnemies w) (f (spawnTimer w))
          (enemyIdCounter w) (isActive w) (playerPosition w).
Definition set_enemyIdCounter (f : nat → nat) (w : world) :=
  mkWorld (heap w) (enemies w) (deadEnemies w) (spawnTimer w)
          (f (enemyIdCounter w)) (isActive w) (playerPosition w).
Definition set_isActive (b : bool) (w : world) :=
  mkWorld (heap w) (enemies w) (deadEnemies w) (spawnTimer w)
          (enemyIdCounter w) b (playerPosition w).
Definition set_playerPosition (p : vec3) (w : world) :=
  mkWorld (heap w) (enemies w) (deadEnemies w) (spawnTimer w)
          (enemyIdCounter w) (isActive w) p.

(** [Array.prototype.indexOf]; [None] is the result [-1]. *)
Fixpoint indexOf (r : nat) (l : list nat) : option nat :=
  match l with
  | [] => None
  | r' :: l' => if decide (r' = r) then Some 0%nat else S <$> indexOf r l'
  end.

Definition start : Op unit := modify (set_isActive true).
Definition stop : Op unit := modify (set_isActive false).
Definition setPlayerPosition (p : vec3) : Op unit := modify (set_playerPosition p).

(** [rnd1] and [rnd2] are the two draws of [Math.random()]. *)
Definition getSpawnPosition (playerPosition : vec3) (rnd1 rnd2 : R) : vec3 :=
  let angle := (rnd1 * PI * 2)%R in
  let distance := (ZOMBIE_SPAWN_DISTANCE_MIN +
    rnd2 * (ZOMBIE_SPAWN_DISTANCE_MAX - ZOMBIE_SPAWN_DISTANCE_MIN))%R in
  let x := (x playerPosition + cos angle * distance)%R in
  let z := (z playerPosition + sin angle * distance)%R in
  let clampedX := Rmax (- MAP_BOUNDARY) (Rmin MAP_BOUNDARY x) in
  let clampedZ := Rmax (- MAP_BOUNDARY) (Rmin MAP_BOUNDARY z) in
  mkVec3 clampedX 0 clampedZ.

Definition spawnEnemy (rnd1 rnd2 : R) : Op unit :=
  w ← this;
  let position := getSpawnPosition (playerPosition w) rnd1 rnd2 in
  let enemy := List.length (heap w) in
  modify (set_heap (λ h, h ++ [Enemy.init position (Enemy.new (enemyIdCounter w))]));;
  modify (set_enemyIdCounter S);;
  modify (set_enemies (λ l, l ++ [enemy]));;
  perform (Spawned enemy).

Definition removeEnemy (index : nat) : Op unit :=
  w ← this;
  match enemies w !! index with
  | None => throw
  | Some enemy =>
      perform (Disposed enemy);;
      modify (set_enemies (delete index));;
      w ← this;
      match indexOf enemy (deadEnemies w) with
      | Some deadIndex => modify (set_deadEnemies (delete deadIndex))
      | None => mret tt
      end
  end.

(** The body of the loop of [updateEnemies] at index [i]; [now] is the clock
    reading inside [enemy.update]. *)
Definition updateEnemy (deltaTime : R) (now : Z) (i : nat) : Op unit :=
  w ← this;
  match enemies w !! i with
  | None => throw
  | Some enemy =>
      match heap w !! enemy with
      | None => throw
      | Some obj =>
          let '(shouldRemove, obj') :=
            Enemy.update deltaTime (playerPosition w) now obj in
          modify (set_heap <[enemy := obj']>);;
          perform (Updated enemy);;
          if shouldRemove then removeEnemy i
          else
            w ← this;
            if Enemy.isDead obj' && negb (bool_decide (enemy ∈ deadEnemies w))
            then modify (set_deadEnemies (λ l, l ++ [enemy]))
            else mret tt
      end
  end.

(** [for (let i = n - 1; i >= 0; i--)]; [now i] is the clock reading of the
    iteration at index [i]. *)
Fixpoint updateEnemies_from (n : nat) (deltaTime : R) (now : nat → Z) : Op unit :=
  match n with
  | O => mret tt
  | S i =>
      updateEnemy deltaTime (now i) i;; updateEnemies_from i deltaTime now
  end.

Definition updateEnemies (deltaTime : R) (now : nat → Z) : Op unit :=
  w ← this;
  updateEnemies_from (List.length (enemies w)) deltaTime now.

(** The body of the loop of [cleanupDeadEnemies] at index [i]. *)
Definition cleanupDeadEnemy (now : Z) (i : nat) : Op unit :=
  w ← this;
  match deadEnemies w !! i with
  | None => throw
  | Some enemy =>
      match heap w !! enemy with
      | None => throw
      | Some obj =>
          if ZOMBIE_BODY_DESPAWN_TIME <? now - Enemy.deathTime obj then
            match indexOf enemy (enemies w) with
            | Some enemyIndex => removeEnemy enemyIndex
            | None => mret tt
            end
          else mret tt
      end
  end.

Fixpoint cleanupDeadEnemies_from (n : nat) (now : Z) : Op unit :=
  match n with
  | O => mret tt
  | S i => cleanupDeadEnemy now i;; cleanupDeadEnemies_from i now
  end.

Definition cleanupDeadEnemies (now : Z) : Op unit :=
  w ← this;
  cleanupDeadEnemies_from (List.length (deadEnemies w)) now.

(** [rnd1], [rnd2] feed the spawn position, [now] the enemies' updates and
    [now'] the sweep of the dead. *)
Definition update (deltaTime : R) (rnd1 rnd2 : R) (now : nat → Z) (now' : Z)
  : Op unit :=
  w ← this;
  if negb (isActive w) then mret tt
  else
    modify (set_spawnTimer (λ t, t + deltaTime * 1000)%R);;
    w ← this;
    (if decide (ZOMBIE_SPAWN_INTERVAL <= spawnTimer w)%R then
       modify (set_spawnTimer (λ _, 0%R));;
       spawnEnemy rnd1 rnd2
     else mret tt);;
    updateEnemies deltaTime now;;
    cleanupDeadEnemies now'.

Definition clear : Op unit :=
  w ← this;
  (λ w, Some (tt, w, Disposed <$> enemies w));;
  modify (set_enemies (λ _, []));;
  modify (set_deadEnemies (λ _, [])).

(** Code outside the spawner holds the same [Enemy] objects (the hit-scan
    resolver damages them, the frame loop lets them attack): a call of a
    method of the object at reference [r]. *)
Definition onEnemy (r : nat) (f : Enemy.enemy → Enemy.enemy) : Op unit :=
  w ← this;
  match heap w !! r with
  | None => throw
  | Some obj => modify (set_heap <[r := f obj]>)
  end.

Definition takeDamage (r : nat) (now amount : Z) (isHeadshot : bool) : Op unit :=
  onEnemy r (λ obj, (Enemy.takeDamage now amount isHeadshot obj).2).

Definition attack (r : nat) (now now' : Z) : Op unit :=
  onEnemy r (λ obj, (Enemy.attack now now' obj).2).

(** One call on the spawner or on one of its enemies. *)
Inductive call :=
| Start | Stop | SetPlayerPosition (p : vec3)
| Update (deltaTime rnd1 rnd2 : R) (now : nat → Z) (now' : Z)
| SpawnEnemy (rnd1 rnd2 : R)
| UpdateEnemies (deltaTime : R) (now : nat → Z)
| RemoveEnemy (index : nat)
| CleanupDeadEnemies (now : Z)
| Clear
| TakeDamage (r : nat) (now amount : Z) (isHeadshot : bool)
| Attack (r : nat) (now now' : Z).

Definition run (c : call) : Op unit :=
  match c with
  | Start => start
  | Stop => stop
  | SetPlayerPosition p => setPlayerPosition p
  | Update deltaTime rnd1 rnd2 now now' => update deltaTime rnd1 rnd2 now now'
  | SpawnEnemy rnd1 rnd2 => spawnEnemy rnd1 rnd2
  | UpdateEnemies deltaTime now => updateEnemies deltaTime now
  | RemoveEnemy index => removeEnemy index
  | CleanupDeadEnemies now => cleanupDeadEnemies now
  | Clear => clear
  | TakeDamage r now amount isHeadshot => takeDamage r now amount isHeadshot
  | Attack r now now' => attack r now now'
  end.

(** The worlds the program can be in: the freshly constructed one, and those
    a returning call leads to. A call that raises leaves its caller's frame
    and is not followed further. *)
Inductive reachable : world → Prop :=
| reachable_initial : reachable initial
| reachable_call w c w' l :
    reachable w → run c w = Some (tt, w', l) → reachable w'.

Local Open Scope nat_scope.

(** [reaches w w']: some sequence of returning calls leads from [w] to [w']. *)
Inductive reaches : world → world → Prop :=
| reaches_here w : reaches w w
| reaches_call w c w1 l w2 :
    run c w = Some (tt, w1, l) → reaches w1 w2 → reaches w w2.

(** The world a call leaves behind (the same world if the call raises). *)
Definition after (c : call) (w : world) : world :=
  match run c w with Some (_, w', _) => w' | None => w end.

(** Two small worlds: one living enemy under a spawner that was never
    started; and one enemy that was shot dead and then seen by
    [updateEnemies]. *)
Definition one_alive : world := after (SpawnEnemy 0 0) initial.

Definition one_dead : world :=
  after (UpdateEnemies 0 (λ _, 2000%Z))
    (after (TakeDamage 0 1000 100 false)
       (after (SpawnEnemy 0 0) (after Start initial))).

(** The bookkeeping the two lists are meant to keep. *)
Record consistent (w : world) : Prop := {
  enemies_NoDup : NoDup (enemies w);
  deadEnemies_NoDup : NoDup (deadEnemies w);
  deadEnemies_enemies : deadEnemies w ⊆ enemies w;
  enemies_allocated : ∀ r, r ∈ enemies w → r < List.length (heap w) }.

Definition dead_at (w : world) (r : nat) : Prop :=
  ∃ obj, heap w !! r = Some obj ∧ Enemy.isDead obj = true.

(** How a later world relates to an earlier one: objects are only added and
    stay dead once dead; an enemy that is not in [enemies] does not come
    back; an enemy leaves [deadEnemies] only if it leaves [enemies]; an
    enemy that enters [deadEnemies] is dead. *)
Record evolves (w w' : world) : Prop := {
  heap_grows : List.length (heap w) ≤ List.length (heap w');
  death_stays : ∀ r, dead_at w r → dead_at w' r;
  no_return : ∀ r, r < List.length (heap w) → r ∈ enemies w' → r ∈ enemies w;
  leave_together : ∀ r, r ∈ deadEnemies w → r ∈ deadEnemies w' ∨ r ∉ enemies w';
  enter_dead : ∀ r, r ∈ deadEnemies w' → r ∈ deadEnemies w ∨ dead_at w' r }.

(** Every dead enemy of the active set is in the dead list; [processed n]
    says so for the indices from [n] on, which the loop of [updateEnemies]
    has already visited. *)
Definition all_dead_tracked (w : world) : Prop :=
  ∀ r, r ∈ enemies w → dead_at w r → r ∈ deadEnemies w.

Definition processed (n : nat) (w : world) : Prop :=
  ∀ j r, n ≤ j → enemies w !! j = Some r → dead_at w r → r ∈ deadEnemies w.

(** The calls whose argument denotes something: an index into [enemies], a
    reference to an object. *)
Definition valid (c : call) (w : world) : Prop :=
  match c with
  | RemoveEnemy index => index < List.length (enemies w)
  | TakeDamage r _ _ _ | Attack r _ _ => r < List.length (heap w)
  | _ => True
  end.

End SpawnerSystem.

(** ** state/GameState.js, the remaining methods *)

Module Store.
Import GameState.

Definition addCoins (amount : Z) : M unit :=
  s ← getState;
  setState player_coins (coins (player s) + amount).

Definition spendCoins (amount : Z) : M bool :=
  s ← getState;
  if amount <=? coins (player s) then
    setState player_coins (coins (player s) - amount);;
    mret true
  else mret false.

Definition addArmor (armorPoints healthBonus : Z) : M unit :=
  setState player_maxArmor armorPoints;;
  setState player_armor armorPoints;;
  setState player_maxHealth (100 + healthBonus);;
  setState player_health (100 + healthBonus).

Definition addKill (isHeadshot : bool) : M unit :=
  s ← getState;
  setState player_kills (kills (player s) + 1);;
  emit (if isHeadshot then ENEMY_HEADSHOT else ENEMY_KILLED).

Definition getCurrentAmmo (s : state) : option Z * option Z :=
  let weapon := current (weapons s) in
  (ammo (weapons s) !! weapon, maxAmmo (weapons s) !! weapon).

(** The events of the paths that hold something else than a number:
    ['weapons.current'] (a string), ['weapons.owned'] (an array),
    [`weapons.ammo.${id}`] set to [undefined], and the ['root'] event of
    [reset]. [Numeric] embeds the events of the numeric paths. *)
Inductive storeEvent :=
| Numeric (e : event)
| STATE_CHANGED_current (oldValue newValue : string)
| STATE_CHANGED_owned (oldValue newValue : list string)
| STATE_CHANGED_undefined (p : path) (oldValue : option Z)
| STATE_CHANGED_reset.

Global Instance storeEvent_eq_dec : EqDecision storeEvent.
Proof. solve_decision. Defined.

Definition MS (A : Type) : Type := state → A * state * list storeEvent.

Global Instance MS_ret : MRet MS := λ A a s, (a, s, []).
Global Instance MS_bind : MBind MS := λ A B f m s,
  let '(a, s1, l1) := m s in
  let '(b, s2, l2) := f a s1 in
  (b, s2, l1 ++ l2).

(** A method of the numeric part, called from here. *)
Definition numeric {A} (m : M A) : MS A := λ s,
  let '(a, s', l) := m s in (a, s', Numeric <$> l).

Definition returned {A} (r : A * state * list storeEvent) : A := r.1.1.
Definition state_after {A} (r : A * state * list storeEvent) : state := r.1.2.
Definition log_of {A} (r : A * state * list storeEvent) : list storeEvent := r.2.

Definition getState' : MS state := λ s, (s, s, []).
Definition emit' (e : storeEvent) : MS unit := λ s, (tt, s, [e]).
Definition putState (f : state → state) : MS unit := λ s, (tt, f s, []).

Definition set_current (weaponId : string) (q : weaponsState) : weaponsState :=
  mkWeapons weaponId (owned q) (ammo q) (maxAmmo q).
Definition set_owned (l : list string) (q : weaponsState) : weaponsState :=
  mkWeapons (current q) l (ammo q) (maxAmmo q).
Definition unset_ammo (weaponId : string) (q : weaponsState) : weaponsState :=
  mkWeapons (current q) (owned q) (delete weaponId (ammo q)) (maxAmmo q).

Definition reset : MS unit :=
  putState (λ _, initialState);;
  emit' STATE_CHANGED_reset.

(** [owned.includes(weaponId)] *)
Definition switchWeapon (weaponId : string) : MS bool :=
  s ← getState';
  if bool_decide (weaponId ∈ owned (weapons s)) then
    putState (with_weapons (set_current weaponId));;
    emit' (STATE_CHANGED_current (current (weapons s)) weaponId);;
    emit' (Numeric (WEAPON_SWITCHED weaponId));;
    mret true
  else mret false.

(** [push] changes the array in place, so the old and the new value that
    [setState] reports are the same array, the one with the weapon in it. *)
Definition addWeapon (weaponId : string) : MS unit :=
  s ← getState';
  if negb (bool_decide (weaponId ∈ owned (weapons s))) then
    let owned' := owned (weapons s) ++ [weaponId] in
    putState (with_weapons (set_owned owned'));;
    emit' (STATE_CHANGED_owned owned' owned')
  else mret tt.

(** For an identifier without a maximum, [maxAmmo] is [undefined] and so is
    the ammo it is set to: the entry reads as [undefined] from then on. *)
Definition reloadWeapon (weaponId : string) : MS unit :=
  s ← getState';
  match maxAmmo (weapons s) !! weaponId with
  | Some maxAmmo => numeric (setState (weapons_ammo weaponId) maxAmmo)
  | None =>
      putState (with_weapons (unset_ammo weaponId));;
      emit' (STATE_CHANGED_undefined (weapons_ammo weaponId)
               (ammo (weapons s) !! weaponId))
  end.

(** One call of a method of the store. *)
Inductive call :=
| Reset
| AddCoins (amount : Z) | SpendCoins (amount : Z)
| Damage (amount : Z) | Heal (amount : Z)
| AddArmor (armorPoints healthBonus : Z)
| AddKill (isHeadshot : bool)
| SwitchWeapon (weaponId : string) | AddWeapon (weaponId : string)
| UseAmmo | ReloadWeapon (weaponId : string).

Definition discard {A} (m : MS A) : MS unit := m ≫= λ _, mret tt.

Definition run (c : call) : MS unit :=
  match c with
  | Reset => reset
  | AddCoins amount => numeric (addCoins amount)
  | SpendCoins amount => discard (numeric (spendCoins amount))
  | Damage amount => numeric (damage amount)
  | Heal amount => numeric (heal amount)
  | AddArmor armorPoints healthBonus => numeric (addArmor armorPoints healthBonus)
  | AddKill isHeadshot => numeric (addKill isHeadshot)
  | SwitchWeapon weaponId => discard (switchWeapon weaponId)
  | AddWeapon weaponId => addWeapon weaponId
  | UseAmmo => discard (numeric useAmmo)
  | ReloadWeapon weaponId => reloadWeapon weaponId
  end.

Definition after (c : call) (s : state) : state := state_after (run c s).

(** The states of the store that calls satisfying [P] lead to from the
    initial one. *)
Inductive reachable_by (P : call → Prop) : state → Prop :=
| reachable_initial : reachable_by P initialState
| reachable_call s c : reachable_by P s → P c → reachable_by P (after c s).

(** Amounts as the game passes them: none is negative, and an armor's
    health bonus does not bring the full health below 0. *)
Definition sane (c : call) : Prop :=
  match c with
  | AddCoins amount | SpendCoins amount | Damage amount | Heal amount =>
      0 ≤ amount
  | AddArmor armorPoints healthBonus => 0 ≤ armorPoints ∧ 0 ≤ 100 + healthBonus
  | _ => True
  end.

(** The bounds of the snapshot: health within [0, maxHealth], armor within
    [0, maxArmor], coins and kills not negative, every ammo count within
    [0, max] of its weapon, and the table of maxima as configured. *)
Record bounded (s : state) : Prop := {
  health_bounded : 0 ≤ health (player s) ≤ maxHealth (player s);
  armor_bounded : 0 ≤ armor (player s) ≤ maxArmor (player s);
  coins_bounded : 0 ≤ coins (player s);
  kills_bounded : 0 ≤ kills (player s);
  maxAmmo_fixed : maxAmmo (weapons s) = maxAmmo (weapons initialState);
  ammo_bounded : ∀ w a, ammo (weapons s) !! w = Some a →
                 ∃ m, maxAmmo (weapons s) !! w = Some m ∧ 0 ≤ a ≤ m }.

(** What holds of the weapons however the store is used. *)
Record armed (s : state) : Prop := {
  current_owned : current (weapons s) ∈ owned (weapons s);
  pistol_owned : "pistol"%string ∈ owned (weapons s);
  owned_NoDup : NoDup (owned (weapons s)) }.

(** [n] calls of [useAmmo] in a row, with their results in order. *)
Fixpoint useAmmo_times (n : nat) : M (list bool) :=
  match n with
  | O => mret []
  | S n' =>
      b ← useAmmo;
      bs ← useAmmo_times n';
      mret (b :: bs)
  end.

End Store.

(** ** ui/Shop.js: the purchase *)

Module Shop.
Import GameState Store.

(** An item of the shop with the type [renderItems] lists it under: a
    weapon, an armor with its points and health bonus, or an ammo pack. *)
Inductive item :=
| weaponItem (id : string) (price : Z)
| armorItem (id : string) (armorPoints healthBonus price : Z)
| ammoItem (id : string) (price : Z).

Global Instance item_eq_dec : EqDecision item.
Proof. solve_decision. Defined.

Definition price (i : item) : Z :=
  match i with
  | weaponItem _ p | armorItem _ _ _ p | ammoItem _ p => p
  end.

Definition WEAPONS_SHOTGUN : item := weaponItem "shotgun" 50.
Definition ARMOR_CAMOUFLAGE : item := armorItem "armor1" 25 25 50.
Definition ARMOR_VEST : item := armorItem "armor2" 50 50 100.
Definition ARMOR_ASSAULT : item := armorItem "armor3" 100 100 500.
Definition AMMO_PISTOL : item := ammoItem "ammo" 14.
Definition AMMO_SHOTGUN : item := ammoItem "shotgunAmmo" 20.

Definition catalogue : list item :=
  [WEAPONS_SHOTGUN; ARMOR_CAMOUFLAGE; ARMOR_VEST; ARMOR_ASSAULT;
   AMMO_PISTOL; AMMO_SHOTGUN].

Inductive shopEvent :=
| FromStore (e : storeEvent)
| PURCHASE_FAILED (i : item)
| ITEM_PURCHASED (i : item).

Global Instance shopEvent_eq_dec : EqDecision shopEvent.
Proof. solve_decision. Defined.

(** What the purchase of [i] asks of the store once it is paid. *)
Definition deliver (i : item) : MS unit :=
  match i with
  | weaponItem id _ => addWeapon id;; reloadWeapon id
  | armorItem _ armorPoints healthBonus _ => numeric (addArmor armorPoints healthBonus)
  | ammoItem id _ =>
      let weaponId :=
        if decide (id = "ammo"%string) then "pistol"%string else "shotgun"%string in
      reloadWeapon weaponId
  end.

Definition purchaseItem (i : item) (s : state) : state * list shopEvent :=
  let paid := numeric (spendCoins (price i)) s in
  let success := paid.1.1 in
  if negb success then
    (paid.1.2, (FromStore <$> paid.2) ++ [PURCHASE_FAILED i])
  else
    let delivered := deliver i paid.1.2 in
    (delivered.1.2,
     (FromStore <$> paid.2) ++ (FromStore <$> delivered.2) ++ [ITEM_PURCHASED i]).

(** The store calls a paid purchase of [i] amounts to. *)
Definition delivery (i : item) : list call :=
  match i with
  | weaponItem id _ => [AddWeapon id; ReloadWeapon id]
  | armorItem _ armorPoints healthBonus _ => [AddArmor armorPoints healthBonus]
  | ammoItem id _ =>
      [ReloadWeapon (if decide (id = "ammo"%string)
                     then "pistol"%string else "shotgun"%string)]
  end.

End Shop.

(** ** entities/Weapon.js: a run of shots *)

Module Volley.
Import GameState Weapon.

(** Pulling the trigger at each of the given clock readings in turn (the
    pair is the reading inside [canFire] and the one stored on success),
    with the results in order. *)
Fixpoint fire_at (times : list (Z * Z)) (w : weapon) (s : state)
  : list bool * weapon * state :=
  match times with
  | [] => ([], w, s)
  | (now, now') :: rest =>
      let '(b, w1, s1, _) := fire now now' w s in
      let '(bs, w2, s2) := fire_at rest w1 s1 in
      (b :: bs, w2, s2)
  end.

Definition shots (bs : list bool) : Z := Z.of_nat (length (filter (λ b, b = true) bs)).

End Volley.

(** ** systems/CollisionSystem.js, the remaining queries *)

Module Queries.
Import Vector3 Constants.
Local Open Scope R_scope.

Definition PLAYER_COLLISION_RADIUS : R := 0.6.
Definition ZOMBIE_ATTACK_RANGE : R := 2.

(** [Vector3.distanceTo]: the root of [distanceToSquared]. *)
Definition distanceTo (a b : vec3) : R :=
  let dx := x a - x b in
  let dy := y a - y b in
  let dz := z a - z b in
  sqrt (dx * dx + dy * dy + dz * dz).

Record barrier := mkBarrier {
  position : vec3; rotation : R; width : R; depth : R }.

Definition checkRotatedBoxCollision (pos : vec3) (radius : R) (b : barrier)
  : bool :=
  let dx := x pos - x (position b) in
  let dz := z pos - z (position b) in
  let cos := cos (- rotation b) in
  let sin := sin (- rotation b) in
  let localX := dx * cos - dz * sin in
  let localZ := dx * sin + dz * cos in
  let halfWidth := width b / 2 + radius in
  let halfDepth := depth b / 2 + radius in
  bool_decide (Rabs localX < halfWidth) && bool_decide (Rabs localZ < halfDepth).

(** [for (const barrier of this.barriers)] with its early return. *)
Fixpoint checkBarrierCollision (barriers : list barrier) (pos : vec3)
    (radius : R) : bool :=
  match barriers with
  | [] => false
  | b :: rest =>
      if checkRotatedBoxCollision pos radius b then true
      else checkBarrierCollision rest pos radius
  end.

Definition checkSphereCollision (pos1 : vec3) (radius1 : R)
    (pos2 : vec3) (radius2 : R) : bool :=
  bool_decide (distanceTo pos1 pos2 < radius1 + radius2).

Definition checkAttackRange (playerPos enemyPos : vec3) : bool :=
  bool_decide (distanceTo playerPos enemyPos <= ZOMBIE_ATTACK_RANGE).

Definition pointInSphere (point sphereCenter : vec3) (radius : R) : bool :=
  bool_decide (distanceTo point sphereCenter <= radius).

Definition closestPointOnLine (point lineStart lineEnd : vec3) : vec3 :=
  let line := subVectors lineEnd lineStart in
  let len := length line in
  let line := normalize line in
  let v := subVectors point lineStart in
  let d := dot v line in
  let d := Rmax 0 (Rmin len d) in
  add lineStart (multiplyScalar line d).

Definition isWithinBounds (pos : vec3) (boundary : R) : bool :=
  bool_decide (Rabs (x pos) < boundary) && bool_decide (Rabs (z pos) < boundary).

Definition clampToBounds (pos : vec3) (boundary : R) : vec3 :=
  {| x := Rmax (- boundary) (Rmin boundary (x pos));
     y := y pos;
     z := Rmax (- boundary) (Rmin boundary (z pos)) |}.

Definition findEnemiesInRadius (center : vec3) (radius : R)
    (enemies : list Enemy.enemy) : list Enemy.enemy :=
  filter (λ enemy, distanceTo center (Enemy.position enemy) <= radius) enemies.

(** entities/Enemy.js: [getDistanceTo] and [isInAttackRange]. *)
Definition getDistanceTo (e : Enemy.enemy) (target : vec3) : R :=
  distanceTo (Enemy.position e) target.

Definition isInAttackRange (e : Enemy.enemy) (target : vec3) : bool :=
  bool_decide (getDistanceTo e target <= ZOMBIE_ATTACK_RANGE).

(** entities/Player.js: [checkCollision], the player's own copy of the
    barrier test. *)
Fixpoint checkCollision (pos : vec3) (barriers : list barrier) : bool :=
  match barriers with
  | [] => false
  | b :: rest =>
      let dx := x pos - x (position b) in
      let dz := z pos - z (position b) in
      let cos := cos (- rotation b) in
      let sin := sin (- rotation b) in
      let localX := dx * cos - dz * sin in
      let localZ := dx * sin + dz * cos in
      let halfWidth := width b / 2 + PLAYER_COLLISION_RADIUS in
      let halfDepth := depth b / 2 + PLAYER_COLLISION_RADIUS in
      if bool_decide (Rabs localX < halfWidth) && bool_decide (Rabs localZ < halfDepth)
      then true
      else checkCollision pos rest
  end.

(** The barrier turned by [phi] about its own center, and a point carried
    along with it. *)
Definition turned (phi : R) (b : barrier) : barrier :=
  {| position := position b; rotation := rotation b + phi;
     width := width b; depth := depth b |}.

Definition carried (phi : R) (c p : vec3) : vec3 :=
  let dx := x p - x c in
  let dz := z p - z c in
  {| x := x c + (dx * cos phi - dz * sin phi);
     y := y p;
     z := z c + (dx * sin phi + dz * cos phi) |}.

(** The point of the segment at fraction [t]. *)
Definition lerp (a b : vec3) (t : R) : vec3 :=
  add a (multiplyScalar (subVectors b a) t).

End Queries.

(** ** entities/Enemy.js: an enemy over its lifetime *)

Module EnemyLife.
Import Vector3 Constants Enemy.

(** One call of a method that changes the enemy or depends on the clock. *)
Inductive call :=
| Update (deltaTime : R) (playerPosition : vec3) (now : Z)
| TakeDamage (now amount : Z) (isHeadshot : bool)
| Attack (now now' : Z).

Inductive outcome :=
| ShouldRemove (b : bool)
| Killed (b : bool)
| Dealt (damage : Z).

Global Instance outcome_eq_dec : EqDecision outcome.
Proof. solve_decision. Defined.

Definition run (c : call) (e : enemy) : outcome * enemy :=
  match c with
  | Update deltaTime playerPosition now =>
      let r := update deltaTime playerPosition now e in (ShouldRemove r.1, r.2)
  | TakeDamage now amount isHeadshot =>
      let r := takeDamage now amount isHeadshot e in (Killed r.1, r.2)
  | Attack now now' =>
      let r := attack now now' e in (Dealt r.1, r.2)
  end.

Fixpoint runs (cs : list call) (e : enemy) : list outcome * enemy :=
  match cs with
  | [] => ([], e)
  | c :: rest =>
      let '(o, e1) := run c e in
      let '(os, e2) := runs rest e1 in
      (o :: os, e2)
  end.

(** How often the enemy was killed. *)
Definition kills (os : list outcome) : nat :=
  List.length (filter (λ o, o = Killed true) os).

End EnemyLife.

(** ** systems/SpawnerSystem.js: the queries, and what a tick keeps *)

Module SpawnerQueries.
Import Vector3 Constants SpawnerSystem.
Local Open Scope nat_scope.

(** [!e.isDead] on the object behind a reference; a reference to no object
    counts as not alive. *)
Definition isAlive (w : world) (r : nat) : bool :=
  match heap w !! r with
  | Some obj => negb (Enemy.isDead obj)
  | None => false
  end.

Definition getLivingEnemies (w : world) : list nat :=
  filter (λ r, isAlive w r = true) (enemies w).

Definition getAllEnemies (w : world) : list nat := enemies w.

Definition getEnemyCount (w : world) : nat := List.length (enemies w).

Definition getLivingCount (w : world) : nat :=
  List.length (filter (λ r, isAlive w r = true) (enemies w)).

(** Every enemy of the dead list is dead. *)
Definition deadEnemies_dead (w : world) : Prop :=
  ∀ r, r ∈ deadEnemies w → dead_at w r.

(** The counter names the next object, and every object carries the number
    it was created under. *)
Definition numbered (w : world) : Prop :=
  List.length (heap w) = enemyIdCounter w ∧
  ∀ r obj, heap w !! r = Some obj → Enemy.id obj = r.

(** Two states of one object that differ at most in its position. *)
Definition moved (obj obj' : Enemy.enemy) : Prop :=
  Enemy.id obj' = Enemy.id obj ∧
  Enemy.health obj' = Enemy.health obj ∧
  Enemy.isDead obj' = Enemy.isDead obj ∧
  Enemy.deathTime obj' = Enemy.deathTime obj ∧
  Enemy.lastAttackTime obj' = Enemy.lastAttackTime obj ∧
  Enemy.head obj' = Enemy.head obj.

(** The object behind [r] is a body that has outlived the despawn time at
    one of the clock readings [clock]. *)
Definition expired (clock : Z → Prop) (w : world) (r : nat) : Prop :=
  ∃ obj t, heap w !! r = Some obj ∧ Enemy.isDead obj = true ∧ clock t ∧
           (ZOMBIE_BODY_DESPAWN_TIME < t - Enemy.deathTime obj)%Z.

(** What the two loops of a tick leave alone: the counter, the timer, the
    flag and the player position stay; objects are at most moved; no enemy
    joins the active set; nothing is added to the scene; and an enemy leaves
    the active set only by being disposed of, as an expired body. *)
Record calm (clock : Z → Prop) (w : world) (l : list action) (w' : world)
  : Prop := {
  calm_counter : enemyIdCounter w' = enemyIdCounter w;
  calm_timer : spawnTimer w' = spawnTimer w;
  calm_active : isActive w' = isActive w;
  calm_player : playerPosition w' = playerPosition w;
  calm_heap : List.length (heap w') = List.length (heap w);
  calm_objects : ∀ r obj, heap w !! r = Some obj →
                 ∃ obj', heap w' !! r = Some obj' ∧ moved obj obj';
  calm_enemies : ∀ r, r ∈ enemies w' → r ∈ enemies w;
  calm_no_spawn : ∀ r, Spawned r ∉ l;
  calm_disposed : ∀ r, Disposed r ∈ l →
                  r ∈ enemies w ∧ (r ∉ enemies w') ∧ expired clock w r;
  calm_kept : ∀ r, r ∈ enemies w → r ∈ enemies w' ∨ Disposed r ∈ l }.

(** The sweep has dealt with the dead list from index [n] on: what is left
    there has not outlived the despawn time at clock reading [now]. *)
Definition swept (now : Z) (n : nat) (w : world) : Prop :=
  ∀ j r obj, n ≤ j → deadEnemies w !! j = Some r → heap w !! r = Some obj →
             (now - Enemy.deathTime obj ≤ ZOMBIE_BODY_DESPAWN_TIME)%Z.

(** The clock readings of one tick: [now i] inside the update of the enemy
    at index [i], [now'] at the sweep of the dead. *)
Definition readings (now : nat → Z) (now' : Z) (t : Z) : Prop :=
  t = now' ∨ ∃ i, t = now i.

End SpawnerQueries.

(** ** systems/RaycastSystem.js *)

Module RaycastSystem.
Import Vector3 Constants GameState Store SpawnerSystem.

Definition REWARDS_KILL : Z := 50.
Definition REWARDS_HEADSHOT : Z := 75.
Definition ZOMBIE_HEADSHOT_Y_THRESHOLD : R := 2.3.

(** One entry of the result of [raycaster.intersectObjects]: the enemy the
    mesh belongs to ([userData.parentEnemy]) and the height of the hit point.
    The ray test itself is the library's. *)
Record intersection := mkIntersection { parentEnemy : nat; point_y : R }.

(** The events of a shot: those of the store, and the kill events the
    resolver publishes itself, which carry the enemy and the reward. *)
Inductive hitEvent :=
| ByGameState (e : event)
| ENEMY_KILLED_reward (enemy : nat) (reward : Z)
| ENEMY_HEADSHOT_reward (enemy : nat) (reward : Z).

Global Instance hitEvent_eq_dec : EqDecision hitEvent.
Proof. solve_decision. Defined.

(** [shoot(damage)] from the result of the ray test on; [now] is the clock
    reading inside [enemy.die]. The hit marker, the muzzle flash and the gore
    only touch the scene. [None] is a reference to no object. *)
Definition shoot (damage : Z) (intersects : list intersection) (now : Z)
    (w : world) (s : state) : option (world * state * list hitEvent) :=
  match intersects with
  | [] => Some (w, s, [])
  | first :: _ =>
      let enemy := parentEnemy first in
      match heap w !! enemy with
      | None => None
      | Some obj =>
          if negb (Enemy.isDead obj) then
            let isHeadshot :=
              bool_decide (y (Enemy.position obj) + ZOMBIE_HEADSHOT_Y_THRESHOLD
                           < point_y first)%R in
            let '(killed, obj') := Enemy.takeDamage now damage isHeadshot obj in
            let w' := set_heap <[enemy := obj']> w in
            if killed then
              let reward :=
                if isHeadshot then REWARDS_HEADSHOT else REWARDS_KILL in
              let '(_, s', l) := (addCoins reward;; addKill isHeadshot) s in
              Some (w', s',
                    (ByGameState <$> l) ++
                    [if isHeadshot then ENEMY_HEADSHOT_reward enemy reward
                     else ENEMY_KILLED_reward enemy reward])
            else Some (w', s, [])
          else Some (w, s, [])
      end
  end.

(** One shot as the caller sees it: the damage of the weapon, the result of
    the ray test, the clock. *)
Record shot := mkShot {
  damage_of : Z; intersects_of : list intersection; now_of : Z }.

Fixpoint shoot_all (shots : list shot) (w : world) (s : state)
  : option (world * state * list hitEvent) :=
  match shots with
  | [] => Some (w, s, [])
  | sh :: rest =>
      '(w1, s1, l1) ← shoot (damage_of sh) (intersects_of sh) (now_of sh) w s;
      '(w2, s2, l2) ← shoot_all rest w1 s1;
      Some (w2, s2, l1 ++ l2)
  end.

(** The bodies among all objects ever created. *)
Definition deadCount (w : world) : nat :=
  List.length (filter (λ obj, Enemy.isDead obj = true) (heap w)).

(** The shots that name an object. *)
Definition aimed (w : world) (sh : shot) : Prop :=
  ∀ first, head (intersects_of sh) = Some first →
           (parentEnemy first < List.length (heap w))%nat.

End RaycastSystem.

(** ** main.js: the frame loop's use of the enemies, and the trigger *)

Module Game.
Import Vector3 Constants GameState Store SpawnerSystem SpawnerQueries.

(** The clock readings of one iteration of [checkEnemyAttacks]: inside
    [canAttack], inside the [canAttack] of [attack], and at the write of
    [lastAttackTime]. *)
Record readings := mkReadings { atCheck : Z; atAttack : Z; atStamp : Z }.












(** [this.weapons]: the [Weapon] objects by their type. *)
Record game := mkGame {
  arsenal : gmap string Weapon.weapon;
  spawner : world;
  store : state }.

(** [config.damage], where [config] is [WEAPONS[type.toUpperCase()]];
    [None] where there is no such entry. *)
Definition getDamage (wp : Weapon.weapon) : option Z :=
  if decide (Weapon.type wp = "pistol"%string) then Some 50
  else if decide (Weapon.type wp = "shotgun"%string) then Some 100
  else None.

(** The log of a pull of the trigger: the weapon's part, then the
    resolver's. *)
Definition shootLog : Type :=
  list (Weapon.publisher * event) * list RaycastSystem.hitEvent.

(** [shoot()]: [now] and [now'] are the clock readings of the weapon,
    [now''] that of the resolver; [intersects] is what the ray test finds. *)
Definition shoot (now now' now'' : Z)
    (intersects : list RaycastSystem.intersection) (g : game)
  : option (game * shootLog) :=
  let weaponType := current (weapons (store g)) in
  match arsenal g !! weaponType with
  | None => Some (g, ([], []))
  | Some currentWeapon =>
      let '(fired, weapon', s', l) :=
        Weapon.fire now now' currentWeapon (store g) in
      let arsenal' := <[weaponType := weapon']> (arsenal g) in
      if fired then
        damage ← getDamage weapon';
        '(w'', s'', l') ← RaycastSystem.shoot damage intersects now'' (spawner g) s';
        Some (mkGame arsenal' w'' s'', (l, l'))
      else Some (mkGame arsenal' (spawner g) s', (l, []))
  end.

(** Every weapon is filed under its own type, and has a configuration. *)
Definition keyed (g : game) : Prop :=
  ∀ k wp, arsenal g !! k = Some wp → Weapon.type wp = k ∧ is_Some (getDamage wp).

(** The state [init] sets up: a pistol and a shotgun. *)
Definition init : game :=
  {| arsenal := {[ "pistol"%string := Weapon.new "pistol";
                   "shotgun"%string := Weapon.new "shotgun" ]};
     spawner := SpawnerSystem.initial;
     store := initialState |}.

(** One pull of the trigger with what it needs from outside. *)
Record pull := mkPull {
  fireAt : Z; stampAt : Z; dieAt : Z;
  found : list RaycastSystem.intersection }.

(** The pulls whose ray test names an object. *)
Definition aimed (g : game) (p : pull) : Prop :=
  ∀ first, head (found p) = Some first →
           (RaycastSystem.parentEnemy first < List.length (heap (spawner g)))%nat.

Fixpoint shoot_all (pulls : list pull) (g : game) : option game :=
  match pulls with
  | [] => Some g
  | p :: rest =>
      '(g1, _) ← shoot (fireAt p) (stampAt p) (dieAt p) (found p) g;
      shoot_all rest g1
  end.

End Game.

(** ** entities/Player.js: keys and movement *)

Module Player.
Import Vector3 Queries.
Local Open Scope R_scope.

Definition PLAYER_SPEED : R := 8.
Definition PLAYER_JUMP_FORCE : R := 10.

Record keys := mkKeys {
  forward : bool; backward : bool; left : bool; right : bool }.

(** [position] is [group.position], [velocity_y] is [velocity.y] (the other
    components of the velocity are never written), [rotation_y] the yaw. *)
Record player := mkPlayer {
  position : vec3; velocity_y : R; isJumping : bool;
  rotation_x : R; rotation_y : R; pressed : keys }.

Definition new : player :=
  {| position := mkVec3 0 0 0; velocity_y := 0; isJumping := false;
     rotation_x := 0; rotation_y := 0;
     pressed := mkKeys false false false false |}.

(** [Vector3.applyAxisAngle] about the y axis, with the library's meaning. *)
Definition applyAxisAngleY (v : vec3) (angle : R) : vec3 :=
  {| x := x v * cos angle + z v * sin angle;
     y := y v;
     z := - x v * sin angle + z v * cos angle |}.

Inductive code := KeyW | KeyS | KeyA | KeyD | Space | OtherKey.

Definition with_pressed (f : keys → keys) (p : player) : player :=
  mkPlayer (position p) (velocity_y p) (isJumping p) (rotation_x p)
           (rotation_y p) (f (pressed p)).

(** [onKeyDown(e)]: ignored unless the game is on and the shop closed. *)
Definition onKeyDown (s : GameState.state) (c : code) (p : player) : player :=
  if negb (GameState.isPlaying s) || GameState.shopOpen s then p
  else
    match c with
    | KeyW => with_pressed (λ k, mkKeys true (backward k) (left k) (right k)) p
    | KeyS => with_pressed (λ k, mkKeys (forward k) true (left k) (right k)) p
    | KeyA => with_pressed (λ k, mkKeys (forward k) (backward k) true (right k)) p
    | KeyD => with_pressed (λ k, mkKeys (forward k) (backward k) (left k) true) p
    | Space =>
        if negb (isJumping p) then
          mkPlayer (position p) PLAYER_JUMP_FORCE true (rotation_x p)
                   (rotation_y p) (pressed p)
        else p
    | OtherKey => p
    end.

Definition onKeyUp (c : code) (p : player) : player :=
  match c with
  | KeyW => with_pressed (λ k, mkKeys false (backward k) (left k) (right k)) p
  | KeyS => with_pressed (λ k, mkKeys (forward k) false (left k) (right k)) p
  | KeyA => with_pressed (λ k, mkKeys (forward k) (backward k) false (right k)) p
  | KeyD => with_pressed (λ k, mkKeys (forward k) (backward k) (left k) false) p
  | Space | OtherKey => p
  end.

(** The direction the keys ask for, before normalization and turning. *)
Definition moveDirection (k : keys) : vec3 :=
  let z0 := 0 in
  let z1 := if forward k then z0 - 1 else z0 in
  let z2 := if backward k then z1 + 1 else z1 in
  let x0 := 0 in
  let x1 := if left k then x0 - 1 else x0 in
  let x2 := if right k then x1 + 1 else x1 in
  mkVec3 x2 0 z2.

(** [update(deltaTime, barriers)] without the animation and the camera.
    [PLAYER.PHYSICS] is not defined, so the gravity term is
    [-25 * deltaTime]. *)
Definition update (deltaTime : R) (barriers : list barrier) (p : player)
  : player :=
  let direction := moveDirection (pressed p) in
  let pos :=
    if decide (0 < length direction) then
      let direction := applyAxisAngleY (normalize direction) (rotation_y p) in
      let newPosition :=
        {| x := x (position p) + x direction * PLAYER_SPEED * deltaTime;
           y := y (position p);
           z := z (position p) + z direction * PLAYER_SPEED * deltaTime |} in
      if negb (checkCollision newPosition barriers) then newPosition
      else position p
    else position p in
  let vy := velocity_y p + -25 * deltaTime in
  let py := y pos + vy * deltaTime in
  if decide (py <= 0) then
    mkPlayer (mkVec3 (x pos) 0 (z pos)) 0 false (rotation_x p) (rotation_y p)
             (pressed p)
  else
    mkPlayer (mkVec3 (x pos) py (z pos)) vy (isJumping p) (rotation_x p)
             (rotation_y p) (pressed p).

(** [onMouseMove(e)]; [locked] tells whether the pointer is locked. *)
Definition onMouseMove (s : GameState.state) (locked : bool)
    (movementX movementY : R) (p : player) : player :=
  if negb (GameState.isPlaying s) || GameState.shopOpen s then p
  else if locked then
    mkPlayer (position p) (velocity_y p) (isJumping p)
             (Rmax (- PI / 2) (Rmin (PI / 2) (rotation_x p - movementY * 0.002)))
             (rotation_y p - movementX * 0.002) (pressed p)
  else p.

(** What reaches the player: key and mouse events, and frames. *)
Inductive call :=
| KeyDown (s : GameState.state) (c : code) | KeyUp (c : code)
| MouseMove (s : GameState.state) (locked : bool) (movementX movementY : R)
| Update (deltaTime : R) (barriers : list barrier).

Definition run (c : call) (p : player) : player :=
  match c with
  | KeyDown s c => onKeyDown s c p
  | KeyUp c => onKeyUp c p
  | MouseMove s locked movementX movementY =>
      onMouseMove s locked movementX movementY p
  | Update deltaTime barriers => update deltaTime barriers p
  end.

(** The players a run of calls leads to from a new one. *)
Inductive reachable : player → Prop :=
| reachable_new : reachable new
| reachable_run c p : reachable p → reachable (run c p).

End Player.


(** * Properties *)

(** ** The damage and armor model of the store *)

Section GameStateProperties.
Import GameState.

Ltac store_unfold :=
  cbv [damage heal useAmmo mbind mret M_bind M_ret getState setState emit].

Lemma damage_run (amount : Z) (s : state) :
  damage amount s =
    let '(s1, l1) := afterArmor s amount in
    let '(s2, l2) := afterHealth s1 (amount - absorbed s amount) in
    (tt, s2, l1 ++ l2 ++ [PLAYER_DAMAGED amount (health (player s2))]).
Proof.
  store_unfold. unfold afterArmor, afterHealth, absorbed.
  destruct (0 <? armor (player s)); cbn; rewrite ?Z.sub_0_r;
    repeat (match goal with
            | |- context [if ?b then _ else _] => destruct b
            end; cbn); reflexivity.
Qed.

(** Scenario 1 of the specification: armor 50, health 100, damage 30. *)
Example damage_scenario_1 :
  let r := damage 30 (write player_armor 50 initialState) in
  armor (player (state_of r)) = 20 ∧ health (player (state_of r)) = 100 ∧
  published ARMOR_BROKEN (events_of r) = 0%nat.
Proof. by vm_compute. Qed.

(** Scenario 2 of the specification: armor 20, health 100, damage 50. *)
Example damage_scenario_2 :
  let r := damage 50 (write player_armor 20 initialState) in
  armor (player (state_of r)) = 0 ∧ health (player (state_of r)) = 70 ∧
  published ARMOR_BROKEN (events_of r) = 1%nat.
Proof. by vm_compute. Qed.

(** C1. With armor [a > 0] and a damage amount [0 ≤ d ≤ a], [damage d]
    leaves the player's health as it was and lowers the armor by exactly
    [d]. *)
Theorem damage_within_armor (s : state) (d : Z) :
  0 < armor (player s) → 0 ≤ d ≤ armor (player s) →
  health (player (state_of (damage d s))) = health (player s) ∧
  armor (player (state_of (damage d s))) = armor (player s) - d.
Proof.
  intros Ha Hd. rewrite damage_run. unfold afterArmor, afterHealth, absorbed.
  destruct (Z.ltb_spec 0 (armor (player s))); [|lia].
  rewrite Z.min_r by lia. rewrite Z.sub_diag. done.
Qed.

Lemma damage_within_armor_witness :
  let s := write player_armor 50 initialState in
  health (player (state_of (damage 30 s))) = health (player s) ∧
  armor (player (state_of (damage 30 s))) = armor (player s) - 30.
Proof. apply damage_within_armor; cbn; lia. Defined.

(** C2. With armor [a > 0] and a damage amount [d > a], [damage d] sets the
    armor to 0, publishes [ARMOR_BROKEN] exactly once, and lowers the health
    by [d - a], but not below 0. *)
Theorem damage_exceeding_armor (s : state) (d : Z) :
  0 < armor (player s) → armor (player s) < d →
  armor (player (state_of (damage d s))) = 0 ∧
  published ARMOR_BROKEN (events_of (damage d s)) = 1%nat ∧
  health (player (state_of (damage d s))) =
    Z.max 0 (health (player s) - (d - armor (player s))).
Proof.
  intros Ha Hd. rewrite damage_run. unfold afterArmor, afterHealth, absorbed.
  destruct (Z.ltb_spec 0 (armor (player s))); [|lia].
  rewrite Z.min_l by lia. rewrite Z.sub_diag.
  destruct (Z.ltb_spec 0 (d - armor (player s))); [|lia].
  cbn. split; [done|]. split; [|done].
  unfold published. destruct (_ <=? 0); reflexivity.
Qed.

Lemma damage_exceeding_armor_witness :
  let s := write player_armor 20 initialState in
  armor (player (state_of (damage 50 s))) = 0 ∧
  published ARMOR_BROKEN (events_of (damage 50 s)) = 1%nat ∧
  health (player (state_of (damage 50 s))) =
    Z.max 0 (health (player s) - (50 - armor (player s))).
Proof. apply damage_exceeding_armor; cbn; lia. Defined.

(** C3, as the specification states it, fails: the first call below takes
    the health from 100 to 0 and publishes [PLAYER_DIED]; the second call
    finds the health at 0, leaves it at 0, and publishes [PLAYER_DIED]
    again. *)
Lemma player_died_published_again :
  let r1 := damage 100 initialState in
  let r2 := damage 10 (state_of r1) in
  health (player initialState) = 100 ∧
  health (player (state_of r1)) = 0 ∧
  published PLAYER_DIED (events_of r1) = 1%nat ∧
  health (player (state_of r2)) = 0 ∧
  published PLAYER_DIED (events_of r2) = 1%nat.
Proof. by vm_compute. Qed.

(** C3, amended. One [damage] call publishes [PLAYER_DIED] once when damage
    remains after the armor took its share and the health it leaves is 0,
    and not at all otherwise. So a call that takes the health from a
    positive value to 0 publishes it exactly once, and so does every later
    call whose damage reaches the health while the health is still 0. *)
Theorem player_died_once_per_call (s : state) (d : Z) :
  let remaining := d - absorbed s d in
  let health' := health (player (state_of (damage d s))) in
  published PLAYER_DIED (events_of (damage d s)) =
    (if (0 <? remaining) && (health' <=? 0) then 1%nat else 0%nat) ∧
  (0 < health (player s) → health' = 0 →
   published PLAYER_DIED (events_of (damage d s)) = 1%nat) ∧
  (health (player s) = 0 → 0 < remaining →
   health' = 0 ∧ published PLAYER_DIED (events_of (damage d s)) = 1%nat).
Proof.
  cbv zeta. rewrite damage_run. unfold afterArmor, afterHealth, absorbed, published.
  destruct (Z.ltb_spec 0 (armor (player s))) as [Ha|Ha]; cbn [fst snd];
    rewrite ?Z.sub_0_r.
  - destruct (Z.ltb_spec 0 (d - Z.min (armor (player s)) d)) as [Hr|Hr];
      cbn [events_of state_of fst snd andb write with_player player health].
    + destruct (Z.leb_spec (Z.max 0 (health (player s) - (d - Z.min (armor (player s)) d))) 0);
        destruct (_ <=? 0); cbn; repeat split; intros; lia.
    + destruct (_ <=? 0); cbn; repeat split; intros; lia.
  - destruct (Z.ltb_spec 0 d) as [Hr|Hr];
      cbn [events_of state_of fst snd andb write with_player player health app].
    + destruct (Z.leb_spec (Z.max 0 (health (player s) - d)) 0);
        cbn; repeat split; intros; lia.
    + cbn; repeat split; intros; lia.
Qed.

Lemma player_died_once_per_call_witness :
  published PLAYER_DIED (events_of (damage 100 initialState)) = 1%nat.
Proof.
  apply (proj1 (proj2 (player_died_once_per_call initialState 100)));
    [cbn; lia | reflexivity].
Defined.

(** C10. For [amount ≥ 0], [heal amount] sets the health to
    [min(maxHealth, health + amount)]: the result is never above
    [maxHealth], never below the former health when that was at most
    [maxHealth], and no other field of the state changes. *)
Theorem heal_caps_at_maxHealth (s : state) (amount : Z) :
  0 ≤ amount →
  let s' := state_of (heal amount s) in
  health (player s') =
    Z.min (maxHealth (player s)) (health (player s) + amount) ∧
  health (player s') ≤ maxHealth (player s') ∧
  (health (player s) ≤ maxHealth (player s) →
   health (player s) ≤ health (player s')) ∧
  maxHealth (player s') = maxHealth (player s) ∧
  armor (player s') = armor (player s) ∧
  maxArmor (player s') = maxArmor (player s) ∧
  coins (player s') = coins (player s) ∧
  kills (player s') = kills (player s) ∧
  weapons s' = weapons s ∧
  isPlaying s' = isPlaying s ∧ isPaused s' = isPaused s ∧
  shopOpen s' = shopOpen s ∧ isFirstPerson s' = isFirstPerson s.
Proof.
  intros Hamount. store_unfold. cbn. repeat split; lia.
Qed.

Lemma heal_caps_at_maxHealth_witness :
  let s := write player_health 50 initialState in
  let s' := state_of (heal 75 s) in
  health (player s') = 100 ∧ maxHealth (player s') = 100.
Proof.
  cbv zeta.
  pose proof (heal_caps_at_maxHealth (write player_health 50 initialState) 75) as H.
  cbv zeta in H. destruct H as (H1 & _ & _ & H4 & _); [lia|].
  split; [exact H1 | exact H4].
Defined.

End GameStateProperties.

(** ** The gate of the weapon *)

Section WeaponProperties.
Import GameState Weapon.

(** Scenario 5 of the specification: ammo 12, [useAmmo()]. *)
Example useAmmo_scenario_5 :
  let r := useAmmo initialState in
  result_of r = true ∧
  read (weapons_ammo "pistol") (state_of r) = Some 11 ∧
  events_of r =
    [STATE_CHANGED (weapons_ammo "pistol") (Some 12) 11; WEAPON_FIRED "pistol" 11].
Proof. by vm_compute. Qed.

(** C4, as the specification states it, fails: with an empty magazine the
    shot fails and the one [WEAPON_EMPTY] of the log is published by the
    weapon's own code; the store is not called. *)
Lemma fire_empty_published_by_weapon :
  let s := write (weapons_ammo "pistol") 0 initialState in
  let w := Weapon.new "pistol" in
  read (weapons_ammo (type w)) s = Some 0 ∧
  fire 1000 1000 w s = (false, w, s, [(ByWeapon, WEAPON_EMPTY "pistol")]).
Proof. by vm_compute. Qed.

(** C4, amended. A shot refused by the fire-rate interval alone (ammo above
    0) returns false and publishes nothing. A shot refused with ammo at 0 or
    below returns false and the weapon itself publishes [WEAPON_EMPTY], once;
    the store's [useAmmo] is not called. Either way the weapon and the store
    stay as they were. *)
Theorem fire_refused (now now' : Z) (w : weapon) (s : state) (n : Z) :
  read (weapons_ammo (type w)) s = Some n →
  (0 < n → now - lastFireTime w < fireRate w →
   fire now now' w s = (false, w, s, [])) ∧
  (n ≤ 0 →
   fire now now' w s = (false, w, s, [(ByWeapon, WEAPON_EMPTY (type w))])).
Proof.
  intros Hn. unfold fire, canFire. rewrite Hn. split.
  - intros Hpos Hcool.
    destruct (Z.ltb_spec 0 n); [|lia].
    destruct (Z.leb_spec (fireRate w) (now - lastFireTime w)); [lia|].
    destruct (Z.leb_spec n 0); [lia|]. reflexivity.
  - intros Hempty.
    destruct (Z.ltb_spec 0 n); [lia|].
    destruct (Z.leb_spec n 0); [|lia]. reflexivity.
Qed.

Lemma fire_refused_witness :
  let s := initialState in
  let w := {| type := "pistol"; lastFireTime := 900; fireRate := 300 |} in
  fire 1000 1000 w s = (false, w, s, []).
Proof.
  cbv zeta.
  apply (proj1 (fire_refused 1000 1000
                  {| type := "pistol"; lastFireTime := 900; fireRate := 300 |}
                  initialState 12 eq_refl)); cbn; lia.
Defined.

End WeaponProperties.

(** ** The life state of an enemy *)

Section EnemyProperties.
Import Enemy.

(** Scenario 3 of the specification: health 100, [takeDamage(100)]. *)
Example takeDamage_scenario_3 :
  let r := takeDamage 7000 100 false (Enemy.new 0) in
  r.1 = true ∧ isDead r.2 = true ∧ deathTime r.2 = 7000 ∧ health r.2 = 0.
Proof. by cbn. Qed.

(** C8. On a dead enemy, [takeDamage] returns false for every amount and
    leaves the enemy as it was: same health, same death timestamp, same life
    state (and same everything else). *)
Theorem takeDamage_dead (now amount : Z) (isHeadshot : bool) (e : enemy) :
  isDead e = true →
  takeDamage now amount isHeadshot e = (false, e).
Proof. intros Hdead. unfold takeDamage. by rewrite Hdead. Qed.

Lemma takeDamage_dead_witness :
  let e := (takeDamage 7000 200 true (Enemy.new 0)).2 in
  isDead e = true ∧ health e = -100 ∧
  takeDamage 9000 50 false e = (false, e).
Proof.
  cbv zeta. split; [reflexivity|]. split; [reflexivity|].
  apply takeDamage_dead. reflexivity.
Defined.

End EnemyProperties.

(** ** Ray against sphere *)

(** The quadratic of the specification, over the reals. *)

Section QuadraticProperties.
Import Vector3 CollisionSystem.
Local Open Scope R_scope.







End QuadraticProperties.

(** The value of a double. *)

Section DoubleProperties.
Import PrimFloat SpecFloat FloatOps FloatAxioms.
Import Double.




Lemma negative_nan : negative nan = false.
Proof. reflexivity. Qed.

End DoubleProperties.

(** The exact value of a closed double, by evaluation. *)
Ltac double_values :=
  unfold Double.toR3, Double.toR;
  cbn [Double.x Double.y Double.z Vector3.x Vector3.y Vector3.z];
  repeat match goal with
  | |- context [Double.toQ ?f] =>
      let v := eval vm_compute in (Double.toQ f) in
      change (Double.toQ f) with v
  end;
  unfold Q2R; cbn [QArith_base.Qnum QArith_base.Qden].


(** [raycastSphere] in binary64. *)

Section CollisionProperties.
Import PrimFloat.
Import Vector3 CollisionSystem.
Local Open Scope R_scope.




Example raycastSphere_aside :
  raycastSphere (Double.mkVec3 10 0 (-5)) (Double.mkVec3 0 0 1)
    (Double.mkVec3 0 0 0) 1 = None.
Proof. vm_compute. reflexivity. Qed.

Example raycastSphere_behind :
  raycastSphere (Double.mkVec3 0 0 5) (Double.mkVec3 0 0 1)
    (Double.mkVec3 0 0 0) 1 = None.
Proof. vm_compute. reflexivity. Qed.








(** Rounding also lets a ray that starts strictly inside the sphere report
    a hit: from (0, 0, -2) along +z, with the center at (0, 0, 0.7) and the
    radius 2.7, the origin is nearer to the center than the radius over
    these doubles, [c] is rounded to 0 and the hit is at distance 0.
    ([0x1.6666666666666p-1] is [0.7] and [0x1.599999999999ap+1] is
    [2.7].) *)
Example raycastSphere_inside_rounded :
  let O := Double.mkVec3 0 0 (-2) in
  let D := Double.mkVec3 0 0 1 in
  let C := Double.mkVec3 0 0 0x1.6666666666666p-1 in
  let r := 0x1.599999999999ap+1%float in
  dot (subVectors (Double.toR3 O) (Double.toR3 C))
      (subVectors (Double.toR3 O) (Double.toR3 C))
    < Double.toR r * Double.toR r ∧
  raycastSphere O D C r = Some {| distance := 0; point := O |}.
Proof.
  cbv zeta. split; [unfold dot, subVectors; double_values; lra|].
  vm_compute. reflexivity.
Qed.

End CollisionProperties.

(** ** Spawn positions *)

Section SpawnPositionProperties.
Import Vector3 Constants SpawnerSystem.
Local Open Scope R_scope.

Lemma clamp_within (b v : R) :
  0 <= b → Rabs (Rmax (- b) (Rmin b v)) <= b.
Proof.
  intros Hb. apply Rabs_le. unfold Rmax, Rmin.
  repeat destruct (Rle_dec _ _); lra.
Qed.

(** C7. Whatever the player's position and the two random draws (so for
    every angle in [0, 2π) and every distance of the spawn range), both
    horizontal coordinates of the spawn position lie within the map
    boundary. *)
Theorem getSpawnPosition_within_boundary (playerPosition : vec3) (rnd1 rnd2 : R) :
  Rabs (x (getSpawnPosition playerPosition rnd1 rnd2)) <= MAP_BOUNDARY ∧
  Rabs (z (getSpawnPosition playerPosition rnd1 rnd2)) <= MAP_BOUNDARY.
Proof.
  unfold getSpawnPosition. cbn.
  split; apply clamp_within; unfold MAP_BOUNDARY; lra.
Qed.

End SpawnPositionProperties.

(** ** The spawner's two lists *)

Section SpawnerProperties.
Import Vector3 Constants SpawnerSystem.
Local Open Scope nat_scope.

Ltac op_unfold :=
  cbv [mbind mret Op_bind Op_ret this modify perform throw].

(** *** Running a method *)

Lemma bind_Some {A B} (m : Op A) (f : A → Op B) w b w' l :
  (m ≫= f) w = Some (b, w', l) ↔
  ∃ a w1 l1 l2, m w = Some (a, w1, l1) ∧ f a w1 = Some (b, w', l2) ∧ l = l1 ++ l2.
Proof.
  op_unfold. split.
  - destruct (m w) as [[[a w1] l1]|]; [|done].
    destruct (f a w1) as [[[b' w2] l2]|] eqn:Hf; [|done].
    intros [= -> -> <-]. eauto 10.
  - intros (a & w1 & l1 & l2 & -> & -> & ->). done.
Qed.

(** *** [indexOf] and [splice] on lists without duplicates *)

Lemma indexOf_Some r l j : indexOf r l = Some j → l !! j = Some r.
Proof.
  revert j. induction l as [|r' l IH]; intros j; cbn; [done|].
  case_decide as Hr.
  - intros [= <-]. by rewrite Hr.
  - destruct (indexOf r l) as [k|]; cbn; [|done]. intros [= <-]. cbn. by apply IH.
Qed.

Lemma indexOf_None r l : indexOf r l = None → r ∉ l.
Proof.
  induction l as [|r' l IH]; cbn; [intros _; apply not_elem_of_nil|].
  case_decide as Hr; [done|].
  destruct (indexOf r l); cbn; [done|]. intros _.
  apply not_elem_of_cons. split; [congruence|by apply IH].
Qed.

Lemma indexOf_elem_of r l : r ∈ l → is_Some (indexOf r l).
Proof.
  intros Hr. destruct (indexOf r l) eqn:E; [eauto|].
  by apply indexOf_None in E.
Qed.

Lemma elem_of_delete_NoDup (l : list nat) i r x :
  NoDup l → l !! i = Some r → x ∈ delete i l ↔ x ∈ l ∧ x ≠ r.
Proof.
  intros Hnd Hi. rewrite delete_take_drop.
  rewrite <- (take_drop_middle l i r Hi) in Hnd at 1.
  rewrite <- (take_drop_middle l i r Hi) at 3.
  apply NoDup_app in Hnd as (_ & Hdisj & Hnd).
  apply NoDup_cons in Hnd as [Hr _].
  rewrite !elem_of_app, elem_of_cons. split.
  - intros [Hx|Hx]; (split; [tauto|]); intros ->.
    + apply (Hdisj r Hx). left.
    + done.
  - intros [[Hx|[->|Hx]] Hne]; tauto.
Qed.

Lemma NoDup_delete (l : list nat) i : NoDup l → NoDup (delete i l).
Proof. intros. eapply sublist_NoDup; [done|apply sublist_delete]. Qed.

(** *** Each step keeps the two lists consistent *)

Lemma removeEnemy_run i w :
  removeEnemy i w =
    match enemies w !! i with
    | None => None
    | Some r =>
        Some (tt,
              set_deadEnemies
                (λ d, match indexOf r d with
                      | Some j => delete j d
                      | None => d
                      end)
                (set_enemies (delete i) w),
              [Disposed r])
    end.
Proof.
  unfold removeEnemy. op_unfold.
  destruct (enemies w !! i) as [r|]; [|done]. cbn.
  destruct (indexOf r (deadEnemies w)) eqn:E;
    unfold set_deadEnemies; cbn; rewrite E; reflexivity.
Qed.

Lemma evolves_refl w : evolves w w.
Proof. split; auto. Qed.

Lemma evolves_trans w1 w2 w3 :
  consistent w1 → evolves w1 w2 → evolves w2 w3 → evolves w1 w3.
Proof.
  intros [_ _ Hsub Hal] [Hg1 Hd1 Hn1 Hl1 He1] [Hg2 Hd2 Hn2 Hl2 He2]. split.
  - lia.
  - auto.
  - intros r Hr Hin. apply Hn1; [done|]. apply Hn2; [lia|done].
  - intros r Hr. destruct (Hl1 r Hr) as [Hin|Hout]; [auto|].
    right. intros Hin. apply Hout. apply Hn2; [|done].
    assert (r < List.length (heap w1)) by auto. lia.
  - intros r Hr. destruct (He2 r Hr) as [Hin|]; [|auto].
    destruct (He1 r Hin); auto.
Qed.

Lemma update_isDead dt p now e :
  Enemy.isDead (Enemy.update dt p now e).2 = Enemy.isDead e.
Proof. unfold Enemy.update. destruct (Enemy.isDead e) eqn:E; [|done]. by case_match. Qed.

Lemma takeDamage_isDead now amount hs e :
  Enemy.isDead e = true → Enemy.isDead (Enemy.takeDamage now amount hs e).2 = true.
Proof. intros H. unfold Enemy.takeDamage. by rewrite H. Qed.

Lemma attack_isDead now now' e :
  Enemy.isDead (Enemy.attack now now' e).2 = Enemy.isDead e.
Proof. unfold Enemy.attack. by case_match. Qed.

Lemma set_heap_insert_ok w r obj obj' :
  heap w !! r = Some obj →
  (Enemy.isDead obj = true → Enemy.isDead obj' = true) →
  consistent w →
  consistent (set_heap <[r := obj']> w) ∧ evolves w (set_heap <[r := obj']> w).
Proof.
  intros Hr Hmono [Hne Hnd Hsub Hal].
  assert (Hlt : r < List.length (heap w)) by (by eapply lookup_lt_Some).
  split; split; cbn; rewrite ?length_insert; auto.
  intros x (o & Hx & Ho). unfold dead_at. cbn.
  destruct (decide (r = x)) as [->|Hne'].
  - rewrite list_lookup_insert_eq by done. exists obj'. split; [done|].
    apply Hmono. congruence.
  - rewrite list_lookup_insert_ne by done. eauto.
Qed.

Lemma removeEnemy_ok i w w' l :
  consistent w → removeEnemy i w = Some (tt, w', l) →
  consistent w' ∧ evolves w w' ∧
  ∃ r, enemies w !! i = Some r ∧ l = [Disposed r] ∧
       enemies w' = delete i (enemies w) ∧ heap w' = heap w ∧
       ∀ x, x ∈ deadEnemies w' ↔ x ∈ deadEnemies w ∧ x ≠ r.
Proof.
  intros [Hne Hnd Hsub Hal]. rewrite removeEnemy_run.
  destruct (enemies w !! i) as [r|] eqn:Hi; [|done]. intros [= <- <-].
  set (w' := set_deadEnemies _ _).
  assert (Hdead : ∀ x, x ∈ deadEnemies w' ↔ x ∈ deadEnemies w ∧ x ≠ r).
  { intros x. subst w'. cbn.
    destruct (indexOf r (deadEnemies w)) as [j|] eqn:Hj.
    - apply elem_of_delete_NoDup; [done|by apply indexOf_Some].
    - apply indexOf_None in Hj. split; [|tauto]. intros Hx.
      split; [done|]. by intros ->. }
  assert (Hen : ∀ x, x ∈ enemies w' ↔ x ∈ enemies w ∧ x ≠ r).
  { intros x. subst w'. cbn. by apply elem_of_delete_NoDup. }
  split; [|split].
  - split.
    + subst w'. cbn. by apply NoDup_delete.
    + subst w'. cbn.
      destruct (indexOf r (deadEnemies w)); [by apply NoDup_delete|done].
    + intros x Hx. apply Hdead in Hx as [Hx Hr]. apply Hen. auto.
    + intros x Hx. apply Hen in Hx as [Hx _]. subst w'. cbn. auto.
  - split.
    + done.
    + done.
    + intros x _ Hx. by apply Hen in Hx as [Hx _].
    + intros x Hx. destruct (decide (x = r)) as [->|Hxr].
      * right. rewrite Hen. tauto.
      * left. by apply Hdead.
    + intros x Hx. left. by apply Hdead in Hx as [Hx _].
  - exists r. done.
Qed.

Lemma push_dead_ok w r :
  r ∈ enemies w → r ∉ deadEnemies w → dead_at w r → consistent w →
  consistent (set_deadEnemies (λ l, l ++ [r]) w) ∧
  evolves w (set_deadEnemies (λ l, l ++ [r]) w).
Proof.
  intros Hr Hnr Hd [Hne Hnd Hsub Hal]. split; split; cbn; auto.
  - apply NoDup_app. split; [done|]. split; [|apply NoDup_singleton].
    intros x Hx ->%list_elem_of_singleton. done.
  - intros x [Hx| ->%list_elem_of_singleton]%elem_of_app; auto.
  - intros x Hx. left. apply elem_of_app. auto.
  - intros x [Hx| ->%list_elem_of_singleton]%elem_of_app; auto.
Qed.

Lemma spawnEnemy_run rnd1 rnd2 w :
  spawnEnemy rnd1 rnd2 w =
    Some (tt,
          set_enemies (λ l, l ++ [List.length (heap w)])
            (set_enemyIdCounter S
               (set_heap (λ h, h ++ [Enemy.init
                    (getSpawnPosition (playerPosition w) rnd1 rnd2)
                    (Enemy.new (enemyIdCounter w))]) w)),
          [Spawned (List.length (heap w))]).
Proof. reflexivity. Qed.

Lemma spawnEnemy_ok rnd1 rnd2 w w' l :
  consistent w → spawnEnemy rnd1 rnd2 w = Some (tt, w', l) →
  consistent w' ∧ evolves w w'.
Proof.
  intros [Hne Hnd Hsub Hal]. rewrite spawnEnemy_run. intros [= <- <-].
  split; split; cbn; rewrite ?length_app; cbn; auto.
  - apply NoDup_app. split; [done|]. split; [|apply NoDup_singleton].
    intros x Hx ->%list_elem_of_singleton. apply Hal in Hx. lia.
  - intros x Hx. apply elem_of_app. auto.
  - intros x [Hx| ->%list_elem_of_singleton]%elem_of_app; [apply Hal in Hx|]; lia.
  - lia.
  - intros x (o & Hx & Ho). exists o. split; [|done]. cbn.
    rewrite lookup_app_l; [done|]. by eapply lookup_lt_Some.
  - intros x Hx [Hin| ->%list_elem_of_singleton]%elem_of_app; [done|lia].
Qed.

Lemma same_lists_ok w w' :
  heap w' = heap w → enemies w' = enemies w → deadEnemies w' = deadEnemies w →
  consistent w → consistent w' ∧ evolves w w'.
Proof.
  intros Hh He Hd [Hne Hnd Hsub Hal].
  split; split; unfold dead_at; rewrite ?Hh, ?He, ?Hd; auto.
Qed.

Lemma clear_run w :
  clear w = Some (tt, set_deadEnemies (λ _, []) (set_enemies (λ _, []) w),
                  Disposed <$> enemies w).
Proof. unfold clear. op_unfold. cbn. by rewrite app_nil_r. Qed.

Lemma clear_ok w w' l :
  consistent w → clear w = Some (tt, w', l) → consistent w' ∧ evolves w w'.
Proof.
  intros [Hne Hnd Hsub Hal]. rewrite clear_run. intros [= <- <-].
  split; split; cbn; auto using NoDup_nil_2.
  all: intros r; rewrite ?elem_of_nil; tauto.
Qed.

(** *** The loop of [updateEnemies] *)

Lemma updateEnemy_run dt now i w :
  updateEnemy dt now i w =
    match enemies w !! i with
    | None => None
    | Some r =>
        match heap w !! r with
        | None => None
        | Some obj =>
            let u := Enemy.update dt (playerPosition w) now obj in
            let w0 := set_heap <[r := u.2]> w in
            if u.1 then
              match removeEnemy i w0 with
              | Some (_, w1, l) => Some (tt, w1, Updated r :: l)
              | None => None
              end
            else
              Some (tt,
                    if Enemy.isDead u.2 && negb (bool_decide (r ∈ deadEnemies w))
                    then set_deadEnemies (λ l, l ++ [r]) w0 else w0,
                    [Updated r])
        end
    end.
Proof.
  unfold updateEnemy. op_unfold.
  destruct (enemies w !! i) as [r|]; [|done].
  destruct (heap w !! r) as [obj|]; [|done].
  destruct (Enemy.update dt (playerPosition w) now obj) as [[] obj']; cbn.
  - destruct (removeEnemy i _) as [[[[] w1] l]|]; reflexivity.
  - destruct (Enemy.isDead obj' && _); reflexivity.
Qed.

Lemma dead_at_insert w r obj obj' x :
  heap w !! r = Some obj → Enemy.isDead obj' = Enemy.isDead obj →
  dead_at (set_heap <[r := obj']> w) x ↔ dead_at w x.
Proof.
  intros Hr Hd. unfold dead_at. cbn.
  assert (r < List.length (heap w)) by (by eapply lookup_lt_Some).
  destruct (decide (r = x)) as [->|Hne].
  - rewrite list_lookup_insert_eq by done. rewrite Hr.
    split; intros (o & [= <-] & Ho); eexists; split; try done; congruence.
  - by rewrite list_lookup_insert_ne.
Qed.

Lemma updateEnemy_ok dt now i w w' l :
  consistent w → updateEnemy dt now i w = Some (tt, w', l) →
  consistent w' ∧ evolves w w' ∧ i ≤ List.length (enemies w') ∧
  (processed (S i) w → processed i w').
Proof.
  intros Hc. rewrite updateEnemy_run.
  destruct (enemies w !! i) as [r|] eqn:Hi; [|done].
  destruct (heap w !! r) as [obj|] eqn:Hr; [|done]. cbv zeta.
  pose proof (update_isDead dt (playerPosition w) now obj) as Hdead.
  destruct (Enemy.update dt (playerPosition w) now obj) as [sr obj'].
  cbn [fst snd] in *.
  destruct (set_heap_insert_ok w r obj obj' Hr ltac:(congruence) Hc) as [Hc0 He0].
  pose proof (λ x, dead_at_insert w r obj obj' x Hr Hdead) as Hda.
  set (w0 := set_heap <[r := obj']> w) in *.
  assert (Hlen : i < List.length (enemies w)) by (by eapply lookup_lt_Some).
  destruct sr.
  - destruct (removeEnemy i w0) as [[[[] w1] l1]|] eqn:Hrm; [|done].
    intros [= <- <-].
    destruct (removeEnemy_ok i w0 w1 l1 Hc0 Hrm)
      as (Hc1 & He1 & r' & Hi' & -> & Hen & Hh & Hd).
    assert (r' = r) as -> by (cbn in Hi'; congruence).
    split; [done|]. split; [by eapply evolves_trans|]. split.
    + rewrite Hen, length_delete; cbn; [lia|eauto].
    + intros Hp j x Hj Hx Hdx. rewrite Hen in Hx. cbn in Hx.
      rewrite list_lookup_delete_ge in Hx by done.
      apply Hd. cbn. split.
      * apply (Hp (S j) x); [lia|done|]. apply Hda.
        destruct Hdx as (o & Ho & Hod). exists o. by rewrite <- Hh.
      * intros ->. destruct Hc as [Hnd _ _ _].
        pose proof (NoDup_lookup _ _ _ _ Hnd Hi Hx). lia.
  - intros [= <- <-]. destruct (Enemy.isDead obj') eqn:Hobj; cbn [andb negb].
    + case_bool_decide as Hin; cbn [negb].
      * split; [done|]. split; [done|]. split; [cbn; lia|].
        intros Hp j x Hj Hx Hdx. cbn in Hx |- *.
        destruct (decide (j = i)) as [->|Hji].
        -- congruence.
        -- apply (Hp j x); [lia|done|by apply Hda].
      * assert (Hdr : dead_at w0 r).
        { exists obj'. split; [|done]. subst w0. cbn.
          apply list_lookup_insert_eq. by eapply lookup_lt_Some. }
        destruct (push_dead_ok w0 r) as [Hc1 He1]; [| |done|done|].
        { cbn. by eapply list_elem_of_lookup_2. }
        { done. }
        split; [done|]. split; [by eapply evolves_trans|]. split; [cbn; lia|].
        intros Hp j x Hj Hx Hdx. cbn in Hx |- *. apply elem_of_app.
        destruct (decide (j = i)) as [->|Hji].
        -- right. apply list_elem_of_singleton. congruence.
        -- left. apply (Hp j x); [lia|done|]. apply Hda. done.
    + split; [done|]. split; [done|]. split; [cbn; lia|].
      intros Hp j x Hj Hx Hdx. cbn in Hx |- *.
      destruct (decide (j = i)) as [->|Hji].
      * assert (x = r) as -> by congruence.
        destruct Hdx as (o & Ho & Hod). subst w0. cbn in Ho.
        rewrite list_lookup_insert_eq in Ho by (by eapply lookup_lt_Some).
        congruence.
      * apply (Hp j x); [lia|done|by apply Hda].
Qed.

Lemma updateEnemy_returns dt now i w :
  consistent w → i < List.length (enemies w) →
  ∃ w' l, updateEnemy dt now i w = Some (tt, w', l).
Proof.
  intros Hc Hi. rewrite updateEnemy_run.
  destruct (lookup_lt_is_Some_2 _ _ Hi) as [r Hr]. rewrite Hr.
  assert (Hal : r < List.length (heap w)).
  { apply (enemies_allocated w Hc). by eapply list_elem_of_lookup_2. }
  destruct (lookup_lt_is_Some_2 _ _ Hal) as [obj Hobj]. rewrite Hobj.
  cbv zeta. destruct (Enemy.update _ _ _ _) as [[] obj']; cbn [fst snd]; [|eauto].
  rewrite removeEnemy_run. cbn. rewrite Hr. eauto.
Qed.

Lemma updateEnemies_from_ok n dt now w w' l :
  consistent w → updateEnemies_from n dt now w = Some (tt, w', l) →
  consistent w' ∧ evolves w w' ∧ (processed n w → processed 0 w').
Proof.
  revert w l. induction n as [|i IH]; intros w l Hc; cbn [updateEnemies_from].
  - intros [= <- <-]. auto using evolves_refl.
  - intros (a & w1 & l1 & l2 & Hbody & Hrest & ->)%bind_Some. destruct a.
    destruct (updateEnemy_ok _ _ _ _ _ _ Hc Hbody) as (Hc1 & He1 & _ & Hp1).
    destruct (IH _ _ Hc1 Hrest) as (Hc' & He' & Hp').
    split; [done|]. split; [by eapply evolves_trans|]. auto.
Qed.

Lemma updateEnemies_from_returns n dt now w :
  consistent w → n ≤ List.length (enemies w) →
  ∃ w' l, updateEnemies_from n dt now w = Some (tt, w', l).
Proof.
  revert w. induction n as [|i IH]; intros w Hc Hn; cbn [updateEnemies_from].
  - by eexists _, _.
  - destruct (updateEnemy_returns dt (now i) i w Hc) as (w1 & l1 & Hbody); [lia|].
    destruct (updateEnemy_ok _ _ _ _ _ _ Hc Hbody) as (Hc1 & _ & Hlen & _).
    destruct (IH w1 Hc1 Hlen) as (w' & l' & Hrest).
    exists w', (l1 ++ l'). apply bind_Some. by eexists (), w1, l1, l'.
Qed.

Lemma updateEnemies_ok dt now w w' l :
  consistent w → updateEnemies dt now w = Some (tt, w', l) →
  consistent w' ∧ evolves w w' ∧
  ∀ r, r ∈ enemies w' → dead_at w' r → r ∈ deadEnemies w'.
Proof.
  intros Hc (w0 & w1 & l1 & l2 & [= <- <- <-] & Hloop & ->)%bind_Some.
  destruct (updateEnemies_from_ok _ _ _ _ _ _ Hc Hloop) as (Hc' & He' & Hp).
  split; [done|]. split; [done|].
  intros r [j Hj]%list_elem_of_lookup_1 Hd. apply (Hp) with (j := j); [|lia|done..].
  intros k x Hk Hx. apply lookup_lt_Some in Hx. lia.
Qed.

Lemma updateEnemies_returns dt now w :
  consistent w → ∃ w' l, updateEnemies dt now w = Some (tt, w', l).
Proof.
  intros Hc.
  destruct (updateEnemies_from_returns (List.length (enemies w)) dt now w Hc)
    as (w' & l & H); [done|].
  exists w', l. apply bind_Some. by eexists w, w, [], l.
Qed.

(** *** The loop of [cleanupDeadEnemies] *)

Lemma cleanupDeadEnemy_run now i w :
  cleanupDeadEnemy now i w =
    match deadEnemies w !! i with
    | None => None
    | Some r =>
        match heap w !! r with
        | None => None
        | Some obj =>
            if (ZOMBIE_BODY_DESPAWN_TIME <? now - Enemy.deathTime obj)%Z then
              match indexOf r (enemies w) with
              | Some enemyIndex => removeEnemy enemyIndex w
              | None => Some (tt, w, [])
              end
            else Some (tt, w, [])
        end
    end.
Proof.
  unfold cleanupDeadEnemy. op_unfold.
  destruct (deadEnemies w !! i) as [r|]; [|done].
  destruct (heap w !! r) as [obj|]; [|done].
  destruct (_ <? _)%Z; [|done].
  destruct (indexOf r (enemies w)) as [j|]; [|done].
  destruct (removeEnemy j w) as [[[[] w1] l]|]; by rewrite ?app_nil_r.
Qed.

Lemma removeEnemy_deadEnemies_length i w w' l :
  removeEnemy i w = Some (tt, w', l) →
  List.length (deadEnemies w) ≤ S (List.length (deadEnemies w')).
Proof.
  rewrite removeEnemy_run. destruct (enemies w !! i) as [r|]; [|done].
  intros [= <- <-]. cbn.
  destruct (indexOf r (deadEnemies w)) as [j|] eqn:Hj; [|lia].
  rewrite length_delete; [lia|]. apply indexOf_Some in Hj. eauto.
Qed.

Lemma cleanupDeadEnemy_ok now i w w' l :
  consistent w → cleanupDeadEnemy now i w = Some (tt, w', l) →
  consistent w' ∧ evolves w w' ∧ i ≤ List.length (deadEnemies w').
Proof.
  intros Hc. rewrite cleanupDeadEnemy_run.
  destruct (deadEnemies w !! i) as [r|] eqn:Hi; [|done].
  assert (Hlen : i < List.length (deadEnemies w)) by (by eapply lookup_lt_Some).
  destruct (heap w !! r) as [obj|]; [|done].
  assert (Hstay : Some ((), w, []) = Some ((), w', l) →
    consistent w' ∧ evolves w w' ∧ i ≤ List.length (deadEnemies w')).
  { intros [= <- <-]. split; [done|]. split; [apply evolves_refl|lia]. }
  destruct (_ <? _)%Z; [|done].
  destruct (indexOf r (enemies w)) as [j|] eqn:Hj; [|done].
  intros Hrm.
  destruct (removeEnemy_ok _ _ _ _ Hc Hrm) as (Hc' & He' & _).
  apply removeEnemy_deadEnemies_length in Hrm.
  split; [done|]. split; [done|lia].
Qed.

Lemma cleanupDeadEnemy_returns now i w :
  consistent w → i < List.length (deadEnemies w) →
  ∃ w' l, cleanupDeadEnemy now i w = Some (tt, w', l).
Proof.
  intros Hc Hi. rewrite cleanupDeadEnemy_run.
  destruct (lookup_lt_is_Some_2 _ _ Hi) as [r Hr]. rewrite Hr.
  assert (Hin : r ∈ enemies w).
  { apply (deadEnemies_enemies w Hc). by eapply list_elem_of_lookup_2. }
  assert (Hal : r < List.length (heap w)) by (by apply (enemies_allocated w Hc)).
  destruct (lookup_lt_is_Some_2 _ _ Hal) as [obj Hobj]. rewrite Hobj.
  destruct (_ <? _)%Z; [|eauto].
  destruct (indexOf r (enemies w)) as [j|] eqn:Hj; [|eauto].
  rewrite removeEnemy_run, (indexOf_Some _ _ _ Hj). eauto.
Qed.

Lemma cleanupDeadEnemies_from_ok n now w w' l :
  consistent w → cleanupDeadEnemies_from n now w = Some (tt, w', l) →
  consistent w' ∧ evolves w w'.
Proof.
  revert w l. induction n as [|i IH]; intros w l Hc; cbn [cleanupDeadEnemies_from].
  - intros [= <- <-]. auto using evolves_refl.
  - intros (a & w1 & l1 & l2 & Hbody & Hrest & ->)%bind_Some. destruct a.
    destruct (cleanupDeadEnemy_ok _ _ _ _ _ Hc Hbody) as (Hc1 & He1 & _).
    destruct (IH _ _ Hc1 Hrest) as (Hc' & He').
    split; [done|]. by eapply evolves_trans.
Qed.

Lemma cleanupDeadEnemies_from_returns n now w :
  consistent w → n ≤ List.length (deadEnemies w) →
  ∃ w' l, cleanupDeadEnemies_from n now w = Some (tt, w', l).
Proof.
  revert w. induction n as [|i IH]; intros w Hc Hn; cbn [cleanupDeadEnemies_from].
  - by eexists _, _.
  - destruct (cleanupDeadEnemy_returns now i w Hc) as (w1 & l1 & Hbody); [lia|].
    destruct (cleanupDeadEnemy_ok _ _ _ _ _ Hc Hbody) as (Hc1 & _ & Hlen).
    destruct (IH w1 Hc1 Hlen) as (w' & l' & Hrest).
    exists w', (l1 ++ l'). apply bind_Some. by eexists (), w1, l1, l'.
Qed.

Lemma cleanupDeadEnemies_ok now w w' l :
  consistent w → cleanupDeadEnemies now w = Some (tt, w', l) →
  consistent w' ∧ evolves w w'.
Proof.
  intros Hc (w0 & w1 & l1 & l2 & [= <- <- <-] & Hloop & ->)%bind_Some.
  by eapply cleanupDeadEnemies_from_ok.
Qed.

Lemma cleanupDeadEnemies_returns now w :
  consistent w → ∃ w' l, cleanupDeadEnemies now w = Some (tt, w', l).
Proof.
  intros Hc.
  destruct (cleanupDeadEnemies_from_returns (List.length (deadEnemies w)) now w Hc)
    as (w' & l & H); [done|].
  exists w', l. apply bind_Some. by eexists w, w, [], l.
Qed.

(** *** One tick *)

Lemma update_inactive dt rnd1 rnd2 now now' w :
  isActive w = false → update dt rnd1 rnd2 now now' w = Some (tt, w, []).
Proof. intros H. unfold update. op_unfold. by rewrite H. Qed.

Lemma removeEnemy_tracked i w w' l :
  consistent w → removeEnemy i w = Some (tt, w', l) →
  all_dead_tracked w → all_dead_tracked w'.
Proof.
  intros Hc Hrm Hq.
  destruct (removeEnemy_ok _ _ _ _ Hc Hrm) as (_ & _ & r & Hi & _ & Hen & Hh & Hd).
  intros x Hx Hdx. rewrite Hen in Hx.
  apply (elem_of_delete_NoDup _ _ r) in Hx as [Hx Hne];
    [|apply Hc|done].
  apply Hd. split; [|done]. apply Hq; [done|].
  unfold dead_at in *. by rewrite <- Hh.
Qed.

Lemma cleanupDeadEnemy_tracked now i w w' l :
  consistent w → cleanupDeadEnemy now i w = Some (tt, w', l) →
  all_dead_tracked w → all_dead_tracked w'.
Proof.
  intros Hc. rewrite cleanupDeadEnemy_run.
  destruct (deadEnemies w !! i) as [r|]; [|done].
  destruct (heap w !! r) as [obj|]; [|done].
  destruct (_ <? _)%Z; [|by intros [= <- <-]].
  destruct (indexOf r (enemies w)) as [j|]; [|by intros [= <- <-]].
  by apply removeEnemy_tracked.
Qed.

Lemma cleanupDeadEnemies_tracked now w w' l :
  consistent w → cleanupDeadEnemies now w = Some (tt, w', l) →
  all_dead_tracked w → all_dead_tracked w'.
Proof.
  intros Hc (w0 & w1 & l1 & l2 & [= <- <- <-] & Hloop & ->)%bind_Some.
  revert Hloop. generalize (List.length (deadEnemies w)) as n.
  intros n. revert w l2 Hc.
  induction n as [|i IH]; intros w l Hc; cbn [cleanupDeadEnemies_from].
  - by intros [= <- <-].
  - intros (a & w1 & l1 & l2 & Hbody & Hrest & ->)%bind_Some Hq. destruct a.
    destruct (cleanupDeadEnemy_ok _ _ _ _ _ Hc Hbody) as (Hc1 & _ & _).
    apply (IH w1 l2 Hc1 Hrest).
    exact (cleanupDeadEnemy_tracked _ _ _ _ _ Hc Hbody Hq).
Qed.

Lemma update_ok dt rnd1 rnd2 now now' w w' l :
  consistent w → update dt rnd1 rnd2 now now' w = Some (tt, w', l) →
  consistent w' ∧ evolves w w' ∧ (isActive w = true → all_dead_tracked w').
Proof.
  intros Hc. destruct (isActive w) eqn:Hact.
  - unfold update.
    intros (w0 & ? & ? & l0 & [= <- <- <-] & Hrest & ->)%bind_Some.
    rewrite Hact in Hrest. cbn [negb] in Hrest.
    apply bind_Some in Hrest as ([] & w1 & ? & l1 & [= <- <-] & Hrest & ->).
    apply bind_Some in Hrest as (w1' & ? & ? & l2 & [= <- <- <-] & Hrest & ->).
    apply bind_Some in Hrest as ([] & w2 & l2' & l3 & Hspawn & Hrest & ->).
    apply bind_Some in Hrest as ([] & w3 & l3' & l4 & Hupd & Hclean & ->).
    set (w1 := set_spawnTimer _ w) in *.
    destruct (same_lists_ok w w1) as [Hc1 He1]; [done..|].
    assert (consistent w2 ∧ evolves w1 w2) as [Hc2 He2].
    { case_decide.
      - apply bind_Some in Hspawn as ([] & w1' & ? & ? & [= <- <-] & Hspawn & ->).
        destruct (same_lists_ok w1 (set_spawnTimer (λ _, 0%R) w1)) as [Hc1' He1'];
          [done..|].
        destruct (spawnEnemy_ok _ _ _ _ _ Hc1' Hspawn) as [Hc2 He2].
        split; [done|]. by eapply evolves_trans.
      - injection Hspawn as <- <-. split; [done|apply evolves_refl]. }
    destruct (updateEnemies_ok _ _ _ _ _ Hc2 Hupd) as (Hc3 & He3 & Hq3).
    destruct (cleanupDeadEnemies_ok _ _ _ _ Hc3 Hclean) as (Hc4 & He4).
    split; [done|]. split.
    + apply (evolves_trans w w1 w'); [done|done|].
      apply (evolves_trans w1 w2 w'); [done|done|].
      by apply (evolves_trans w2 w3 w').
    + intros _. exact (cleanupDeadEnemies_tracked _ _ _ _ Hc3 Hclean Hq3).
  - rewrite update_inactive by done. intros [= <- <-].
    split; [done|]. split; [apply evolves_refl|done].
Qed.

Lemma update_returns dt rnd1 rnd2 now now' w :
  consistent w → ∃ w' l, update dt rnd1 rnd2 now now' w = Some (tt, w', l).
Proof.
  intros Hc. destruct (isActive w) eqn:Hact;
    [|rewrite update_inactive by done; eauto].
  set (w1 := set_spawnTimer (λ t, t + dt * 1000)%R w).
  destruct (same_lists_ok w w1) as [Hc1 _]; [done..|].
  assert (∃ w2 l2,
    (if decide (ZOMBIE_SPAWN_INTERVAL <= spawnTimer w1)%R
     then modify (set_spawnTimer (λ _, 0%R));; spawnEnemy rnd1 rnd2
     else mret ()) w1 = Some (tt, w2, l2) ∧ consistent w2) as (w2 & l2 & Hspawn & Hc2).
  { case_decide.
    - destruct (same_lists_ok w1 (set_spawnTimer (λ _, 0%R) w1)) as [Hc1' _];
        [done..|].
      eexists _, _. split.
      + apply bind_Some. eexists (), _, [], _. split; [done|].
        split; [apply spawnEnemy_run|done].
      + eapply spawnEnemy_ok; [done|apply spawnEnemy_run].
    - by eexists _, _. }
  destruct (updateEnemies_returns dt now w2 Hc2) as (w3 & l3 & Hupd).
  destruct (updateEnemies_ok _ _ _ _ _ Hc2 Hupd) as (Hc3 & _).
  destruct (cleanupDeadEnemies_returns now' w3 Hc3) as (w4 & l4 & Hclean).
  exists w4, ([] ++ [] ++ [] ++ l2 ++ l3 ++ l4). unfold update.
  apply bind_Some. eexists w, w, [], _. split; [done|]. split; [|done].
  rewrite Hact. cbn [negb].
  apply bind_Some. eexists (), w1, [], _. split; [done|]. split; [|done].
  apply bind_Some. eexists w1, w1, [], _. split; [done|]. split; [|done].
  apply bind_Some. eexists (), w2, l2, _. split; [done|]. split; [|done].
  apply bind_Some. eexists (), w3, l3, l4. done.
Qed.

(** *** Every call, every reachable world *)

Lemma onEnemy_ok r f w w' l :
  (∀ obj, Enemy.isDead obj = true → Enemy.isDead (f obj) = true) →
  consistent w → onEnemy r f w = Some (tt, w', l) →
  consistent w' ∧ evolves w w'.
Proof.
  intros Hf Hc. unfold onEnemy. op_unfold.
  destruct (heap w !! r) as [obj|] eqn:Hr; [|done]. cbn. intros [= <- <-].
  apply (set_heap_insert_ok w r obj); auto.
Qed.

Lemma run_ok c w w' l :
  consistent w → run c w = Some (tt, w', l) → consistent w' ∧ evolves w w'.
Proof.
  intros Hc. destruct c; cbn [run].
  - intros [= <- <-]. by apply same_lists_ok.
  - intros [= <- <-]. by apply same_lists_ok.
  - intros [= <- <-]. by apply same_lists_ok.
  - intros H. by destruct (update_ok _ _ _ _ _ _ _ _ Hc H) as (? & ? & _).
  - by apply spawnEnemy_ok.
  - intros H. by destruct (updateEnemies_ok _ _ _ _ _ Hc H) as (? & ? & _).
  - intros H. by destruct (removeEnemy_ok _ _ _ _ Hc H) as (? & ? & _).
  - by apply cleanupDeadEnemies_ok.
  - by apply clear_ok.
  - apply onEnemy_ok; [|done]. intros obj. apply takeDamage_isDead.
  - apply onEnemy_ok; [|done]. intros obj. by rewrite attack_isDead.
Qed.

Lemma initial_consistent : consistent initial.
Proof.
  split; cbn; auto using NoDup_nil_2.
  intros r Hr. by apply elem_of_nil in Hr.
Qed.

Lemma reachable_consistent w : reachable w → consistent w.
Proof.
  induction 1 as [|w c w' l _ IH Hrun]; [apply initial_consistent|].
  by destruct (run_ok _ _ _ _ IH Hrun).
Qed.

Lemma reaches_ok w w' :
  consistent w → reaches w w' → consistent w' ∧ evolves w w'.
Proof.
  intros Hc Hr. induction Hr as [w|w c w1 l w2 Hrun _ IH].
  - split; [done|apply evolves_refl].
  - destruct (run_ok _ _ _ _ Hc Hrun) as [Hc1 He1].
    destruct (IH Hc1) as [Hc2 He2].
    split; [done|]. by apply (evolves_trans w w1 w2).
Qed.

Lemma never_tracked_again w w1 w2 r :
  consistent w → r ∈ deadEnemies w →
  reaches w w1 → r ∉ deadEnemies w1 → reaches w1 w2 → r ∉ deadEnemies w2.
Proof.
  intros Hc Hr H1 Hout H2.
  destruct (reaches_ok _ _ Hc H1) as [Hc1 He1].
  destruct (reaches_ok _ _ Hc1 H2) as [Hc2 He2].
  assert (Hal : r < List.length (heap w)).
  { apply (enemies_allocated w Hc). by apply (deadEnemies_enemies w Hc). }
  destruct (leave_together _ _ He1 r Hr) as [|Hgone]; [done|].
  intros Hin. apply Hgone. apply (no_return _ _ He2).
  - pose proof (heap_grows _ _ He1). lia.
  - by apply (deadEnemies_enemies w2 Hc2).
Qed.

(** *** Which enemies a pass updates *)

Lemma updateEnemy_trace dt now i w w' l :
  consistent w → updateEnemy dt now i w = Some (tt, w', l) →
  (∃ r, enemies w !! i = Some r ∧ Updated r ∈ l) ∧
  ∀ j, j < i → enemies w' !! j = enemies w !! j.
Proof.
  intros Hc. rewrite updateEnemy_run.
  destruct (enemies w !! i) as [r|] eqn:Hi; [|done].
  destruct (heap w !! r) as [obj|] eqn:Hr; [|done]. cbv zeta.
  destruct (Enemy.update _ _ _ _) as [[] obj']; cbn [fst snd].
  - rewrite removeEnemy_run. cbn. rewrite Hi. intros [= <- <-]. split.
    + exists r. split; [done|]. left.
    + intros j Hj. cbn. by rewrite list_lookup_delete_lt.
  - intros [= <- <-]. split.
    + exists r. split; [done|]. left.
    + intros j Hj. by destruct (_ && _).
Qed.

Lemma updateEnemies_from_trace n dt now w w' l :
  consistent w → updateEnemies_from n dt now w = Some (tt, w', l) →
  ∀ j r, j < n → enemies w !! j = Some r → Updated r ∈ l.
Proof.
  revert w l. induction n as [|i IH]; intros w l Hc; cbn [updateEnemies_from].
  - intros _ j r Hj. lia.
  - intros (a & w1 & l1 & l2 & Hbody & Hrest & ->)%bind_Some j r Hj Hjr.
    destruct a.
    destruct (updateEnemy_ok _ _ _ _ _ _ Hc Hbody) as (Hc1 & _).
    destruct (updateEnemy_trace _ _ _ _ _ _ Hc Hbody) as ((r' & Hi & Hin) & Hlow).
    apply elem_of_app. destruct (decide (j = i)) as [->|Hne].
    + left. congruence.
    + right. apply (IH w1 l2 Hc1 Hrest j r); [lia|]. rewrite Hlow by lia. done.
Qed.

(** From a consistent world every call returns, except a [removeEnemy] past
    the end of [enemies] (it raises before it changes anything) and a call
    on an object that does not exist. *)
Lemma run_returns c w :
  consistent w → valid c w → ∃ w' l, run c w = Some (tt, w', l).
Proof.
  intros Hc Hv. destruct c; cbn [run valid] in *.
  - by eexists _, _.
  - by eexists _, _.
  - by eexists _, _.
  - by apply update_returns.
  - rewrite spawnEnemy_run. eauto.
  - by apply updateEnemies_returns.
  - rewrite removeEnemy_run.
    destruct (lookup_lt_is_Some_2 _ _ Hv) as [r ->]. eauto.
  - by apply cleanupDeadEnemies_returns.
  - rewrite clear_run. eauto.
  - unfold takeDamage, onEnemy. op_unfold.
    destruct (lookup_lt_is_Some_2 _ _ Hv) as [obj ->]. cbn. eauto.
  - unfold attack, onEnemy. op_unfold.
    destruct (lookup_lt_is_Some_2 _ _ Hv) as [obj ->]. cbn. eauto.
Qed.

(** While the spawner is active, a tick does call [update] on every enemy
    that was in the active set when the tick began. *)
Lemma update_active_updates_all dt rnd1 rnd2 now now' w w' l :
  consistent w → isActive w = true →
  update dt rnd1 rnd2 now now' w = Some (tt, w', l) →
  ∀ r, r ∈ enemies w → Updated r ∈ l.
Proof.
  intros Hc Hact. unfold update.
  intros (w0 & ? & ? & l0 & [= <- <- <-] & Hrest & ->)%bind_Some.
  rewrite Hact in Hrest. cbn [negb] in Hrest.
  apply bind_Some in Hrest as ([] & w1 & ? & l1 & [= <- <-] & Hrest & ->).
  apply bind_Some in Hrest as (w1' & ? & ? & l2 & [= <- <- <-] & Hrest & ->).
  apply bind_Some in Hrest as ([] & w2 & l2' & l3 & Hspawn & Hrest & ->).
  apply bind_Some in Hrest as ([] & w3 & l3' & l4 & Hupd & Hclean & ->).
  set (w1 := set_spawnTimer _ w) in *.
  destruct (same_lists_ok w w1) as [Hc1 _]; [done..|].
  assert (consistent w2 ∧ ∀ j r, enemies w !! j = Some r → enemies w2 !! j = Some r)
    as [Hc2 Hkeep].
  { case_decide.
    - apply bind_Some in Hspawn as ([] & w1' & ? & ? & [= <- <-] & Hspawn & ->).
      destruct (same_lists_ok w1 (set_spawnTimer (λ _, 0%R) w1)) as [Hc1' _];
        [done..|].
      split; [by eapply spawnEnemy_ok|].
      rewrite spawnEnemy_run in Hspawn. injection Hspawn as <- <-. cbn.
      intros j r Hj. by apply lookup_app_l_Some.
    - injection Hspawn as <- <-. done. }
  apply bind_Some in Hupd as (? & ? & ? & l5 & [= <- <- <-] & Hloop & ->).
  intros r [j Hj]%list_elem_of_lookup_1. cbn.
  apply elem_of_app. right. apply elem_of_app. left.
  apply (updateEnemies_from_trace _ _ _ _ _ _ Hc2 Hloop j r); [|by apply Hkeep].
  apply Hkeep in Hj. by eapply lookup_lt_Some.
Qed.

(** C5, as the specification states it, fails: the spawner of [one_alive]
    is inactive and holds the living enemy 0; a tick returns with no action
    at all, so [update] was not called on that enemy, and the world is as
    before. *)
Lemma update_inactive_skips_enemies :
  isActive one_alive = false ∧
  enemies one_alive = [0] ∧
  (Enemy.isDead <$> heap one_alive !! 0) = Some false ∧
  update (1 / 60) 0 0 (λ _, 16%Z) 16%Z one_alive = Some (tt, one_alive, []) ∧
  Updated 0 ∉ ([] : list action).
Proof. repeat split; try reflexivity. apply not_elem_of_nil. Qed.

(** C5, amended. While the active flag is false, [update] returns at once:
    it spawns nothing, calls [update] on no enemy and sweeps no dead enemy;
    the world stays as it was. The enemies are advanced on the ticks on which
    the flag is true: such a tick returns, and it has called [update] on
    every enemy that was in the active set. *)
Theorem update_gated_by_isActive
    (deltaTime rnd1 rnd2 : R) (now : nat → Z) (now' : Z) (w : world) :
  (isActive w = false →
   update deltaTime rnd1 rnd2 now now' w = Some (tt, w, [])) ∧
  (reachable w → isActive w = true →
   ∃ w' l, update deltaTime rnd1 rnd2 now now' w = Some (tt, w', l) ∧
           ∀ r, r ∈ enemies w → Updated r ∈ l).
Proof.
  split; [apply update_inactive|].
  intros Hc%reachable_consistent Hact.
  destruct (update_returns deltaTime rnd1 rnd2 now now' w Hc) as (w' & l & Hupd).
  exists w', l. split; [done|].
  by eapply update_active_updates_all.
Qed.

Lemma after_reachable c w : reachable w → reachable (after c w).
Proof.
  intros H. unfold after.
  destruct (run c w) as [[[[] w'] l]|] eqn:E; [|done].
  by eapply reachable_call.
Qed.

Lemma update_gated_by_isActive_witness :
  update (1 / 60) 0 0 (λ _, 16%Z) 16%Z one_alive = Some (tt, one_alive, []) ∧
  ∃ w' l,
    update (1 / 60) 0 0 (λ _, 16%Z) 16%Z (after Start one_alive)
      = Some (tt, w', l) ∧
    ∀ r, r ∈ enemies (after Start one_alive) → Updated r ∈ l.
Proof.
  split.
  - apply (proj1 (update_gated_by_isActive (1 / 60) 0 0 (λ _, 16%Z) 16%Z
                    one_alive)).
    reflexivity.
  - apply (proj2 (update_gated_by_isActive (1 / 60) 0 0 (λ _, 16%Z) 16%Z
                    (after Start one_alive))).
    + repeat apply after_reachable. apply reachable_initial.
    + reflexivity.
Defined.

Lemma one_dead_reachable : reachable one_dead.
Proof. repeat apply after_reachable. apply reachable_initial. Qed.

(** The enemy of [one_dead] died at time 1000. A pass at time 6000 keeps the
    body, a pass at time 6001 removes it from both lists; so does the sweep
    of the dead. *)
Example body_kept_until_despawn :
  let w := after (UpdateEnemies 0 (λ _, 6000%Z)) one_dead in
  enemies w = [0] ∧ deadEnemies w = [0].
Proof. by split. Qed.

Example body_removed_after_despawn :
  let w := after (UpdateEnemies 0 (λ _, 6001%Z)) one_dead in
  enemies w = [] ∧ deadEnemies w = [].
Proof. by split. Qed.

Example body_swept_after_despawn :
  run (CleanupDeadEnemies 6001) one_dead =
    Some (tt, set_deadEnemies (λ _, []) (set_enemies (λ _, []) one_dead),
          [Disposed 0]).
Proof. reflexivity. Qed.

(** C9. In every world the spawner can reach, [deadEnemies] has no
    duplicates and is contained in [enemies]. Across any returning call, an
    enemy that enters [deadEnemies] is a dead enemy of the active set, and an
    enemy leaves [deadEnemies] only together with [enemies] (and conversely).
    A pass of [updateEnemies], and so an active [update], leaves every dead
    enemy of the active set in [deadEnemies]: death is recorded at the tick
    that first sees it. An enemy that has left [deadEnemies] never enters it
    again: it is appended at most once. *)
Theorem deadEnemies_tracked_once (w : world) :
  reachable w →
  NoDup (deadEnemies w) ∧
  deadEnemies w ⊆ enemies w ∧
  (∀ c w' l, run c w = Some (tt, w', l) →
     (∀ r, r ∈ deadEnemies w' → r ∉ deadEnemies w →
           r ∈ enemies w' ∧ dead_at w' r) ∧
     (∀ r, r ∈ deadEnemies w → r ∉ deadEnemies w' → r ∉ enemies w') ∧
     (∀ r, r ∈ enemies w → r ∉ enemies w' → r ∉ deadEnemies w')) ∧
  (∀ deltaTime now w' l,
     updateEnemies deltaTime now w = Some (tt, w', l) → all_dead_tracked w') ∧
  (∀ deltaTime rnd1 rnd2 now now' w' l,
     isActive w = true →
     update deltaTime rnd1 rnd2 now now' w = Some (tt, w', l) →
     all_dead_tracked w') ∧
  (∀ r w1 w2,
     r ∈ deadEnemies w → reaches w w1 → r ∉ deadEnemies w1 →
     reaches w1 w2 → r ∉ deadEnemies w2).
Proof.
  intros Hc%reachable_consistent.
  split; [apply Hc|]. split; [apply Hc|]. split; [|split; [|split]].
  - intros c w' l Hrun. destruct (run_ok _ _ _ _ Hc Hrun) as [Hc' He].
    split; [|split].
    + intros r Hin Hout. split; [by apply (deadEnemies_enemies w' Hc')|].
      by destruct (enter_dead _ _ He r Hin).
    + intros r Hin Hout. by destruct (leave_together _ _ He r Hin).
    + intros r _ Hout Hin. by apply Hout, (deadEnemies_enemies w' Hc').
  - intros dt now w' l Hupd.
    by destruct (updateEnemies_ok _ _ _ _ _ Hc Hupd) as (_ & _ & ?).
  - intros dt rnd1 rnd2 now now' w' l Hact Hupd.
    destruct (update_ok _ _ _ _ _ _ _ _ Hc Hupd) as (_ & _ & Hq). auto.
  - intros r w1 w2. by apply never_tracked_again.
Qed.

Lemma deadEnemies_tracked_once_witness :
  deadEnemies one_dead = [0] ∧ enemies one_dead = [0] ∧
  NoDup (deadEnemies one_dead) ∧ deadEnemies one_dead ⊆ enemies one_dead.
Proof.
  split; [reflexivity|]. split; [reflexivity|].
  destruct (deadEnemies_tracked_once one_dead one_dead_reachable)
    as (Hnd & Hsub & _).
  split; [exact Hnd | exact Hsub].
Defined.

End SpawnerProperties.

(** * Further properties of the code *)

(** ** The store: coins, blows, ammunition, and what always holds *)

Section StoreProperties.
Import GameState Store.

Ltac store_unfold :=
  cbv [damage heal useAmmo addCoins spendCoins addArmor addKill
       mbind mret M_bind M_ret getState setState emit].

Ltac ms_unfold :=
  cbv [reset switchWeapon addWeapon reloadWeapon numeric discard
       getState' emit' putState mbind mret MS_bind MS_ret].

Ltac no_if t :=
  lazymatch t with
  | context [if _ then _ else _] => fail
  | _ => idtac
  end.

Ltac split_ltb :=
  repeat match goal with
         | |- context [if (?x <? ?y) then _ else _] =>
             no_if x; no_if y; destruct (Z.ltb_spec x y)
         | |- context [if (?x <=? ?y) then _ else _] =>
             no_if x; no_if y; destruct (Z.leb_spec x y)
         end.

Lemma write_same_player f g s :
  f (player s) = g (player s) → with_player f s = with_player g s.
Proof. unfold with_player. by intros ->. Qed.

Lemma spendCoins_guard (amount : Z) (s : state) :
  (coins (player s) < amount → spendCoins amount s = (false, s, [])) ∧
  (amount ≤ coins (player s) →
   spendCoins amount s =
     (true, write player_coins (coins (player s) - amount) s,
      [STATE_CHANGED player_coins (Some (coins (player s)))
         (coins (player s) - amount)])).
Proof.
  store_unfold. split; intros H.
  - destruct (Z.leb_spec amount (coins (player s))); [lia|done].
  - destruct (Z.leb_spec amount (coins (player s))); [done|lia].
Qed.

Lemma addCoins_spendCoins (amount : Z) (s : state) :
  0 ≤ coins (player s) →
  let r := spendCoins amount (state_of (addCoins amount s)) in
  result_of r = true ∧ state_of r = s.
Proof.
  intros H. store_unfold. cbn.
  destruct (Z.leb_spec amount (coins (player s) + amount)); [|lia].
  cbn. split; [done|]. destruct s as [? ? ? ? [] ?]. cbn.
  unfold with_player. cbn. do 2 f_equal. lia.
Qed.

Lemma damage_state (d : Z) (s : state) :
  state_of (damage d s) =
    with_player (λ q,
      mkPlayer
        (if 0 <? d - absorbed s d
         then Z.max 0 (health q - (d - absorbed s d)) else health q)
        (maxHealth q)
        (armor q - absorbed s d)
        (maxArmor q) (coins q) (kills q)) s.
Proof.
  rewrite damage_run. destruct s as [f1 f2 f3 f4 [h mh ar mar c k] ws].
  unfold afterArmor, afterHealth, absorbed, write, with_player, state_of. cbn.
  destruct (0 <? ar); cbn; rewrite ?Z.sub_0_r;
    destruct (0 <? _); cbn; reflexivity.
Qed.

Lemma damage_twice (a b : Z) (s : state) :
  0 ≤ a → 0 ≤ b →
  state_of (damage b (state_of (damage a s))) = state_of (damage (a + b) s).
Proof.
  intros Ha Hb. rewrite !damage_state.
  destruct s as [f1 f2 f3 f4 [h mh ar mar c k] ws].
  unfold absorbed, with_player. cbn.
  do 2 f_equal; split_ltb; lia.
Qed.

Lemma damage_zero (s : state) : state_of (damage 0 s) = s.
Proof.
  rewrite damage_state. destruct s as [f1 f2 f3 f4 [h mh ar mar c k] ws].
  unfold absorbed, with_player. cbn. do 2 f_equal; split_ltb; lia.
Qed.

(** X1. Any run of blows, none of them negative, leaves the player as one
    blow of their sum would. *)
Theorem damage_splits (amounts : list Z) (s : state) :
  Forall (λ d, 0 ≤ d) amounts →
  foldl (λ s d, state_of (damage d s)) s amounts
    = state_of (damage (foldr Z.add 0 amounts) s).
Proof.
  intros H. revert s. induction H as [|d ds Hd Hds IH]; intros s.
  - cbn. by rewrite damage_zero.
  - cbn [foldl foldr]. rewrite IH. apply damage_twice; [done|].
    clear -Hds. induction Hds as [|x l Hx _ IHl]; cbn; lia.
Qed.

Lemma damage_splits_witness :
  foldl (λ s d, state_of (damage d s))
        (state_of (addArmor 25 25 initialState)) [30; 50]
    = state_of (damage 80 (state_of (addArmor 25 25 initialState))).
Proof.
  apply (damage_splits [30; 50] (state_of (addArmor 25 25 initialState))).
  repeat (apply List.Forall_cons; [lia|]). apply List.Forall_nil.
Defined.

Lemma damage_within (amount : Z) (s : state) :
  0 ≤ amount → 0 ≤ armor (player s) → 0 ≤ health (player s) →
  let s' := state_of (damage amount s) in
  0 ≤ armor (player s') ≤ armor (player s) ∧
  0 ≤ health (player s') ≤ health (player s).
Proof.
  intros Ha Har Hh. cbv zeta. rewrite damage_state. unfold absorbed. cbn.
  split_ltb; lia.
Qed.

(** X2. A blow takes its amount off armor and health together, armor first,
    and stops at zero; neither of the two grows. *)
Theorem damage_total (amount : Z) (s : state) :
  0 ≤ amount → 0 ≤ armor (player s) → 0 ≤ health (player s) →
  let s' := state_of (damage amount s) in
  armor (player s') + health (player s') =
    Z.max 0 (armor (player s) + health (player s) - amount) ∧
  0 ≤ armor (player s') ≤ armor (player s) ∧
  0 ≤ health (player s') ≤ health (player s).
Proof.
  intros Ha Har Hh. cbv zeta. rewrite damage_state. unfold absorbed. cbn.
  split_ltb; lia.
Qed.

Lemma damage_total_witness :
  let s := state_of (addArmor 25 25 initialState) in
  let s' := state_of (damage 40 s) in
  armor (player s') + health (player s') = 110.
Proof.
  apply (proj1 (damage_total 40 (state_of (addArmor 25 25 initialState))
                  ltac:(lia) ltac:(by vm_compute) ltac:(by vm_compute))).
Defined.

Lemma heal_splits (a b : Z) (s : state) :
  0 ≤ a → 0 ≤ b →
  state_of (heal b (state_of (heal a s))) = state_of (heal (a + b) s).
Proof.
  intros Ha Hb. store_unfold. unfold state_of, write, with_player. cbn.
  do 2 f_equal. lia.
Qed.

Lemma addArmor_overwrites (p1 b1 p2 b2 : Z) (s : state) :
  let s2 := state_of (addArmor p2 b2 s) in
  state_of (addArmor p2 b2 (state_of (addArmor p1 b1 s))) = s2 ∧
  armor (player s2) = p2 ∧ maxArmor (player s2) = p2 ∧
  health (player s2) = 100 + b2 ∧ maxHealth (player s2) = 100 + b2.
Proof. store_unfold. by cbn. Qed.

Lemma useAmmo_run (s : state) :
  useAmmo s =
    let weapon := current (weapons s) in
    match ammo (weapons s) !! weapon with
    | Some n =>
        if 0 <? n then
          (true, write (weapons_ammo weapon) (n - 1) s,
           [STATE_CHANGED (weapons_ammo weapon) (Some n) (n - 1);
            WEAPON_FIRED weapon (n - 1)])
        else (false, s, [WEAPON_EMPTY weapon])
    | None => (false, s, [WEAPON_EMPTY weapon])
    end.
Proof.
  store_unfold. cbn. destruct (ammo (weapons s) !! current (weapons s)) as [n|] eqn:E; [|done].
  destruct (0 <? n); cbn; [|done]. by rewrite E.
Qed.

Lemma useAmmo_times_S (n : nat) (s : state) :
  useAmmo_times (S n) s =
    let '(b, s1, l1) := useAmmo s in
    let '(bs, s2, l2) := useAmmo_times n s1 in
    (b :: bs, s2, l1 ++ l2).
Proof.
  cbn [useAmmo_times]. unfold mbind, M_bind, mret, M_ret.
  destruct (useAmmo s) as [[b s1] l1].
  destruct (useAmmo_times n s1) as [[bs s2] l2]. by rewrite app_nil_r.
Qed.

(** X3. Of [n] pulls on a magazine of [a] rounds the first [min n a] fire
    and the rest fail; the magazine ends at [a - min n a], never below zero,
    and the weapon in hand stays the same. *)
Theorem useAmmo_counts_down (n : nat) (a : Z) (s : state) :
  ammo (weapons s) !! current (weapons s) = Some a → 0 ≤ a →
  let r := useAmmo_times n s in
  let fired := Nat.min n (Z.to_nat a) in
  result_of r = replicate fired true ++ replicate (n - fired) false ∧
  ammo (weapons (state_of r)) !! current (weapons (state_of r))
    = Some (a - Z.of_nat fired) ∧
  current (weapons (state_of r)) = current (weapons s).
Proof.
  revert a s. induction n as [|n IH]; intros a s Ha Hpos.
  - cbn. rewrite Z.sub_0_r. done.
  - cbv zeta. rewrite useAmmo_times_S, useAmmo_run. cbv zeta.
    rewrite Ha. destruct (Z.ltb_spec 0 a) as [Hlt|Hle].
    + set (s1 := write _ _ s).
      assert (H1 : ammo (weapons s1) !! current (weapons s1) = Some (a - 1)).
      { subst s1. cbn. by rewrite lookup_insert_eq. }
      specialize (IH (a - 1) s1 H1 ltac:(lia)). cbv zeta in IH.
      destruct (useAmmo_times n s1) as [[bs s2] l2]. cbn in IH |- *.
      destruct IH as (Hbs & Ham & Hcur).
      replace (Z.to_nat a) with (S (Z.to_nat (a - 1))) by lia.
      cbn [Nat.min replicate app Nat.sub].
      rewrite Hbs, Ham, Hcur. split; [done|]. split; [f_equal; lia|done].
    + assert (a = 0) as -> by lia.
      specialize (IH 0 s Ha ltac:(lia)). cbv zeta in IH.
      destruct (useAmmo_times n s) as [[bs s2] l2]. cbn in IH |- *.
      destruct IH as (Hbs & Ham & Hcur).
      rewrite Nat.min_0_r in *. cbn in *. rewrite Nat.sub_0_r in Hbs.
      rewrite Hbs, Ham, Hcur. done.
Qed.

Lemma useAmmo_counts_down_witness :
  result_of (useAmmo_times 14 initialState)
    = replicate 12 true ++ replicate 2 false.
Proof.
  apply (proj1 (useAmmo_counts_down 14 12 initialState eq_refl ltac:(lia))).
Defined.

Lemma useAmmo_empty (s : state) :
  (∀ a, ammo (weapons s) !! current (weapons s) = Some a → a ≤ 0) →
  useAmmo s = (false, s, [WEAPON_EMPTY (current (weapons s))]).
Proof.
  intros H. rewrite useAmmo_run. cbv zeta.
  destruct (ammo (weapons s) !! current (weapons s)) as [a|]; [|done].
  specialize (H a eq_refl). destruct (Z.ltb_spec 0 a); [lia|done].
Qed.

Lemma reloadWeapon_fills (weaponId : string) (s : state) :
  let s' := state_after (reloadWeapon weaponId s) in
  ammo (weapons s') !! weaponId = maxAmmo (weapons s) !! weaponId ∧
  (∀ w, w ≠ weaponId → ammo (weapons s') !! w = ammo (weapons s) !! w) ∧
  maxAmmo (weapons s') = maxAmmo (weapons s) ∧
  current (weapons s') = current (weapons s) ∧
  owned (weapons s') = owned (weapons s) ∧
  player s' = player s ∧
  state_after (reloadWeapon weaponId s') = s'.
Proof.
  ms_unfold. unfold state_after.
  destruct (maxAmmo (weapons s) !! weaponId) as [m|] eqn:Hm; cbn.
  - rewrite Hm. cbn. unfold with_weapons. cbn.
    rewrite lookup_insert_eq, insert_insert_eq.
    repeat split; try done. intros w Hw. by rewrite lookup_insert_ne.
  - rewrite Hm. cbn. rewrite lookup_delete_eq.
    repeat split; try done.
    + intros w Hw. by rewrite lookup_delete_ne.
    + unfold with_weapons, unset_ammo. cbn. do 2 f_equal.
      apply delete_id. apply lookup_delete_eq.
Qed.

Lemma switchWeapon_owned_only (weaponId : string) (s : state) :
  (weaponId ∉ owned (weapons s) → switchWeapon weaponId s = (false, s, [])) ∧
  (weaponId ∈ owned (weapons s) →
   switchWeapon weaponId s =
     (true, with_weapons (set_current weaponId) s,
      [STATE_CHANGED_current (current (weapons s)) weaponId;
       Numeric (WEAPON_SWITCHED weaponId)])).
Proof.
  ms_unfold. split; intros H.
  - by rewrite bool_decide_eq_false_2.
  - by rewrite bool_decide_eq_true_2.
Qed.

Lemma addWeapon_then_switch (weaponId : string) (s : state) :
  let s1 := state_after (addWeapon weaponId s) in
  weaponId ∈ owned (weapons s1) ∧
  (∀ w, w ∈ owned (weapons s) → w ∈ owned (weapons s1)) ∧
  state_after (addWeapon weaponId s1) = s1 ∧
  log_of (addWeapon weaponId s1) = [] ∧
  returned (switchWeapon weaponId s1) = true ∧
  current (weapons (state_after (switchWeapon weaponId s1))) = weaponId.
Proof.
  cbv zeta.
  assert (Hin : weaponId ∈ owned (weapons (state_after (addWeapon weaponId s)))).
  { ms_unfold. unfold state_after. case_bool_decide; cbn; [done|].
    apply elem_of_app. right. by apply list_elem_of_singleton. }
  split; [done|]. split.
  { intros w Hw. ms_unfold. unfold state_after. case_bool_decide; cbn; [done|].
    apply elem_of_app. by left. }
  set (s1 := state_after (addWeapon weaponId s)) in *.
  destruct (switchWeapon_owned_only weaponId s1) as [_ Hsw].
  rewrite (Hsw Hin). split; [|split; [|done]].
  - ms_unfold. unfold state_after. by rewrite bool_decide_eq_true_2.
  - ms_unfold. unfold log_of. by rewrite bool_decide_eq_true_2.
Qed.

Lemma after_eq (c : call) (s : state) :
  after c s =
    match c with
    | Reset => initialState
    | AddCoins amount => write player_coins (coins (player s) + amount) s
    | SpendCoins amount =>
        if amount <=? coins (player s)
        then write player_coins (coins (player s) - amount) s else s
    | Damage amount => state_of (damage amount s)
    | Heal amount =>
        write player_health
          (Z.min (maxHealth (player s)) (health (player s) + amount)) s
    | AddArmor armorPoints healthBonus =>
        with_player (λ q,
          mkPlayer (100 + healthBonus) (100 + healthBonus)
                   armorPoints armorPoints (coins q) (kills q)) s
    | AddKill _ => write player_kills (kills (player s) + 1) s
    | SwitchWeapon weaponId =>
        if bool_decide (weaponId ∈ owned (weapons s))
        then with_weapons (set_current weaponId) s else s
    | AddWeapon weaponId =>
        if bool_decide (weaponId ∈ owned (weapons s)) then s
        else with_weapons (set_owned (owned (weapons s) ++ [weaponId])) s
    | UseAmmo =>
        match ammo (weapons s) !! current (weapons s) with
        | Some n =>
            if 0 <? n
            then write (weapons_ammo (current (weapons s))) (n - 1) s else s
        | None => s
        end
    | ReloadWeapon weaponId =>
        match maxAmmo (weapons s) !! weaponId with
        | Some m => write (weapons_ammo weaponId) m s
        | None => with_weapons (unset_ammo weaponId) s
        end
    end.
Proof.
  destruct c; unfold after, state_after; cbn [run].
  - reflexivity.
  - reflexivity.
  - ms_unfold. store_unfold. by destruct (_ <=? _).
  - unfold numeric, state_of. by destruct (damage amount s) as [[? ?] ?].
  - reflexivity.
  - reflexivity.
  - reflexivity.
  - ms_unfold. by case_bool_decide.
  - ms_unfold. by case_bool_decide.
  - unfold discard, numeric, mbind, MS_bind. rewrite useAmmo_run. cbv zeta.
    destruct (_ !! _) as [n|]; [destruct (0 <? n)|]; reflexivity.
  - ms_unfold. by destruct (_ !! _).
Qed.

Lemma reachable_armed (s : state) :
  reachable_by (λ _, True) s → armed s.
Proof.
  induction 1 as [|s c _ IH _].
  - split; cbn; [apply list_elem_of_singleton; done..|apply NoDup_singleton].
  - destruct IH as [Hcur Hpis Hnd]. rewrite after_eq.
    destruct c; try (by split).
    + split; cbn; [apply list_elem_of_singleton; done..|apply NoDup_singleton].
    + destruct (_ <=? _); by split.
    + rewrite damage_state. by split.
    + case_bool_decide; by split.
    + case_bool_decide as Hin; [by split|]. split; cbn.
      * apply elem_of_app. by left.
      * apply elem_of_app. by left.
      * apply NoDup_app. split; [done|]. split; [|apply NoDup_singleton].
        intros x Hx ->%list_elem_of_singleton. done.
    + destruct (_ !! _) as [n|]; [destruct (0 <? n)|]; by split.
    + destruct (_ !! _); by split.
Qed.

Lemma maxAmmo_initial (w : string) (m : Z) :
  maxAmmo (weapons initialState) !! w = Some m → 0 ≤ m.
Proof.
  cbn. intros [[_ <-]|[_ [_ <-]%lookup_singleton_Some]]%lookup_insert_Some; lia.
Qed.

Lemma initialState_bounded : bounded initialState.
Proof.
  split; cbn; try lia; [done|]. intros w a.
  intros [[<- <-]|[_ [<- <-]%lookup_singleton_Some]]%lookup_insert_Some.
  - exists 12. split; [done|lia].
  - exists 6. split; [done|lia].
Qed.

Lemma reachable_bounded (s : state) :
  reachable_by sane s → bounded s.
Proof.
  induction 1 as [|s c _ IH Hsane]; [apply initialState_bounded|].
  destruct IH as [Hh Ha Hc Hk Hm Ham]. rewrite after_eq.
  destruct c; cbn [sane] in Hsane.
  - apply initialState_bounded.
  - split; cbn; try done; lia.
  - destruct (Z.leb_spec amount (coins (player s))); split; cbn; try done; lia.
  - destruct (damage_within amount s) as (Har & Hhe); [lia..|].
    rewrite damage_state in *. cbn in *. split; cbn; try done; lia.
  - split; cbn; try done; lia.
  - split; cbn; try done; lia.
  - split; cbn; try done; lia.
  - case_bool_decide; by split.
  - case_bool_decide; by split.
  - destruct (ammo (weapons s) !! current (weapons s)) as [n|] eqn:Hn;
      [|by split].
    destruct (Z.ltb_spec 0 n); [|by split].
    split; cbn; try done. intros w a.
    destruct (decide (current (weapons s) = w)) as [<-|Hne].
    + rewrite lookup_insert_eq. intros [= <-].
      destruct (Ham _ _ Hn) as (m & Hmw & Hb). exists m. split; [done|lia].
    + rewrite lookup_insert_ne by done. apply Ham.
  - destruct (maxAmmo (weapons s) !! weaponId) as [m|] eqn:Hmw.
    + split; cbn; try done. intros w a.
      destruct (decide (weaponId = w)) as [<-|Hne].
      * rewrite lookup_insert_eq. intros [= <-]. exists m. split; [done|].
        split; [|lia]. rewrite Hm in Hmw. by eapply maxAmmo_initial.
      * rewrite lookup_insert_ne by done. apply Ham.
    + split; cbn; try done. intros w a.
      destruct (decide (weaponId = w)) as [<-|Hne].
      * by rewrite lookup_delete_eq.
      * rewrite lookup_delete_ne by done. apply Ham.
Qed.

Lemma reachable_by_weaken (P Q : call → Prop) (s : state) :
  (∀ c, P c → Q c) → reachable_by P s → reachable_by Q s.
Proof. intros HPQ. induction 1; constructor; auto. Qed.

(** X4. However the store is used with amounts as the game passes them, the
    snapshot stays within its bounds: health within [0, maxHealth], armor
    within [0, maxArmor], coins and kills not negative, every ammo count
    within [0, max] of its weapon; and the weapon in hand is one the player
    owns, the pistol is never lost, and no weapon is owned twice. *)
Theorem store_stays_bounded (s : state) :
  reachable_by sane s → bounded s ∧ armed s.
Proof.
  intros H. split; [by apply reachable_bounded|].
  apply reachable_armed. by eapply reachable_by_weaken.
Qed.

Lemma store_stays_bounded_witness :
  bounded (after (Damage 30) (after (AddArmor 25 25) initialState)) ∧
  armed (after (Damage 30) (after (AddArmor 25 25) initialState)).
Proof.
  apply store_stays_bounded.
  apply reachable_call; [apply reachable_call; [apply reachable_initial|]|];
    cbn; lia.
Defined.

End StoreProperties.

(** ** The shop *)

Section ShopProperties.
Import GameState Store Shop.

Ltac unfold_store :=
  cbv [damage heal useAmmo addCoins spendCoins addArmor addKill
       mbind mret M_bind M_ret getState setState emit].

Lemma spendCoins_numeric (amount : Z) (s : state) :
  numeric (spendCoins amount) s =
    if amount <=? coins (player s)
    then (true, write player_coins (coins (player s) - amount) s,
          [Numeric (STATE_CHANGED player_coins (Some (coins (player s)))
                      (coins (player s) - amount))])
    else (false, s, []).
Proof. unfold numeric. unfold_store. by destruct (_ <=? _). Qed.

Lemma deliver_state (i : item) (s : state) :
  state_after (deliver i s) = foldl (λ s c, after c s) s (delivery i).
Proof.
  destruct i; cbn [deliver delivery foldl]; unfold after; cbn [run]; try done.
  unfold state_after, mbind, MS_bind.
  destruct (addWeapon id s) as [[[] s1] l1]. cbn.
  destruct (reloadWeapon id s1) as [[[] s2] l2]. reflexivity.
Qed.

Lemma purchaseItem_state (i : item) (s : state) :
  (purchaseItem i s).1 =
    if price i <=? coins (player s)
    then foldl (λ s c, after c s) s (SpendCoins (price i) :: delivery i)
    else s.
Proof.
  unfold purchaseItem. rewrite spendCoins_numeric. cbn [foldl].
  rewrite (after_eq (SpendCoins _)).
  destruct (price i <=? coins (player s)); cbn; [|done].
  apply deliver_state.
Qed.

Lemma foldl_after_coins (cs : list call) (s : state) :
  Forall (λ c, match c with
               | AddWeapon _ | ReloadWeapon _ | AddArmor _ _ => True
               | _ => False
               end) cs →
  coins (player (foldl (λ s c, after c s) s cs)) = coins (player s).
Proof.
  intros H. revert s. induction H as [|c cs Hc _ IH]; intros s; [done|].
  cbn [foldl]. rewrite IH, after_eq.
  destruct c; try done.
  - by case_bool_decide.
  - by destruct (_ !! _).
Qed.

(** X5. A purchase either fails for want of coins, leaving the store as it
    was and publishing the failure alone, or takes exactly the price and
    ends by publishing the purchase, never the failure. *)
Theorem purchaseItem_pays_or_fails (i : item) (s : state) :
  (coins (player s) < price i → purchaseItem i s = (s, [PURCHASE_FAILED i])) ∧
  (price i ≤ coins (player s) →
   coins (player (purchaseItem i s).1) = coins (player s) - price i ∧
   last (purchaseItem i s).2 = Some (ITEM_PURCHASED i) ∧
   PURCHASE_FAILED i ∉ (purchaseItem i s).2).
Proof.
  split; intros H.
  - unfold purchaseItem. rewrite spendCoins_numeric.
    destruct (Z.leb_spec (price i) (coins (player s))); [lia|done].
  - split; [|split].
    + rewrite purchaseItem_state.
      destruct (Z.leb_spec (price i) (coins (player s))); [|lia].
      cbn [foldl]. rewrite foldl_after_coins.
      * by rewrite after_eq, (proj2 (Z.leb_le _ _)) by done.
      * destruct i; cbn;
          repeat (apply List.Forall_cons; [done|]); apply List.Forall_nil.
    + unfold purchaseItem. rewrite spendCoins_numeric.
      destruct (Z.leb_spec (price i) (coins (player s))); [|lia].
      cbn [negb fst snd]. by rewrite !app_assoc, last_snoc.
    + unfold purchaseItem. rewrite spendCoins_numeric.
      destruct (Z.leb_spec (price i) (coins (player s))); [|lia].
      cbn [negb fst snd]. rewrite !elem_of_app, !list_elem_of_fmap.
      intros [(? & ? & _)|[(? & ? & _)|Hin%list_elem_of_singleton]]; done.
Qed.

Lemma purchaseItem_pays_or_fails_witness :
  purchaseItem AMMO_PISTOL initialState
    = (initialState, [PURCHASE_FAILED AMMO_PISTOL]).
Proof.
  apply (proj1 (purchaseItem_pays_or_fails AMMO_PISTOL initialState)).
  cbn. lia.
Defined.

(** X6. A weapon that was paid for is owned, loaded to its maximum, and can
    be switched to. *)
Theorem purchase_weapon_ready (id : string) (p : Z) (s : state) :
  p ≤ coins (player s) →
  let s' := (purchaseItem (weaponItem id p) s).1 in
  id ∈ owned (weapons s') ∧
  ammo (weapons s') !! id = maxAmmo (weapons s) !! id ∧
  returned (switchWeapon id s') = true.
Proof.
  intros Hp. cbv zeta. rewrite purchaseItem_state. cbn [price].
  destruct (Z.leb_spec p (coins (player s))); [|lia].
  cbn [foldl delivery].
  set (s1 := after (SpendCoins p) s).
  assert (Hw1 : weapons s1 = weapons s).
  { subst s1. rewrite after_eq. by destruct (_ <=? _). }
  destruct (addWeapon_then_switch id s1) as (Hin & _).
  change (state_after (addWeapon id s1)) with (after (AddWeapon id) s1) in Hin.
  set (s2 := after (AddWeapon id) s1) in *.
  assert (Hm2 : maxAmmo (weapons s2) = maxAmmo (weapons s)).
  { subst s2. rewrite after_eq, <- Hw1. by case_bool_decide. }
  destruct (reloadWeapon_fills id s2) as (Hfull & _ & _ & _ & Hown & _).
  change (state_after (reloadWeapon id s2)) with (after (ReloadWeapon id) s2)
    in Hfull, Hown.
  assert (Hin3 : id ∈ owned (weapons (after (ReloadWeapon id) s2)))
    by (by rewrite Hown).
  split; [done|]. split; [by rewrite Hfull, Hm2|].
  by rewrite (proj2 (switchWeapon_owned_only id _) Hin3).
Qed.

Lemma purchase_weapon_ready_witness :
  "shotgun"%string ∈
    owned (weapons (purchaseItem WEAPONS_SHOTGUN
                      (after (AddCoins 50) initialState)).1).
Proof.
  apply (proj1 (purchase_weapon_ready "shotgun" 50
                  (after (AddCoins 50) initialState) ltac:(by vm_compute))).
Defined.

Lemma reachable_foldl (P : call → Prop) (cs : list call) (s : state) :
  reachable_by P s → Forall P cs →
  reachable_by P (foldl (λ s c, after c s) s cs).
Proof.
  intros Hs H. revert s Hs. induction H as [|c cs Hc _ IH]; intros s Hs; [done|].
  cbn [foldl]. apply IH. by constructor.
Qed.

Lemma catalogue_sane (i : item) :
  i ∈ catalogue → Forall sane (SpendCoins (price i) :: delivery i).
Proof.
  unfold catalogue. rewrite !elem_of_cons, elem_of_nil.
  intros [->|[->|[->|[->|[->|[->|[]]]]]]]; cbn;
    repeat (apply List.Forall_cons; [cbn; try lia; done|]);
    apply List.Forall_nil.
Qed.

(** X7. Buying from the catalogue keeps the store within its bounds and
    the player armed, whether the purchase goes through or not. *)
Theorem purchase_keeps_bounds (i : item) (s : state) :
  reachable_by sane s → i ∈ catalogue →
  reachable_by sane (purchaseItem i s).1 ∧
  bounded (purchaseItem i s).1 ∧ armed (purchaseItem i s).1.
Proof.
  intros Hs Hi.
  assert (Hr : reachable_by sane (purchaseItem i s).1).
  { rewrite purchaseItem_state. destruct (_ <=? _); [|done].
    apply reachable_foldl; [done|]. by apply catalogue_sane. }
  split; [done|]. split; [by apply reachable_bounded|].
  apply reachable_armed. by eapply reachable_by_weaken.
Qed.

Lemma purchase_keeps_bounds_witness :
  bounded (purchaseItem AMMO_PISTOL initialState).1.
Proof.
  apply (purchase_keeps_bounds AMMO_PISTOL initialState).
  - apply reachable_initial.
  - unfold catalogue. do 4 apply list_elem_of_further. apply list_elem_of_here.
Defined.

End ShopProperties.

(** ** The weapon: rounds and the rate of fire *)

Section VolleyProperties.
Import GameState Weapon Volley.

Lemma fire_fired (now now' : Z) (w : weapon) (s : state) :
  canFire now w s = true →
  fire now now' w s =
    (true,
     {| type := type w; lastFireTime := now'; fireRate := fireRate w |},
     state_of (useAmmo s), pair ByStore <$> events_of (useAmmo s)).
Proof. intros H. unfold fire. by rewrite H. Qed.

Lemma fire_refused_state (now now' : Z) (w : weapon) (s : state) :
  canFire now w s = false → ∃ l, fire now now' w s = (false, w, s, l).
Proof. intros H. unfold fire. rewrite H. cbn. eauto. Qed.

(** X8. A shot that goes off stamps the weapon with the later clock reading
    and takes one round from the weapon in hand (which is the weapon that
    fired whenever the game files each weapon under its own type); the
    rounds of every other weapon stay. *)
Theorem fire_consumes_current (now now' : Z) (w : weapon) (s : state) :
  canFire now w s = true →
  ∃ log,
    fire now now' w s =
      (true, {| type := type w; lastFireTime := now'; fireRate := fireRate w |},
       state_of (useAmmo s), log) ∧
    (∀ id, id ≠ current (weapons s) →
       ammo (weapons (state_of (useAmmo s))) !! id = ammo (weapons s) !! id) ∧
    (type w = current (weapons s) →
     ∃ n, ammo (weapons s) !! type w = Some n ∧ 0 < n ∧
          ammo (weapons (state_of (useAmmo s))) !! type w = Some (n - 1) ∧
          log = [(ByStore, STATE_CHANGED (weapons_ammo (type w)) (Some n) (n - 1));
                 (ByStore, WEAPON_FIRED (type w) (n - 1))]).
Proof.
  intros Hcan. unfold fire. rewrite Hcan. cbn [negb]. eexists. split; [done|].
  rewrite useAmmo_run. cbv zeta. split.
  - intros id Hid.
    destruct (ammo (weapons s) !! current (weapons s)) as [n|]; [|done].
    destruct (0 <? n); [|done]. cbn. by rewrite lookup_insert_ne.
  - intros Htype. unfold canFire in Hcan. cbn in Hcan. rewrite Htype in *.
    destruct (ammo (weapons s) !! current (weapons s)) as [n|]; [|done].
    apply andb_prop in Hcan as [Hn%Z.ltb_lt _].
    exists n. rewrite (proj2 (Z.ltb_lt 0 n) Hn). cbn.
    by rewrite lookup_insert_eq.
Qed.

Lemma fire_consumes_current_witness :
  (fire 1000 1001 (new "pistol") initialState).1.1.1 = true.
Proof.
  destruct (fire_consumes_current 1000 1001 (new "pistol") initialState eq_refl)
    as (log & -> & _).
  reflexivity.
Defined.

(** X9. After a shot, the weapon refuses every pull that comes sooner than
    its rate of fire after the stamped reading, whatever the store holds by
    then, and such a pull changes neither the weapon nor the store. *)
Theorem fire_rate_gate (now1 now1' now2 now2' : Z) (w : weapon) (s s2 : state) :
  canFire now1 w s = true →
  now2 - now1' < fireRate w →
  let w' := (fire now1 now1' w s).1.1.2 in
  lastFireTime w' = now1' ∧
  canFire now2 w' s2 = false ∧
  (fire now2 now2' w' s2).1.1.1 = false ∧
  (fire now2 now2' w' s2).1.1.2 = w' ∧
  (fire now2 now2' w' s2).1.2 = s2.
Proof.
  intros Hcan Hsoon. cbv zeta.
  set (w' := {| type := type w; lastFireTime := now1'; fireRate := fireRate w |}).
  assert (Hw : (fire now1 now1' w s).1.1.2 = w')
    by (unfold fire; by rewrite Hcan).
  rewrite !Hw.
  assert (Hno : canFire now2 w' s2 = false).
  { unfold canFire. cbn. destruct (_ !! _); [|done].
    apply andb_false_intro2. apply Z.leb_gt. lia. }
  split; [done|]. split; [done|]. unfold fire. by rewrite Hno.
Qed.

Lemma fire_rate_gate_witness :
  lastFireTime (fire 1000 1001 (new "pistol") initialState).1.1.2 = 1001.
Proof.
  apply (proj1 (fire_rate_gate 1000 1001 1200 1201 (new "pistol")
                  initialState initialState eq_refl ltac:(by vm_compute))).
Defined.

Lemma fire_keeps (now now' : Z) (w : weapon) (s : state) :
  let r := fire now now' w s in
  type r.1.1.2 = type w ∧ fireRate r.1.1.2 = fireRate w ∧
  current (weapons r.1.2) = current (weapons s).
Proof.
  cbv zeta. unfold fire. destruct (canFire now w s); cbn; [|done].
  rewrite useAmmo_run. cbv zeta.
  destruct (_ !! _) as [n|]; [destruct (0 <? n)|]; done.
Qed.

(** X10. However often and whenever the trigger is pulled, the weapon in
    hand fires no more shots than its magazine held, and the magazine ends
    with exactly that many rounds less. *)
Theorem magazine_bounds_shots (times : list (Z * Z)) (w : weapon) (s : state) (a : Z) :
  type w = current (weapons s) →
  ammo (weapons s) !! type w = Some a → 0 ≤ a →
  let '(bs, w', s') := fire_at times w s in
  shots bs ≤ a ∧ ammo (weapons s') !! type w = Some (a - shots bs).
Proof.
  revert w s a. induction times as [|[now now'] rest IH]; intros w s a Ht Ha Hpos.
  - cbn. unfold shots. cbn. rewrite Z.sub_0_r. split; [lia|done].
  - cbn [fire_at].
    destruct (fire_keeps now now' w s) as (Hty & _ & Hcur). cbv zeta in *.
    destruct (canFire now w s) eqn:Hcan.
    + pose proof (fire_fired now now' w s Hcan) as Hf.
      assert (0 < a) as Hlt.
      { unfold canFire in Hcan. cbn in Hcan. rewrite Ha in Hcan.
        by apply andb_prop in Hcan as [?%Z.ltb_lt _]. }
      assert (Hn' : ammo (weapons (state_of (useAmmo s))) !! type w = Some (a - 1)).
      { rewrite useAmmo_run. cbv zeta.
        rewrite <- Ht, Ha, (proj2 (Z.ltb_lt 0 a) Hlt). cbn.
        by rewrite lookup_insert_eq. }
      rewrite Hf in *. cbn [fst snd] in *.
      specialize (IH {| type := type w; lastFireTime := now';
                        fireRate := fireRate w |}
                     (state_of (useAmmo s)) (a - 1)
                     ltac:(cbn [type]; congruence) Hn' ltac:(lia)).
      cbn [type] in IH.
      destruct (fire_at rest _ _) as [[bs w2] s2].
      unfold shots in *. rewrite filter_cons_True by done. cbn [length].
      destruct IH as [IH1 IH2]. split; [lia|]. rewrite IH2. f_equal. lia.
    + unfold fire in *. rewrite Hcan in *. cbn [negb fst snd] in *.
      specialize (IH w s a Ht Ha Hpos).
      destruct (fire_at rest w s) as [[bs w2] s2].
      unfold shots in *. rewrite filter_cons_False by done. done.
Qed.

Lemma magazine_bounds_shots_witness :
  let '(bs, w', s') :=
    fire_at [(1000, 1001); (1100, 1101); (1400, 1401)] (new "pistol")
            initialState in
  shots bs ≤ 12 ∧ ammo (weapons s') !! "pistol"%string = Some (12 - shots bs).
Proof.
  apply (magazine_bounds_shots [(1000, 1001); (1100, 1101); (1400, 1401)]
           (new "pistol") initialState 12 eq_refl eq_refl ltac:(lia)).
Defined.

End VolleyProperties.

(** ** Distances, barriers, segments and bounds *)

Section QueryProperties.
Import Vector3 CollisionSystem Queries.
Local Open Scope R_scope.

Lemma distanceTo_sym (a b : vec3) : distanceTo a b = distanceTo b a.
Proof. unfold distanceTo. cbv zeta. f_equal. ring. Qed.

Lemma distanceTo_nonneg (a b : vec3) : 0 <= distanceTo a b.
Proof. apply sqrt_pos. Qed.


Lemma checkSphereCollision_sym (p1 p2 : vec3) (r1 r2 : R) :
  checkSphereCollision p1 r1 p2 r2 = checkSphereCollision p2 r2 p1 r1 ∧
  (checkSphereCollision p1 r1 p2 r2 = true → 0 < r1 + r2) ∧
  (0 < r1 → checkSphereCollision p1 r1 p1 r1 = true).
Proof.
  unfold checkSphereCollision. split; [|split].
  - rewrite (distanceTo_sym p1 p2), (Rplus_comm r1 r2). done.
  - intros H%bool_decide_eq_true. pose proof (distanceTo_nonneg p1 p2). lra.
  - intros Hr. apply bool_decide_eq_true.
    unfold distanceTo. cbv zeta.
    replace ((x p1 - x p1) * (x p1 - x p1) + (y p1 - y p1) * (y p1 - y p1) +
             (z p1 - z p1) * (z p1 - z p1)) with 0 by ring.
    rewrite sqrt_0. lra.
Qed.

(** X11. The enemy's own range test and the collision system's agree on
    every enemy and every player position. *)
Theorem attack_range_tests_agree (e : Enemy.enemy) (playerPos : vec3) :
  isInAttackRange e playerPos = checkAttackRange playerPos (Enemy.position e).
Proof.
  unfold isInAttackRange, checkAttackRange, getDistanceTo.
  by rewrite distanceTo_sym.
Qed.

Lemma local_turned (phi : R) (b : barrier) (p : vec3) :
  let dx := x p - x (position b) in
  let dz := z p - z (position b) in
  let p' := carried phi (position b) p in
  let dx' := x p' - x (position b) in
  let dz' := z p' - z (position b) in
  dx' * cos (- (rotation b + phi)) - dz' * sin (- (rotation b + phi))
    = dx * cos (- rotation b) - dz * sin (- rotation b) ∧
  dx' * sin (- (rotation b + phi)) + dz' * cos (- (rotation b + phi))
    = dx * sin (- rotation b) + dz * cos (- rotation b).
Proof.
  cbv zeta. unfold carried. cbn.
  rewrite !cos_neg, !sin_neg, cos_plus, sin_plus.
  pose proof (sin2_cos2 phi) as H. unfold Rsqr in H.
  set (c := cos (rotation b)). set (s := sin (rotation b)).
  set (cp := cos phi) in *. set (sp := sin phi) in *.
  set (dx := x p - x (position b)). set (dz := z p - z (position b)).
  split.
  - replace (x (position b) + (dx * cp - dz * sp) - x (position b))
      with (dx * cp - dz * sp) by ring.
    replace (z (position b) + (dx * sp + dz * cp) - z (position b))
      with (dx * sp + dz * cp) by ring.
    transitivity ((dx * c + dz * s) * (sp * sp + cp * cp)); [ring|].
    rewrite H. ring.
  - replace (x (position b) + (dx * cp - dz * sp) - x (position b))
      with (dx * cp - dz * sp) by ring.
    replace (z (position b) + (dx * sp + dz * cp) - z (position b))
      with (dx * sp + dz * cp) by ring.
    transitivity ((dz * c - dx * s) * (sp * sp + cp * cp)); [ring|].
    rewrite H. ring.
Qed.

(** X12. The barrier test follows the barrier: turning a barrier about its
    center and carrying the position along with it does not change the
    answer, at any radius. *)
Theorem checkRotatedBoxCollision_turned (phi radius : R) (b : barrier) (p : vec3) :
  checkRotatedBoxCollision (carried phi (position b) p) radius (turned phi b)
    = checkRotatedBoxCollision p radius b.
Proof.
  unfold checkRotatedBoxCollision. cbv zeta.
  destruct (local_turned phi b p) as [HX HZ]. cbv zeta in HX, HZ.
  cbn [turned position rotation width depth]. by rewrite HX, HZ.
Qed.

Lemma checkRotatedBoxCollision_reach (radius : R) (b : barrier) (p : vec3) :
  let dx := x p - x (position b) in
  let dz := z p - z (position b) in
  let halfWidth := width b / 2 + radius in
  let halfDepth := depth b / 2 + radius in
  (checkRotatedBoxCollision p radius b = true →
   dx * dx + dz * dz < halfWidth * halfWidth + halfDepth * halfDepth) ∧
  (0 < halfWidth → 0 < halfDepth →
   checkRotatedBoxCollision (position b) radius b = true) ∧
  (∀ radius', radius <= radius' →
   checkRotatedBoxCollision p radius b = true →
   checkRotatedBoxCollision p radius' b = true).
Proof.
  cbv zeta. unfold checkRotatedBoxCollision. cbv zeta.
  set (dx := x p - x (position b)). set (dz := z p - z (position b)).
  set (c := cos (- rotation b)). set (s := sin (- rotation b)).
  pose proof (sin2_cos2 (- rotation b)) as H. unfold Rsqr in H. fold c s in H.
  split; [|split].
  - intros [HX%bool_decide_eq_true HZ%bool_decide_eq_true]%andb_prop.
    apply Rabs_def2 in HX, HZ.
    assert (Hn : dx * dx + dz * dz =
                 (dx * c - dz * s) * (dx * c - dz * s) +
                 (dx * s + dz * c) * (dx * s + dz * c)).
    { transitivity ((dx * dx + dz * dz) * (s * s + c * c)); [rewrite H|]; ring. }
    rewrite Hn. nra.
  - intros Hw Hd.
    replace (x (position b) - x (position b)) with 0 by ring.
    replace (z (position b) - z (position b)) with 0 by ring.
    rewrite !Rmult_0_l, Rminus_0_r, Rplus_0_r, Rabs_R0.
    by rewrite !bool_decide_eq_true_2.
  - intros radius' Hr [HX%bool_decide_eq_true HZ%bool_decide_eq_true]%andb_prop.
    rewrite !bool_decide_eq_true_2; [done|lra..].
Qed.

(** X13. A position collides with the barriers exactly when it collides
    with one of them, and the player's own copy of the test is the collision
    system's at the player's radius. *)
Theorem checkBarrierCollision_exists (barriers : list barrier) (p : vec3) (radius : R) :
  (checkBarrierCollision barriers p radius = true ↔
   ∃ b, b ∈ barriers ∧ checkRotatedBoxCollision p radius b = true) ∧
  checkCollision p barriers = checkBarrierCollision barriers p PLAYER_COLLISION_RADIUS.
Proof.
  split.
  - induction barriers as [|b rest IH]; cbn.
    + split; [done|]. intros (b & Hb & _). by apply elem_of_nil in Hb.
    + destruct (checkRotatedBoxCollision p radius b) eqn:Hb.
      * split; [|done]. intros _. exists b. split; [left|done].
      * rewrite IH. split.
        -- intros (b' & Hin & H'). exists b'. split; [by right|done].
        -- intros (b' & [->|Hin]%elem_of_cons & H'); [congruence|eauto].
  - induction barriers as [|b rest IH]; [done|].
    cbn [checkCollision checkBarrierCollision]. rewrite IH. reflexivity.
Qed.

Lemma dot_nonneg (a : vec3) : 0 <= dot a a.
Proof. unfold dot. nra. Qed.

Lemma length_sqr (a : vec3) : length a * length a = dot a a.
Proof. apply sqrt_sqrt, dot_nonneg. Qed.

Lemma normalize_unit (a : vec3) :
  0 < length a → dot (normalize a) (normalize a) = 1.
Proof.
  intros Hl. unfold normalize. cbv zeta.
  rewrite decide_False by lra.
  pose proof (length_sqr a) as Hs. set (l := length a) in *.
  unfold dot, multiplyScalar in *. cbn.
  transitivity ((x a * x a + y a * y a + z a * z a) * (1 / l * (1 / l))); [ring|].
  rewrite <- Hs. field. lra.
Qed.

Lemma sqr_dist_along (p s u : vec3) (d : R) :
  let v := subVectors p s in
  let q := add s (multiplyScalar u d) in
  dot (subVectors p q) (subVectors p q) =
    dot v v - 2 * d * dot v u + d * d * dot u u.
Proof. cbv zeta. unfold dot, subVectors, add, multiplyScalar. cbn. ring. Qed.

Lemma clamp_cases (len d : R) :
  0 <= len →
  let c := Rmax 0 (Rmin len d) in
  0 <= c <= len ∧ ((d <= 0 ∧ c = 0) ∨ (0 <= d <= len ∧ c = d) ∨ (len <= d ∧ c = len)).
Proof.
  intros Hl. cbv zeta. unfold Rmax, Rmin.
  repeat destruct (Rle_dec _ _); lra.
Qed.

(** X14. On a segment of positive length the result lies on the segment
    and no point of the segment is nearer to the given point; on a segment
    of length zero the result is its start. *)
Theorem closestPointOnLine_nearest (point lineStart lineEnd : vec3) :
  let line := subVectors lineEnd lineStart in
  let q := closestPointOnLine point lineStart lineEnd in
  (length line = 0 → q = add lineStart (multiplyScalar line 0)) ∧
  (0 < length line →
   (∃ t, 0 <= t <= 1 ∧ q = lerp lineStart lineEnd t) ∧
   ∀ t, 0 <= t <= 1 →
     dot (subVectors point q) (subVectors point q) <=
     dot (subVectors point (lerp lineStart lineEnd t))
         (subVectors point (lerp lineStart lineEnd t))).
Proof.
  cbv zeta. unfold closestPointOnLine. cbv zeta.
  set (line := subVectors lineEnd lineStart).
  set (len := length line).
  set (v := subVectors point lineStart).
  split.
  - intros H0. unfold normalize. cbv zeta. fold len. rewrite H0.
    rewrite decide_True by done.
    destruct (clamp_cases 0 (dot v (multiplyScalar line (1 / 1)))) as [Hc _];
      [lra|].
    replace (Rmax 0 (Rmin 0 (dot v (multiplyScalar line (1 / 1))))) with 0 by lra.
    unfold add, multiplyScalar. cbn. f_equal; ring.
  - intros Hlen.
    set (u := normalize line).
    assert (Hu : dot u u = 1) by (by apply normalize_unit).
    set (p := dot v u).
    destruct (clamp_cases len p) as [Hc Hcases]; [subst len; lra|].
    set (d := Rmax 0 (Rmin len p)) in *.
    assert (Hlerp : ∀ t, lerp lineStart lineEnd t
                         = add lineStart (multiplyScalar u (t * len))).
    { intros t. unfold lerp, u, normalize. cbv zeta. fold line len.
      rewrite decide_False by lra.
      unfold add, multiplyScalar. cbn. f_equal; field; lra. }
    split.
    + exists (d / len).
      assert (Ht : d / len * len = d) by (field; lra).
      split; [generalize dependent (d / len); intros t Ht; split; nra|].
      rewrite Hlerp, Ht. done.
    + intros t Ht. rewrite Hlerp, !sqr_dist_along. fold v p. rewrite Hu.
      assert (Hd' : 0 <= t * len <= len) by nra.
      generalize dependent (t * len). intros d' Hd'.
      clearbody d p. clear -Hc Hcases Hd'.
      generalize dependent (dot v v). intros vv.
      pose proof (Rle_0_sqr (d' - p)) as Hsq. unfold Rsqr in Hsq.
      destruct Hcases as [[? ->]|[[? ->]|[? ->]]]; nra.
Qed.

(** X15. Clamping brings a position within the bounds and keeps its height;
    clamping twice is clamping once; a position strictly within the bounds
    is left as it is, and only such a position is strictly within them
    afterwards. *)
Theorem clampToBounds_fits (p : vec3) (boundary : R) :
  0 <= boundary →
  let q := clampToBounds p boundary in
  Rabs (x q) <= boundary ∧ Rabs (z q) <= boundary ∧ y q = y p ∧
  clampToBounds q boundary = q ∧
  (isWithinBounds p boundary = true → q = p) ∧
  (isWithinBounds q boundary = true → isWithinBounds p boundary = true).
Proof.
  intros Hb. cbv zeta. unfold clampToBounds, isWithinBounds. cbn.
  assert (Hclamp : ∀ v, - boundary <= Rmax (- boundary) (Rmin boundary v) <= boundary).
  { intros v. unfold Rmax, Rmin. repeat destruct (Rle_dec _ _); lra. }
  assert (Hid : ∀ v, - boundary <= v <= boundary →
                     Rmax (- boundary) (Rmin boundary v) = v).
  { intros v Hv. unfold Rmax, Rmin. repeat destruct (Rle_dec _ _); lra. }
  assert (Hin : ∀ v, Rabs (Rmax (- boundary) (Rmin boundary v)) < boundary →
                     Rabs v < boundary).
  { intros v Hv%Rabs_def2. apply Rabs_def1; unfold Rmax, Rmin in Hv;
      repeat destruct (Rle_dec _ _); lra. }
  split; [apply Rabs_le, Hclamp|]. split; [apply Rabs_le, Hclamp|].
  split; [done|]. split.
  - f_equal; apply Hid, Hclamp.
  - split.
    + intros [HX%bool_decide_eq_true HZ%bool_decide_eq_true]%andb_prop.
      apply Rabs_def2 in HX, HZ. destruct p as [px py pz]. cbn in *.
      f_equal; apply Hid; lra.
    + intros [HX%bool_decide_eq_true HZ%bool_decide_eq_true]%andb_prop.
      rewrite !bool_decide_eq_true_2; [done|by apply Hin..].
Qed.

Lemma clampToBounds_fits_witness :
  Rabs (x (clampToBounds (mkVec3 100 1 (-3)) 95)) <= 95.
Proof.
  apply (proj1 (clampToBounds_fits (mkVec3 100 1 (-3)) 95 ltac:(lra))).
Defined.

Lemma findEnemiesInRadius_grows (center : vec3) (r1 r2 : R)
    (enemies : list Enemy.enemy) :
  r1 <= r2 →
  findEnemiesInRadius center r1 enemies
    = findEnemiesInRadius center r1 (findEnemiesInRadius center r2 enemies) ∧
  findEnemiesInRadius center r1 enemies `sublist_of`
    findEnemiesInRadius center r2 enemies ∧
  findEnemiesInRadius center r2 enemies `sublist_of` enemies ∧
  (r2 < 0 → findEnemiesInRadius center r2 enemies = []).
Proof.
  intros Hr. unfold findEnemiesInRadius.
  assert (Heq : filter (λ e, distanceTo center (Enemy.position e) <= r1) enemies =
    filter (λ e, distanceTo center (Enemy.position e) <= r1)
      (filter (λ e, distanceTo center (Enemy.position e) <= r2) enemies)).
  { induction enemies as [|e es IH]; [done|].
    rewrite !filter_cons.
    destruct (decide (distanceTo center (Enemy.position e) <= r1)) as [H1|H1].
    - rewrite decide_True by lra. rewrite filter_cons, decide_True by done.
      by rewrite IH at 1.
    - destruct (decide (distanceTo center (Enemy.position e) <= r2));
        [|exact IH].
      rewrite filter_cons, decide_False by done. exact IH. }
  split; [done|]. split; [rewrite Heq; apply sublist_filter|].
  split; [apply sublist_filter|].
  intros Hneg. clear Heq. induction enemies as [|e es IH]; [done|].
  rewrite filter_cons, decide_False; [exact IH|].
  pose proof (distanceTo_nonneg center (Enemy.position e)). lra.
Qed.

End QueryProperties.

(** ** Ray against sphere, where nothing is rounded *)

Section RaySphereProperties.
Import PrimFloat.
Import Vector3 CollisionSystem Queries.
Local Open Scope R_scope.





End RaySphereProperties.

(** ** One enemy over its lifetime *)

Section EnemyLifeProperties.
Import Vector3 Constants Enemy EnemyLife.

Lemma run_dead (c : call) (e : enemy) :
  isDead e = true →
  (run c e).2 = e ∧ (run c e).1 ≠ Killed true ∧
  (∀ d, (run c e).1 = Dealt d → d = 0).
Proof.
  intros Hd. destruct c; cbn.
  - unfold update. rewrite Hd. by destruct (_ <? _).
  - unfold takeDamage. rewrite Hd. done.
  - unfold attack, canAttack. rewrite Hd. cbn. split; [done|]. split; [done|].
    by intros d [= <-].
Qed.

Lemma dead_enemy_is_final (cs : list call) (e : enemy) :
  isDead e = true →
  (runs cs e).2 = e ∧
  kills (runs cs e).1 = 0%nat ∧
  ∀ d, Dealt d ∈ (runs cs e).1 → d = 0.
Proof.
  intros Hd. induction cs as [|c cs IH]; cbn [runs].
  - split; [done|]. split; [done|]. intros d H. by apply elem_of_nil in H.
  - destruct (run_dead c e Hd) as (He & Hk & Hz).
    destruct (run c e) as [o e1]. cbn in He, Hk, Hz. subst e1.
    destruct (runs cs e) as [os e2]. cbn [fst snd] in IH |- *.
    destruct IH as (-> & Hks & Hds). split; [done|]. split.
    + unfold kills in *. by rewrite filter_cons_False.
    + intros d [Heq|Hin]%elem_of_cons; auto.
Qed.

(** X18. Whatever is done to an enemy from its creation on, it is dead
    exactly when its health is used up; it is reported killed at most once,
    and exactly once if it is dead; while it lives it has no death time and
    keeps its head; and it keeps its number. *)
Theorem enemy_dies_once (cs : list call) (id : nat) (pos : vec3) :
  let e0 := init pos (new id) in
  let e := (runs cs e0).2 in
  (isDead e = true ↔ health e ≤ 0) ∧
  (isDead e = false → deathTime e = 0 ∧ head e = true) ∧
  (kills (runs cs e0).1 ≤ 1)%nat ∧
  (isDead e = true ↔ kills (runs cs e0).1 = 1%nat) ∧
  Enemy.id e = id.
Proof.
  cbv zeta.
  assert (Hgen : ∀ e0,
    (isDead e0 = false ∧ 0 < health e0 ∧ deathTime e0 = 0 ∧ head e0 = true) →
    let e := (runs cs e0).2 in
    (isDead e = true ↔ health e ≤ 0) ∧
    (isDead e = false → deathTime e = 0 ∧ head e = true) ∧
    (kills (runs cs e0).1 ≤ 1)%nat ∧
    (isDead e = true ↔ kills (runs cs e0).1 = 1%nat) ∧
    Enemy.id e = Enemy.id e0).
  { induction cs as [|c cs IH]; intros e0 (Ha & Hh & Hdt & Hhd); cbv zeta.
    - cbn. rewrite Ha. repeat split; try done; try lia.
    - cbn [runs]. destruct c; cbn [run].
      + (* update keeps an alive enemy alive *)
        assert (Hu : ∀ r, r = update deltaTime playerPosition now e0 →
                  isDead r.2 = false ∧ health r.2 = health e0 ∧
                  deathTime r.2 = 0 ∧ head r.2 = true ∧ Enemy.id r.2 = Enemy.id e0).
        { intros r ->. unfold update. rewrite Ha. cbn. done. }
        destruct (Hu _ eq_refl) as (H1 & H2 & H3 & H4 & H5).
        destruct (update deltaTime playerPosition now e0) as [b e1]. cbn in *.
        specialize (IH e1 ltac:(repeat split; try done; lia)). cbv zeta in IH.
        destruct (runs cs e1) as [os e2]. cbn [fst snd] in IH |- *.
        unfold kills in *. rewrite filter_cons_False by done.
        rewrite <- H5. done.
      + unfold takeDamage. rewrite Ha. cbn [health].
        destruct (Z.leb_spec (health e0 - amount) 0) as [Hk|Hk].
        * cbn [fst snd].
          set (e1 := die _ _ _).
          destruct (dead_enemy_is_final cs e1 eq_refl) as (He & Hks & _).
          destruct (runs cs e1) as [os e2]. cbn [fst snd] in He, Hks |- *. subst e2.
          unfold kills in *. rewrite filter_cons_True by done. cbn [List.length].
          rewrite Hks. cbn. repeat split; try done; try lia.
        * cbn [fst snd].
          set (e1 := mkEnemy _ _ _ _ _ _ _).
          specialize (IH e1 ltac:(subst e1; cbn; repeat split; try done; lia)).
          cbv zeta in IH.
          destruct (runs cs e1) as [os e2]. cbn [fst snd] in IH |- *.
          unfold kills in *. rewrite filter_cons_False by done. done.
      + assert (Hu : ∀ r, r = attack now now' e0 →
                  isDead r.2 = false ∧ health r.2 = health e0 ∧
                  deathTime r.2 = 0 ∧ head r.2 = true ∧ Enemy.id r.2 = Enemy.id e0).
        { intros r ->. unfold attack. by destruct (negb _). }
        destruct (Hu _ eq_refl) as (H1 & H2 & H3 & H4 & H5).
        destruct (attack now now' e0) as [b e1]. cbn in *.
        specialize (IH e1 ltac:(repeat split; try done; lia)). cbv zeta in IH.
        destruct (runs cs e1) as [os e2]. cbn [fst snd] in IH |- *.
        unfold kills in *. rewrite filter_cons_False by done.
        rewrite <- H5. done. }
  apply Hgen. cbn. unfold ZOMBIE_HEALTH. repeat split; try done; lia.
Qed.

Local Open Scope R_scope.

Lemma normalize_horizontal (d : vec3) :
  let u := normalize d in
  x u * x u + z u * z u <= 1 ∧
  0 <= x u * x d + z u * z d ∧
  (0 < length d → y d = 0 → x u * x u + z u * z u = 1).
Proof.
  cbv zeta. unfold normalize. cbv zeta.
  pose proof (length_sqr d) as Hs.
  pose proof (sqrt_pos (dot d d)) as Hpos. fold (length d) in Hpos.
  set (l := length d) in *. unfold dot in Hs.
  destruct (decide (l = 0)) as [Hl|Hl].
  - rewrite Hl in Hs. unfold multiplyScalar. cbn.
    assert (x d * x d + z d * z d <= 0) by nra.
    assert (x d = 0) by nra. assert (z d = 0) by nra.
    replace (x d) with 0. replace (z d) with 0.
    split; [lra|]. split; [lra|]. intros; lra.
  - assert (Hlp : 0 < l) by lra.
    unfold multiplyScalar. cbn.
    assert (Hi : 0 < 1 / l) by (apply Rdiv_lt_0_compat; lra).
    assert (Hil : 1 / l * l = 1) by (field; lra).
    set (i := 1 / l) in *.
    assert (Hii : i * i * (l * l) = 1) by nra.
    split; [|split].
    + assert (i * i * (x d * x d + z d * z d) <= i * i * (l * l)).
      { apply Rmult_le_compat_l; nra. }
      nra.
    + assert (0 <= i * (x d * x d + z d * z d)) by (apply Rmult_le_pos; nra).
      nra.
    + intros _ Hy. rewrite Hy in Hs. nra.
Qed.

(** X19. A living enemy never asks to be removed; in a frame it keeps its
    height, moves no farther than its speed times the frame time, and never
    away from the player; the frame leaves its health, its life and its
    attack clock alone. *)
Theorem update_walks_toward_player (deltaTime : R) (playerPosition : vec3)
    (now : Z) (e : enemy) :
  isDead e = false → 0 <= deltaTime →
  let e' := (update deltaTime playerPosition now e).2 in
  let dx := x (position e') - x (position e) in
  let dz := z (position e') - z (position e) in
  (update deltaTime playerPosition now e).1 = false ∧
  y (position e') = y (position e) ∧
  dx * dx + dz * dz <= (ZOMBIE_SPEED * deltaTime) * (ZOMBIE_SPEED * deltaTime) ∧
  0 <= dx * (x playerPosition - x (position e)) +
       dz * (z playerPosition - z (position e)) ∧
  health e' = health e ∧ isDead e' = false ∧
  lastAttackTime e' = lastAttackTime e.
Proof.
  intros Ha Hdt. cbv zeta. unfold update. rewrite Ha. cbv zeta.
  destruct (normalize_horizontal (subVectors playerPosition (position e)))
    as (Hle & Hdot & _). cbv zeta in Hle, Hdot.
  set (u := normalize (subVectors playerPosition (position e))) in *.
  cbn [fst snd position health isDead lastAttackTime x y z subVectors] in *.
  unfold ZOMBIE_SPEED.
  split; [done|]. split; [done|]. split; [|split; [|done]].
  - replace (x (position e) + x u * 2 * deltaTime - x (position e))
      with (x u * (2 * deltaTime)) by ring.
    replace (z (position e) + z u * 2 * deltaTime - z (position e))
      with (z u * (2 * deltaTime)) by ring.
    set (k := 2 * deltaTime).
    assert (0 <= k * k) by nra.
    assert ((x u * x u + z u * z u) * (k * k) <= 1 * (k * k))
      by (apply Rmult_le_compat_r; lra).
    lra.
  - replace (x (position e) + x u * 2 * deltaTime - x (position e))
      with (x u * (2 * deltaTime)) by ring.
    replace (z (position e) + z u * 2 * deltaTime - z (position e))
      with (z u * (2 * deltaTime)) by ring.
    set (k := 2 * deltaTime).
    assert (0 <= k) by (subst k; lra).
    set (gx := x playerPosition - x (position e)) in *.
    set (gz := z playerPosition - z (position e)) in *.
    assert (0 <= k * (x u * gx + z u * gz)) by (by apply Rmult_le_pos).
    lra.
Qed.

Lemma update_walks_toward_player_witness :
  (update (1 / 60) (mkVec3 0 0 0) 16 (init (mkVec3 10 0 0) (new 0))).1 = false.
Proof.
  apply (proj1 (update_walks_toward_player (1 / 60) (mkVec3 0 0 0) 16
                  (init (mkVec3 10 0 0) (new 0)) eq_refl ltac:(lra))).
Defined.

Local Open Scope Z_scope.

(** X20. An attack that goes through deals the zombie damage and stamps
    the enemy with the later clock reading; until the cooldown has passed
    since that stamp every further attack deals nothing and changes nothing,
    and once it has passed the next attack goes through again. *)
Theorem attack_cooldown_gate (now1 now1' now2 now2' : Z) (e : enemy) :
  canAttack now1 e = true →
  let e' := (attack now1 now1' e).2 in
  (attack now1 now1' e).1 = ZOMBIE_DAMAGE ∧
  lastAttackTime e' = now1' ∧
  (now2 - now1' < ZOMBIE_ATTACK_COOLDOWN → attack now2 now2' e' = (0, e')) ∧
  (ZOMBIE_ATTACK_COOLDOWN ≤ now2 - now1' →
   attack now2 now2' e' = (ZOMBIE_DAMAGE, (attack now2 now2' e').2) ∧
   lastAttackTime (attack now2 now2' e').2 = now2').
Proof.
  intros Hcan. cbv zeta.
  assert (Hfirst : attack now1 now1' e =
    (ZOMBIE_DAMAGE,
     mkEnemy (id e) (position e) (health e) (isDead e) (deathTime e) now1'
             (head e))) by (unfold attack; by rewrite Hcan).
  rewrite Hfirst. cbn [fst snd].
  set (e' := mkEnemy _ _ _ _ _ _ _).
  assert (Halive : isDead e' = false).
  { unfold canAttack in Hcan. apply andb_prop in Hcan as [H _].
    subst e'. cbn. by destruct (isDead e). }
  assert (Hlast : lastAttackTime e' = now1') by done.
  clearbody e'.
  split; [done|]. split; [done|]. split.
  - intros Hsoon. unfold attack, canAttack. rewrite Halive, Hlast. cbn.
    destruct (Z.leb_spec ZOMBIE_ATTACK_COOLDOWN (now2 - now1')); [lia|done].
  - intros Hlate. unfold attack, canAttack. rewrite Halive, Hlast. cbn.
    destruct (Z.leb_spec ZOMBIE_ATTACK_COOLDOWN (now2 - now1')); [done|lia].
Qed.

Lemma attack_cooldown_gate_witness :
  (attack 1000 1001 (init (mkVec3 1 0 0) (new 0))).1 = ZOMBIE_DAMAGE.
Proof.
  apply (proj1 (attack_cooldown_gate 1000 1001 1500 1501
                  (init (mkVec3 1 0 0) (new 0)) eq_refl)).
Defined.

End EnemyLifeProperties.

(** ** One tick of the spawner *)

Section SpawnerTickProperties.
Import Vector3 Constants SpawnerSystem SpawnerQueries.
Local Open Scope nat_scope.

(** *** Objects are at most moved *)

Lemma moved_refl obj : moved obj obj.
Proof. by repeat split. Qed.

Lemma moved_trans o1 o2 o3 : moved o1 o2 → moved o2 o3 → moved o1 o3.
Proof.
  intros (? & ? & ? & ? & ? & ?) (? & ? & ? & ? & ? & ?).
  repeat split; congruence.
Qed.

Lemma update_moved dt p now e : moved e (Enemy.update dt p now e).2.
Proof.
  unfold Enemy.update. destruct (Enemy.isDead e) eqn:Hd.
  - destruct (_ <? _)%Z; apply moved_refl.
  - by repeat split.
Qed.

Lemma update_shouldRemove dt p now e :
  (Enemy.update dt p now e).1 = true →
  Enemy.isDead e = true ∧
  (ZOMBIE_BODY_DESPAWN_TIME < now - Enemy.deathTime e)%Z.
Proof.
  unfold Enemy.update. destruct (Enemy.isDead e); [|done].
  destruct (_ <? _)%Z eqn:Hlt; [|done]. intros _. split; [done|lia].
Qed.

Lemma expired_mono (clock clock' : Z → Prop) w r :
  (∀ t, clock t → clock' t) → expired clock w r → expired clock' w r.
Proof. intros H (obj & t & ? & ? & ? & ?). exists obj, t. auto. Qed.

Lemma calm_mono (clock clock' : Z → Prop) w l w' :
  (∀ t, clock t → clock' t) → calm clock w l w' → calm clock' w l w'.
Proof.
  intros H []. split; try done.
  intros r Hr. destruct (calm_disposed0 r Hr) as (? & ? & ?).
  split; [done|]. split; [done|]. by eapply expired_mono.
Qed.

Lemma calm_refl clock w : calm clock w [] w.
Proof.
  split; try done.
  - intros r obj Hr. exists obj. split; [done|apply moved_refl].
  - intros r Hr. by apply not_elem_of_nil in Hr.
  - intros r Hr. by apply elem_of_nil in Hr.
  - auto.
Qed.

Lemma calm_trans clock w1 l1 w2 l2 w3 :
  calm clock w1 l1 w2 → calm clock w2 l2 w3 → calm clock w1 (l1 ++ l2) w3.
Proof.
  intros H1 H2. split.
  - rewrite (calm_counter _ _ _ _ H2). apply H1.
  - rewrite (calm_timer _ _ _ _ H2). apply H1.
  - rewrite (calm_active _ _ _ _ H2). apply H1.
  - rewrite (calm_player _ _ _ _ H2). apply H1.
  - rewrite (calm_heap _ _ _ _ H2). apply H1.
  - intros r o1 Hr.
    destruct (calm_objects _ _ _ _ H1 r o1 Hr) as (o2 & Hr2 & Hm2).
    destruct (calm_objects _ _ _ _ H2 r o2 Hr2) as (o3 & Hr3 & Hm3).
    exists o3. split; [done|]. by eapply moved_trans.
  - intros r Hr. by apply (calm_enemies _ _ _ _ H1), (calm_enemies _ _ _ _ H2).
  - intros r [Hr|Hr]%elem_of_app.
    + by apply (calm_no_spawn _ _ _ _ H1 r).
    + by apply (calm_no_spawn _ _ _ _ H2 r).
  - intros r [Hr|Hr]%elem_of_app.
    { destruct (calm_disposed _ _ _ _ H1 r Hr) as (? & Hout & ?).
      split; [done|]. split; [|done].
      intros Hin. by apply Hout, (calm_enemies _ _ _ _ H2). }
    destruct (calm_disposed _ _ _ _ H2 r Hr)
      as (Hin & Hout & o2 & t & Hr2 & Hd & Ht & Hlt).
    split; [by apply (calm_enemies _ _ _ _ H1)|]. split; [done|].
    assert (is_Some (heap w1 !! r)) as [o1 Hr1].
    { apply lookup_lt_is_Some. rewrite <- (calm_heap _ _ _ _ H1).
      by eapply lookup_lt_Some. }
    destruct (calm_objects _ _ _ _ H1 r o1 Hr1) as (o2' & Hr2' & Hm).
    assert (o2' = o2) as -> by congruence.
    destruct Hm as (_ & _ & Hdead & Htime & _).
    exists o1, t. repeat split; [done|congruence|done|by rewrite <- Htime].
  - intros r Hr. destruct (calm_kept _ _ _ _ H1 r Hr) as [Hr2|Hd].
    + destruct (calm_kept _ _ _ _ H2 r Hr2) as [Hr3|Hd]; [by left|].
      right. apply elem_of_app. by right.
    + right. apply elem_of_app. by left.
Qed.

(** *** The dead list holds dead enemies *)

Lemma deadEnemies_dead_evolves w w' :
  evolves w w' → deadEnemies_dead w → deadEnemies_dead w'.
Proof.
  intros He Hd r Hr. destruct (enter_dead _ _ He r Hr) as [Hold|]; [|done].
  by apply (death_stays _ _ He), Hd.
Qed.

Lemma reachable_deadEnemies_dead w : reachable w → deadEnemies_dead w.
Proof.
  induction 1 as [|w c w' l Hw IH Hrun].
  - intros r Hr. by apply elem_of_nil in Hr.
  - destruct (run_ok _ _ _ _ (reachable_consistent _ Hw) Hrun) as [_ He].
    by eapply deadEnemies_dead_evolves.
Qed.

(** *** The loops, for any property of their bodies *)

Section Loops.
Variable R : world → list action → world → Prop.
Hypothesis R_refl : ∀ w, R w [] w.
Hypothesis R_trans : ∀ w1 l1 w2 l2 w3,
  R w1 l1 w2 → R w2 l2 w3 → R w1 (l1 ++ l2) w3.

Lemma updateEnemies_from_rule n dt now w w' l :
  (∀ i w w' l, consistent w → deadEnemies_dead w →
               updateEnemy dt (now i) i w = Some (tt, w', l) → R w l w') →
  consistent w → deadEnemies_dead w →
  updateEnemies_from n dt now w = Some (tt, w', l) → R w l w'.
Proof.
  intros Hbody. revert w l.
  induction n as [|i IH]; intros w l Hc Hd; cbn [updateEnemies_from].
  - intros [= <- <-]. apply R_refl.
  - intros (a & w1 & l1 & l2 & Hb & Hrest & ->)%bind_Some. destruct a.
    destruct (updateEnemy_ok _ _ _ _ _ _ Hc Hb) as (Hc1 & He1 & _).
    pose proof (deadEnemies_dead_evolves _ _ He1 Hd) as Hd1.
    eapply R_trans; [by eapply Hbody|by apply IH].
Qed.

Lemma updateEnemies_rule dt now w w' l :
  (∀ i w w' l, consistent w → deadEnemies_dead w →
               updateEnemy dt (now i) i w = Some (tt, w', l) → R w l w') →
  consistent w → deadEnemies_dead w →
  updateEnemies dt now w = Some (tt, w', l) → R w l w'.
Proof.
  intros Hbody Hc Hd. unfold updateEnemies.
  intros (? & ? & ? & l0 & [= <- <- <-] & Hrest & ->)%bind_Some.
  by eapply updateEnemies_from_rule.
Qed.

Lemma cleanupDeadEnemies_from_rule n now w w' l :
  (∀ i w w' l, consistent w → deadEnemies_dead w →
               cleanupDeadEnemy now i w = Some (tt, w', l) → R w l w') →
  consistent w → deadEnemies_dead w →
  cleanupDeadEnemies_from n now w = Some (tt, w', l) → R w l w'.
Proof.
  intros Hbody. revert w l.
  induction n as [|i IH]; intros w l Hc Hd; cbn [cleanupDeadEnemies_from].
  - intros [= <- <-]. apply R_refl.
  - intros (a & w1 & l1 & l2 & Hb & Hrest & ->)%bind_Some. destruct a.
    destruct (cleanupDeadEnemy_ok _ _ _ _ _ Hc Hb) as (Hc1 & He1 & _).
    pose proof (deadEnemies_dead_evolves _ _ He1 Hd) as Hd1.
    eapply R_trans; [by eapply Hbody|by apply IH].
Qed.

Lemma cleanupDeadEnemies_rule now w w' l :
  (∀ i w w' l, consistent w → deadEnemies_dead w →
               cleanupDeadEnemy now i w = Some (tt, w', l) → R w l w') →
  consistent w → deadEnemies_dead w →
  cleanupDeadEnemies now w = Some (tt, w', l) → R w l w'.
Proof.
  intros Hbody Hc Hd. unfold cleanupDeadEnemies.
  intros (? & ? & ? & l0 & [= <- <- <-] & Hrest & ->)%bind_Some.
  by eapply cleanupDeadEnemies_from_rule.
Qed.

End Loops.

(** *** The bodies of the loops are calm *)

Lemma removeEnemy_calm (clock : Z → Prop) i w w' l :
  consistent w →
  (∀ r, enemies w !! i = Some r → expired clock w r) →
  removeEnemy i w = Some (tt, w', l) → calm clock w l w'.
Proof.
  intros Hc Hexp. rewrite removeEnemy_run.
  destruct (enemies w !! i) as [r|] eqn:Hi; [|done]. intros [= <- <-].
  pose proof (enemies_NoDup _ Hc) as Hnd.
  split; try done; cbn.
  - intros r0 obj Hr0. exists obj. split; [done|apply moved_refl].
  - intros r0 Hr0. by apply (elem_of_delete_NoDup _ _ _ _ Hnd Hi) in Hr0 as [? _].
  - intros r0 Hr0. apply list_elem_of_singleton in Hr0. done.
  - intros r0 Hr0. apply list_elem_of_singleton in Hr0. injection Hr0 as ->.
    split; [by eapply list_elem_of_lookup_2|]. split; [|auto].
    intros Hin. by apply (elem_of_delete_NoDup _ _ _ _ Hnd Hi) in Hin as [_ ?].
  - intros r0 Hr0. destruct (decide (r0 = r)) as [->|Hne].
    + right. apply list_elem_of_singleton. done.
    + left. by apply (elem_of_delete_NoDup _ _ _ _ Hnd Hi).
Qed.

Lemma set_heap_insert_calm clock w r obj obj' :
  heap w !! r = Some obj → moved obj obj' →
  calm clock w [] (set_heap <[r := obj']> w).
Proof.
  intros Hr Hm. split; try done; cbn.
  - by rewrite length_insert.
  - intros r0 o Hr0. destruct (decide (r0 = r)) as [->|Hne].
    + exists obj'. split; [|congruence].
      apply list_lookup_insert_eq. by eapply lookup_lt_Some.
    + exists o. split; [|apply moved_refl]. by rewrite list_lookup_insert_ne.
  - intros r0 Hr0. by apply not_elem_of_nil in Hr0.
  - intros r0 Hr0. by apply elem_of_nil in Hr0.
  - auto.
Qed.

Lemma expired_insert clock w r obj obj' x :
  heap w !! r = Some obj → moved obj obj' →
  expired clock (set_heap <[r := obj']> w) x → expired clock w x.
Proof.
  intros Hr (_ & _ & Hd & Ht & _) (o & t & Hx & Hdead & Hc & Hlt). cbn in Hx.
  destruct (decide (x = r)) as [->|Hne].
  - rewrite list_lookup_insert_eq in Hx by by eapply lookup_lt_Some.
    injection Hx as <-. exists obj, t. repeat split; [done|congruence|done|].
    by rewrite <- Ht.
  - rewrite list_lookup_insert_ne in Hx by done. by exists o, t.
Qed.

Lemma updateEnemy_calm (clock : Z → Prop) dt now i w w' l :
  clock now → consistent w →
  updateEnemy dt now i w = Some (tt, w', l) → calm clock w l w'.
Proof.
  intros Hclock Hc. rewrite updateEnemy_run.
  destruct (enemies w !! i) as [r|] eqn:Hi; [|done].
  destruct (heap w !! r) as [obj|] eqn:Hr; [|done]. cbv zeta.
  pose proof (update_moved dt (playerPosition w) now obj) as Hm.
  pose proof (update_shouldRemove dt (playerPosition w) now obj) as Hrem.
  destruct (Enemy.update _ _ _ _) as [b obj']. cbn [fst snd] in *.
  pose proof (set_heap_insert_calm clock w r obj obj' Hr Hm) as Hcalm0.
  assert (consistent (set_heap <[r := obj']> w)) as Hc0.
  { eapply set_heap_insert_ok; [done| |done].
    destruct Hm as (_ & _ & -> & _). done. }
  destruct b.
  - destruct (removeEnemy i _) as [[[[] w1] l1]|] eqn:Hre; [|done].
    intros [= <- <-]. destruct (Hrem eq_refl) as [Hdead Hlt].
    assert (calm clock (set_heap <[r := obj']> w) l1 w1) as Hcalm1.
    { eapply removeEnemy_calm; [done| |done]. cbn. rewrite Hi.
      intros ? [= <-]. destruct Hm as (_ & _ & Hd & Ht & _).
      exists obj', now. cbn. rewrite list_lookup_insert_eq by by eapply lookup_lt_Some.
      repeat split; [congruence|done|by rewrite Ht]. }
    pose proof (calm_trans _ _ _ _ _ _ Hcalm0 Hcalm1) as Hcalm. cbn in Hcalm.
    destruct Hcalm. split; try done.
    + intros r0 [Hr0|Hr0]%elem_of_cons; [done|]. by apply (calm_no_spawn0 r0).
    + intros r0 [Hr0|Hr0]%elem_of_cons; [done|]. by apply calm_disposed0.
    + intros r0 Hr0. destruct (calm_kept0 r0 Hr0); [by left|].
      right. by apply elem_of_cons; right.
  - intros [= <- <-].
    assert (calm clock w [] (if Enemy.isDead obj' && negb (bool_decide (r ∈ deadEnemies w))
       then set_deadEnemies (λ l0, l0 ++ [r]) (set_heap <[r:=obj']> w)
       else set_heap <[r:=obj']> w)) as Hcalm.
    { destruct (_ && _); [|done]. destruct Hcalm0. by split. }
    destruct Hcalm. split; try done.
    + intros r0 Hr0%list_elem_of_singleton. done.
    + intros r0 Hr0%list_elem_of_singleton. done.
    + intros r0 Hr0. destruct (calm_kept0 r0 Hr0) as [|H]; [by left|].
      by apply elem_of_nil in H.
Qed.

Lemma cleanupDeadEnemy_calm (clock : Z → Prop) now i w w' l :
  clock now → consistent w → deadEnemies_dead w →
  cleanupDeadEnemy now i w = Some (tt, w', l) → calm clock w l w'.
Proof.
  intros Hclock Hc Hdd. rewrite cleanupDeadEnemy_run.
  destruct (deadEnemies w !! i) as [r|] eqn:Hi; [|done].
  destruct (heap w !! r) as [obj|] eqn:Hr; [|done].
  destruct (_ <? _)%Z eqn:Hlt; [|intros [= <- <-]; apply calm_refl].
  destruct (indexOf r (enemies w)) as [j|] eqn:Hj;
    [|intros [= <- <-]; apply calm_refl].
  apply removeEnemy_calm; [done|].
  rewrite (indexOf_Some _ _ _ Hj). intros ? [= <-].
  destruct (Hdd r) as (o & Ho & Hdead); [by eapply list_elem_of_lookup_2|].
  assert (o = obj) as -> by congruence.
  exists obj, now. repeat split; [done..|lia].
Qed.

(** *** One tick, stage by stage *)

Lemma update_stages dt rnd1 rnd2 now now' w w' l :
  isActive w = true → update dt rnd1 rnd2 now now' w = Some (tt, w', l) →
  let w1 := set_spawnTimer (λ t, t + dt * 1000)%R w in
  ∃ w2 l2 w3 l3 l4,
    (if decide (ZOMBIE_SPAWN_INTERVAL <= spawnTimer w1)%R
     then spawnEnemy rnd1 rnd2 (set_spawnTimer (λ _, 0%R) w1) = Some (tt, w2, l2)
     else w2 = w1 ∧ l2 = []) ∧
    updateEnemies dt now w2 = Some (tt, w3, l3) ∧
    cleanupDeadEnemies now' w3 = Some (tt, w', l4) ∧
    l = l2 ++ l3 ++ l4.
Proof.
  intros Hact. unfold update.
  intros (w0 & ? & ? & l0 & [= <- <- <-] & Hrest & ->)%bind_Some.
  rewrite Hact in Hrest. cbn [negb] in Hrest.
  apply bind_Some in Hrest as (a & w1 & ? & l1 & [= <- <- <-] & Hrest & ->).
  apply bind_Some in Hrest as (w1' & ? & ? & l2 & [= <- <- <-] & Hrest & ->).
  apply bind_Some in Hrest as (a2 & w2 & l2' & l3 & Hspawn & Hrest & ->).
  apply bind_Some in Hrest as (a3 & w3 & l3' & l4 & Hupd & Hclean & ->).
  destruct a2, a3. cbv zeta. exists w2, l2', w3, l3', l4.
  split; [|done]. case_decide.
  - by apply bind_Some in Hspawn as (a & w1' & ? & ? & [= <- <- <-] & Hspawn & ->).
  - by injection Hspawn as <- <-.
Qed.

Lemma updateEnemies_calm dt now w w' l :
  consistent w → deadEnemies_dead w →
  updateEnemies dt now w = Some (tt, w', l) →
  calm (λ t, ∃ i, t = now i) w l w'.
Proof.
  apply (updateEnemies_rule (calm (λ t, ∃ i, t = now i))).
  - apply calm_refl.
  - apply calm_trans.
  - intros i w0 w0' l0 Hc _. apply updateEnemy_calm; [by exists i|done].
Qed.

Lemma cleanupDeadEnemies_calm now w w' l :
  consistent w → deadEnemies_dead w →
  cleanupDeadEnemies now w = Some (tt, w', l) →
  calm (λ t, t = now) w l w'.
Proof.
  apply (cleanupDeadEnemies_rule (calm (λ t, t = now))).
  - apply calm_refl.
  - apply calm_trans.
  - intros i w0 w0' l0 Hc Hd. by apply cleanupDeadEnemy_calm.
Qed.

(** After the spawn stage, the loops of a tick are calm. *)
Lemma update_loops_calm dt now now' w2 w3 w' l3 l4 :
  consistent w2 → deadEnemies_dead w2 →
  updateEnemies dt now w2 = Some (tt, w3, l3) →
  cleanupDeadEnemies now' w3 = Some (tt, w', l4) →
  calm (readings now now') w2 (l3 ++ l4) w'.
Proof.
  intros Hc2 Hd2 Hupd Hclean.
  destruct (updateEnemies_ok _ _ _ _ _ Hc2 Hupd) as (Hc3 & He3 & _).
  pose proof (deadEnemies_dead_evolves _ _ He3 Hd2) as Hd3.
  apply (calm_trans _ w2 l3 w3 l4 w').
  - eapply calm_mono; [|by eapply updateEnemies_calm]. intros t Ht. by right.
  - eapply calm_mono; [|by eapply cleanupDeadEnemies_calm]. intros t Ht. by left.
Qed.

(** The world between the spawn stage and the loops. *)
Lemma update_spawn_stage dt rnd1 rnd2 w w2 l2 :
  consistent w → deadEnemies_dead w →
  let w1 := set_spawnTimer (λ t, t + dt * 1000)%R w in
  (if decide (ZOMBIE_SPAWN_INTERVAL <= spawnTimer w1)%R
   then spawnEnemy rnd1 rnd2 (set_spawnTimer (λ _, 0%R) w1) = Some (tt, w2, l2)
   else w2 = w1 ∧ l2 = []) →
  consistent w2 ∧ deadEnemies_dead w2 ∧
  deadEnemies w2 = deadEnemies w ∧
  isActive w2 = isActive w ∧ playerPosition w2 = playerPosition w ∧
  (∀ r obj, heap w !! r = Some obj → heap w2 !! r = Some obj) ∧
  if decide (ZOMBIE_SPAWN_INTERVAL <= spawnTimer w + dt * 1000)%R
  then l2 = [Spawned (List.length (heap w))] ∧
       spawnTimer w2 = 0%R ∧ enemyIdCounter w2 = S (enemyIdCounter w) ∧
       enemies w2 = enemies w ++ [List.length (heap w)] ∧
       heap w2 = heap w ++ [Enemy.init (getSpawnPosition (playerPosition w) rnd1 rnd2)
                                       (Enemy.new (enemyIdCounter w))]
  else l2 = [] ∧ spawnTimer w2 = (spawnTimer w + dt * 1000)%R ∧
       enemyIdCounter w2 = enemyIdCounter w ∧ enemies w2 = enemies w ∧
       heap w2 = heap w.
Proof.
  intros Hc Hd w1 Hstage.
  destruct (same_lists_ok w w1) as [Hc1 He1]; [done..|].
  subst w1. cbn [spawnTimer set_spawnTimer] in *. case_decide.
  - rewrite spawnEnemy_run in Hstage. injection Hstage as <- <-.
    set (w1' := set_spawnTimer (λ _, 0%R) _) in *.
    destruct (same_lists_ok w w1') as [Hc1' He1']; [done..|].
    destruct (spawnEnemy_ok rnd1 rnd2 w1' _ _ Hc1' (spawnEnemy_run _ _ _))
      as [Hc2 He2].
    split; [done|]. split.
    { eapply deadEnemies_dead_evolves; [exact He2|].
      by eapply deadEnemies_dead_evolves. }
    cbn. repeat split; try done.
    intros r obj Hr. by apply lookup_app_l_Some.
  - destruct Hstage as [-> ->]. split; [done|]. split.
    { by eapply deadEnemies_dead_evolves. }
    cbn. repeat split; done.
Qed.

Lemma isAlive_dead_at w r :
  r < List.length (heap w) → isAlive w r = false ↔ dead_at w r.
Proof.
  intros [obj Hr]%lookup_lt_is_Some. unfold isAlive, dead_at. rewrite Hr.
  split.
  - intros Hd. exists obj. split; [done|]. by destruct (Enemy.isDead obj).
  - intros (o & [= <-] & ->). done.
Qed.



(** X22. A tick takes an enemy out of the scene only as a body that was
    already dead before the tick and has outlived the despawn time at one of
    the tick's clock readings; whatever leaves the active set is disposed of;
    every living enemy stays, alive; and no object changes in anything but
    its position. *)
Theorem update_removes_only_expired
    (dt rnd1 rnd2 : R) (now : nat → Z) (now' : Z) (w : world) :
  reachable w →
  ∃ w' l, update dt rnd1 rnd2 now now' w = Some (tt, w', l) ∧
    (∀ r, Disposed r ∈ l →
          r ∈ enemies w ∧ (r ∉ enemies w') ∧ expired (readings now now') w r) ∧
    (∀ r, r ∈ enemies w → r ∉ enemies w' → Disposed r ∈ l) ∧
    (∀ r, r ∈ enemies w → isAlive w r = true →
          r ∈ enemies w' ∧ isAlive w' r = true) ∧
    (∀ r obj, heap w !! r = Some obj →
              ∃ obj', heap w' !! r = Some obj' ∧ moved obj obj').
Proof.
  intros Hw.
  pose proof (reachable_consistent _ Hw) as Hc.
  pose proof (reachable_deadEnemies_dead _ Hw) as Hd.
  destruct (update_returns dt rnd1 rnd2 now now' w Hc) as (w' & l & Hrun).
  exists w', l. split; [done|].
  assert (∃ w2 l2 l', calm (readings now now') w2 l' w' ∧ l = l2 ++ l' ∧
            (∀ r, Disposed r ∉ l2) ∧
            (∀ r obj, heap w !! r = Some obj → heap w2 !! r = Some obj) ∧
            (∀ r, r ∈ enemies w → r ∈ enemies w2) ∧
            (∀ r, r ∈ enemies w2 → r ∈ enemies w ∨
                  ∃ obj, heap w2 !! r = Some obj ∧ Enemy.isDead obj = false))
    as (w2 & l2 & l' & Hcalm & -> & Hl2 & Hheap & Hin & Hnew).
  { destruct (isActive w) eqn:Hact.
    - destruct (update_stages _ _ _ _ _ _ _ _ Hact Hrun)
        as (w2 & l2 & w3 & l3 & l4 & Hstage & Hupd & Hclean & ->).
      destruct (update_spawn_stage _ _ _ _ _ _ Hc Hd Hstage)
        as (Hc2 & Hd2 & _ & _ & _ & Hheap & Hcase).
      exists w2, l2, (l3 ++ l4).
      split; [by eapply update_loops_calm|]. split; [done|].
      case_decide.
      + destruct Hcase as (-> & _ & _ & Hen & Hh).
        split; [by intros r ?%list_elem_of_singleton|]. split; [done|].
        rewrite Hen. split; [intros r Hr; apply elem_of_app; by left|].
        intros r [Hr|Hr%list_elem_of_singleton]%elem_of_app; [by left|].
        right. subst r.
        exists (Enemy.init (getSpawnPosition (playerPosition w) rnd1 rnd2)
                           (Enemy.new (enemyIdCounter w))).
        split; [|done]. rewrite Hh. by apply list_lookup_middle.
      + destruct Hcase as (-> & _ & _ & Hen & Hh).
        split; [intros r; apply not_elem_of_nil|]. split; [done|].
        rewrite Hen. auto.
    - rewrite update_inactive in Hrun by done. injection Hrun as <- <-.
      exists w, [], []. split; [apply calm_refl|]. split; [done|].
      split; [intros r; apply not_elem_of_nil|]. auto. }
  assert (∀ r, expired (readings now now') w2 r → r ∈ enemies w2 →
               r ∈ enemies w ∧ expired (readings now now') w r) as Hexp.
  { intros r (o & t & Ho & Hod & Ht & Hlt) Hr2.
    destruct (Hnew r Hr2) as [Hr|(o' & Ho' & Halive)]; [|congruence].
    split; [done|].
    destruct (lookup_lt_is_Some_2 (heap w) r) as [o0 Ho0];
      [by apply (enemies_allocated _ Hc)|].
    pose proof (Hheap _ _ Ho0). assert (o0 = o) as -> by congruence.
    by exists o, t. }
  split; [|split; [|split]].
  - intros r [Hr|Hr]%elem_of_app; [by apply Hl2 in Hr|].
    destruct (calm_disposed _ _ _ _ Hcalm r Hr) as (Hr2 & Hout & He).
    destruct (Hexp r He Hr2). done.
  - intros r Hr Hout. apply elem_of_app. right.
    destruct (calm_kept _ _ _ _ Hcalm r (Hin r Hr)); done.
  - intros r Hr Halive.
    unfold isAlive in Halive. destruct (heap w !! r) as [obj|] eqn:Ho; [|done].
    destruct (calm_objects _ _ _ _ Hcalm r obj (Hheap _ _ Ho))
      as (obj' & Ho' & _ & _ & Hdead & _).
    unfold isAlive. rewrite Ho', Hdead. split; [|done].
    destruct (calm_kept _ _ _ _ Hcalm r (Hin r Hr)) as [|Hdis]; [done|].
    destruct (calm_disposed _ _ _ _ Hcalm r Hdis) as (_ & _ & o & t & Ho2 & Hod & _).
    rewrite (Hheap _ _ Ho) in Ho2. injection Ho2 as <-.
    rewrite Hod in Halive. done.
  - intros r obj Ho. apply (calm_objects _ _ _ _ Hcalm), Hheap, Ho.
Qed.

Lemma update_removes_only_expired_witness :
  ∃ w' l, update (1 / 60) 0 0 (λ _, 2016%Z) 2016%Z one_dead = Some (tt, w', l).
Proof.
  destruct (update_removes_only_expired (1 / 60) 0 0 (λ _, 2016%Z) 2016%Z
              one_dead one_dead_reachable) as (w' & l & Hrun & _).
  exists w', l. exact Hrun.
Defined.

(** *** The sweep of the dead *)

Lemma indexOf_NoDup (l : list nat) i r :
  NoDup l → l !! i = Some r → indexOf r l = Some i.
Proof.
  intros Hnd Hi.
  destruct (indexOf_elem_of r l) as [j Hj]; [by eapply list_elem_of_lookup_2|].
  rewrite Hj. f_equal. apply indexOf_Some in Hj.
  exact (NoDup_lookup l j i r Hnd Hj Hi).
Qed.

Lemma cleanupDeadEnemy_swept now i w w' l :
  consistent w → cleanupDeadEnemy now i w = Some (tt, w', l) →
  swept now (S i) w → swept now i w'.
Proof.
  intros Hc. rewrite cleanupDeadEnemy_run.
  destruct (deadEnemies w !! i) as [r|] eqn:Hi; [|done].
  destruct (heap w !! r) as [obj|] eqn:Hr; [|done].
  assert (r ∈ enemies w) as Hin.
  { by apply (deadEnemies_enemies _ Hc), list_elem_of_lookup_2 with i. }
  destruct (_ <? _)%Z eqn:Hlt.
  - destruct (indexOf r (enemies w)) as [k|] eqn:Hk;
      [|by apply indexOf_None in Hk].
    rewrite removeEnemy_run, (indexOf_Some _ _ _ Hk). intros [= <- <-] Hs.
    intros j r0 o Hj. cbn.
    rewrite (indexOf_NoDup _ _ _ (deadEnemies_NoDup _ Hc) Hi).
    rewrite list_lookup_delete_ge by done. intros Hr0 Ho.
    apply (Hs (S j) r0 o); [lia|done..].
  - intros [= <- <-] Hs j r0 o Hj Hr0 Ho.
    destruct (decide (j = i)) as [->|Hne].
    + assert (r0 = r) as -> by congruence.
      assert (o = obj) as -> by congruence. lia.
    + apply (Hs j r0 o); [lia|done..].
Qed.

Lemma cleanupDeadEnemies_from_swept n now w w' l :
  consistent w → cleanupDeadEnemies_from n now w = Some (tt, w', l) →
  swept now n w → swept now 0 w'.
Proof.
  revert w l. induction n as [|i IH]; intros w l Hc; cbn [cleanupDeadEnemies_from].
  - by intros [= <- <-].
  - intros (a & w1 & l1 & l2 & Hb & Hrest & ->)%bind_Some Hs. destruct a.
    destruct (cleanupDeadEnemy_ok _ _ _ _ _ Hc Hb) as (Hc1 & _).
    apply (IH w1 l2 Hc1 Hrest).
    exact (cleanupDeadEnemy_swept _ _ _ _ _ Hc Hb Hs).
Qed.

Lemma cleanupDeadEnemies_swept now w w' l :
  consistent w → cleanupDeadEnemies now w = Some (tt, w', l) → swept now 0 w'.
Proof.
  intros Hc. unfold cleanupDeadEnemies.
  intros (? & ? & ? & l0 & [= <- <- <-] & Hrest & ->)%bind_Some.
  eapply cleanupDeadEnemies_from_swept; [done..|].
  intros j r o Hj Hr. apply lookup_lt_Some in Hr. lia.
Qed.

(** X23. After an active tick no body in the active set has outlived the
    despawn time at the clock reading of the sweep. *)
Theorem update_sweeps_expired
    (dt rnd1 rnd2 : R) (now : nat → Z) (now' : Z) (w : world) :
  reachable w → isActive w = true →
  ∃ w' l, update dt rnd1 rnd2 now now' w = Some (tt, w', l) ∧
    ∀ r obj, r ∈ enemies w' → heap w' !! r = Some obj →
             Enemy.isDead obj = true →
             (now' - Enemy.deathTime obj ≤ ZOMBIE_BODY_DESPAWN_TIME)%Z.
Proof.
  intros Hw Hact.
  pose proof (reachable_consistent _ Hw) as Hc.
  pose proof (reachable_deadEnemies_dead _ Hw) as Hd.
  destruct (update_returns dt rnd1 rnd2 now now' w Hc) as (w' & l & Hrun).
  exists w', l. split; [done|].
  destruct (update_ok _ _ _ _ _ _ _ _ Hc Hrun) as (Hc' & _ & Htr).
  destruct (update_stages _ _ _ _ _ _ _ _ Hact Hrun)
    as (w2 & l2 & w3 & l3 & l4 & Hstage & Hupd & Hclean & ->).
  destruct (update_spawn_stage _ _ _ _ _ _ Hc Hd Hstage) as (Hc2 & _).
  destruct (updateEnemies_ok _ _ _ _ _ Hc2 Hupd) as (Hc3 & _).
  pose proof (cleanupDeadEnemies_swept _ _ _ _ Hc3 Hclean) as Hs.
  intros r obj Hr Ho Hdead.
  assert (r ∈ deadEnemies w') as [j Hj]%list_elem_of_lookup.
  { apply (Htr Hact r Hr). by exists obj. }
  apply (Hs j r obj); [lia|done..].
Qed.

Lemma update_sweeps_expired_witness :
  ∃ w' l, update (1 / 60) 0 0 (λ _, 9000%Z) 9000%Z one_dead = Some (tt, w', l).
Proof.
  destruct (update_sweeps_expired (1 / 60) 0 0 (λ _, 9000%Z) 9000%Z
              one_dead one_dead_reachable eq_refl) as (w' & l & Hrun & _).
  exists w', l. exact Hrun.
Defined.

(** *** Identities *)

Lemma numbered_calm clock w l w' : calm clock w l w' → numbered w → numbered w'.
Proof.
  intros Hcalm [Hlen Hid]. split.
  - rewrite (calm_heap _ _ _ _ Hcalm), (calm_counter _ _ _ _ Hcalm). done.
  - intros r obj' Hr.
    destruct (lookup_lt_is_Some_2 (heap w) r) as [obj Ho].
    { rewrite <- (calm_heap _ _ _ _ Hcalm). by eapply lookup_lt_Some. }
    destruct (calm_objects _ _ _ _ Hcalm r obj Ho) as (o & Ho' & Hm & _).
    assert (o = obj') as -> by congruence. rewrite Hm. by apply Hid.
Qed.

Lemma numbered_same w w' :
  heap w' = heap w → enemyIdCounter w' = enemyIdCounter w →
  numbered w → numbered w'.
Proof. unfold numbered. by intros -> ->. Qed.

Lemma numbered_spawnEnemy rnd1 rnd2 w w' l :
  spawnEnemy rnd1 rnd2 w = Some (tt, w', l) → numbered w → numbered w'.
Proof.
  rewrite spawnEnemy_run. intros [= <- <-] [Hlen Hid]. split; cbn.
  - rewrite length_app. cbn. lia.
  - intros r obj [Hr|[Hge Hr]]%lookup_app_Some; [by apply Hid|].
    apply list_lookup_singleton_Some in Hr as [Hz <-]. cbn. lia.
Qed.

Lemma numbered_onEnemy r f w w' l :
  (∀ obj, Enemy.id (f obj) = Enemy.id obj) →
  onEnemy r f w = Some (tt, w', l) → numbered w → numbered w'.
Proof.
  intros Hf. unfold onEnemy.
  intros (w0 & ? & ? & l0 & [= <- <- <-] & Hrest & ->)%bind_Some.
  destruct (heap w !! r) as [obj|] eqn:Hr; [|done].
  injection Hrest as <- <-. intros [Hlen Hid]. split; cbn.
  - by rewrite length_insert.
  - intros r0 o [(-> & <- & _)|[_ Ho]]%list_lookup_insert_Some; [|by apply Hid].
    rewrite Hf. by apply Hid.
Qed.

Lemma takeDamage_id now amount hs e :
  Enemy.id (Enemy.takeDamage now amount hs e).2 = Enemy.id e.
Proof.
  unfold Enemy.takeDamage. destruct (Enemy.isDead e); [done|].
  cbn. by destruct (_ <=? _)%Z.
Qed.

Lemma attack_id now now' e : Enemy.id (Enemy.attack now now' e).2 = Enemy.id e.
Proof. unfold Enemy.attack. by destruct (negb _). Qed.

Lemma run_numbered c w w' l :
  consistent w → deadEnemies_dead w →
  run c w = Some (tt, w', l) → numbered w → numbered w'.
Proof.
  intros Hc Hd. destruct c; cbn [run].
  - intros [= <- <-]. by apply numbered_same.
  - intros [= <- <-]. by apply numbered_same.
  - intros [= <- <-]. by apply numbered_same.
  - destruct (isActive w) eqn:Hact.
    + intros Hrun.
      destruct (update_stages _ _ _ _ _ _ _ _ Hact Hrun)
        as (w2 & l2 & w3 & l3 & l4 & Hstage & Hupd & Hclean & ->).
      destruct (update_spawn_stage _ _ _ _ _ _ Hc Hd Hstage)
        as (Hc2 & Hd2 & _).
      intros Hn. eapply numbered_calm; [by eapply update_loops_calm|].
      cbn [spawnTimer set_spawnTimer] in Hstage. case_decide.
      * eapply numbered_spawnEnemy; [done|]. by apply (numbered_same w).
      * destruct Hstage as [-> _]. by apply (numbered_same w).
    + rewrite update_inactive by done. by intros [= <- <-].
  - apply numbered_spawnEnemy.
  - intros Hrun. eapply numbered_calm. by eapply updateEnemies_calm.
  - rewrite removeEnemy_run. destruct (enemies w !! index); [|done].
    intros [= <- <-]. by apply numbered_same.
  - intros Hrun. eapply numbered_calm. by eapply cleanupDeadEnemies_calm.
  - rewrite clear_run. intros [= <- <-]. by apply numbered_same.
  - apply numbered_onEnemy. intros obj. apply takeDamage_id.
  - apply numbered_onEnemy. intros obj. apply attack_id.
Qed.

Lemma reachable_numbered w : reachable w → numbered w.
Proof.
  induction 1 as [|w c w' l Hw IH Hrun]; [by split|].
  eapply run_numbered; [| |done..].
  - by apply reachable_consistent.
  - by apply reachable_deadEnemies_dead.
Qed.

(** X24. In every reachable world the counter is the number of enemies ever
    created, every enemy carries a number below the counter, and two enemies
    of the active set with the same number are the same entry. *)
Theorem enemy_ids_unique (w : world) :
  reachable w →
  List.length (heap w) = enemyIdCounter w ∧
  (∀ r obj, r ∈ enemies w → heap w !! r = Some obj →
            Enemy.id obj < enemyIdCounter w) ∧
  ∀ i j ri rj oi oj,
    enemies w !! i = Some ri → enemies w !! j = Some rj →
    heap w !! ri = Some oi → heap w !! rj = Some oj →
    Enemy.id oi = Enemy.id oj → i = j.
Proof.
  intros Hw. destruct (reachable_numbered _ Hw) as [Hlen Hid].
  pose proof (reachable_consistent _ Hw) as Hc.
  split; [done|]. split.
  - intros r obj _ Hr. rewrite (Hid _ _ Hr), <- Hlen. by eapply lookup_lt_Some.
  - intros i j ri rj oi oj Hi Hj Hoi Hoj Heq.
    rewrite (Hid _ _ Hoi), (Hid _ _ Hoj) in Heq. subst rj.
    by apply (NoDup_lookup (enemies w) i j ri (enemies_NoDup _ Hc)).
Qed.

Lemma enemy_ids_unique_witness :
  List.length (heap one_dead) = enemyIdCounter one_dead.
Proof. apply (proj1 (enemy_ids_unique one_dead one_dead_reachable)). Defined.

(** *** Counting *)

Lemma filter_lengths {A} (P : A → Prop) `{!∀ x, Decision (P x)} (l : list A) :
  List.length (filter P l) + List.length (filter (λ x, ¬ P x) l) = List.length l.
Proof.
  rewrite <- length_app. apply Permutation_length, filter_app_complement.
Qed.

(** X25. The living enemies and the tracked bodies never outnumber the active
    set, and right after an active tick they make up all of it. *)
Theorem living_and_dead_counts (w : world) :
  reachable w →
  getLivingCount w = List.length (getLivingEnemies w) ∧
  getLivingCount w + List.length (deadEnemies w) ≤ getEnemyCount w ∧
  ∀ dt rnd1 rnd2 now now' w' l,
    isActive w = true → update dt rnd1 rnd2 now now' w = Some (tt, w', l) →
    getEnemyCount w' = getLivingCount w' + List.length (deadEnemies w').
Proof.
  intros Hw.
  assert (∀ w, consistent w → deadEnemies_dead w →
    deadEnemies w ⊆ filter (λ r, ¬ isAlive w r = true) (enemies w)) as Hsub.
  { intros w0 Hc Hd r Hr. apply list_elem_of_filter.
    destruct (Hd r Hr) as (obj & Ho & Hdead). split.
    - unfold isAlive. rewrite Ho, Hdead. done.
    - by apply (deadEnemies_enemies _ Hc). }
  pose proof (reachable_consistent _ Hw) as Hc.
  pose proof (reachable_deadEnemies_dead _ Hw) as Hd.
  split; [done|]. split.
  - unfold getLivingCount, getEnemyCount.
    rewrite <- (filter_lengths (λ r, isAlive w r = true) (enemies w)).
    apply Nat.add_le_mono_l, submseteq_length, NoDup_submseteq;
      [apply Hc|apply Hsub; done].
  - intros dt rnd1 rnd2 now now' w' l Hact Hrun.
    destruct (update_ok _ _ _ _ _ _ _ _ Hc Hrun) as (Hc' & He & Htr).
    pose proof (deadEnemies_dead_evolves _ _ He Hd) as Hd'.
    unfold getLivingCount, getEnemyCount.
    rewrite <- (filter_lengths (λ r, isAlive w' r = true) (enemies w')).
    f_equal. apply Permutation_length, NoDup_Permutation.
    + apply NoDup_filter, Hc'.
    + apply Hc'.
    + intros r. split; [|by apply Hsub].
      intros [Halive Hr]%list_elem_of_filter. apply (Htr Hact r Hr).
      apply isAlive_dead_at; [by apply (enemies_allocated _ Hc')|].
      by destruct (isAlive w' r).
Qed.

Lemma living_and_dead_counts_witness :
  getLivingCount one_dead + List.length (deadEnemies one_dead)
    ≤ getEnemyCount one_dead.
Proof.
  apply (proj1 (proj2 (living_and_dead_counts one_dead one_dead_reachable))).
Defined.

End SpawnerTickProperties.

(** ** The resolution of a shot *)

Section RaycastProperties.
Import Vector3 Constants GameState Store SpawnerSystem SpawnerQueries RaycastSystem.

Lemma filter_insert_length {A} (P : A → Prop) `{!∀ x, Decision (P x)}
    (h : list A) (r : nat) (obj obj' : A) :
  h !! r = Some obj →
  (List.length (filter P (<[r := obj']> h)) + (if decide (P obj) then 1 else 0) =
   List.length (filter P h) + (if decide (P obj') then 1 else 0))%nat.
Proof.
  revert r. induction h as [|o h IH]; intros [|r] Hr; try done; cbn in Hr.
  - injection Hr as ->. change (<[0%nat:=obj']> (obj :: h)) with (obj' :: h).
    rewrite !filter_cons. repeat case_decide; cbn [List.length]; lia.
  - change (<[S r:=obj']> (o :: h)) with (o :: <[r:=obj']> h).
    rewrite !filter_cons. specialize (IH r Hr).
    destruct (decide (P o)); cbn [List.length]; lia.
Qed.

Lemma deadCount_insert w r obj obj' :
  heap w !! r = Some obj →
  (deadCount (set_heap <[r := obj']> w) + (if Enemy.isDead obj then 1 else 0) =
   deadCount w + (if Enemy.isDead obj' then 1 else 0))%nat.
Proof.
  intros Hr.
  pose proof (filter_insert_length (λ o, Enemy.isDead o = true) _ _ _ obj' Hr) as H.
  unfold deadCount in *. cbn [heap set_heap].
  destruct (Enemy.isDead obj), (Enemy.isDead obj');
    repeat case_decide; try done; lia.
Qed.

Lemma takeDamage_killed now amount hs e :
  let r := Enemy.takeDamage now amount hs e in
  Enemy.isDead r.2 = Enemy.isDead e || r.1.
Proof.
  cbv zeta. unfold Enemy.takeDamage. destruct (Enemy.isDead e) eqn:Hd; [done|].
  cbn. by destruct (_ <=? _).
Qed.

Lemma reward_run (isHeadshot : bool) (reward : Z) (s : state) :
  (addCoins reward;; addKill isHeadshot) s =
    (tt,
     with_player (λ q, mkPlayer (health q) (maxHealth q) (armor q) (maxArmor q)
                                (coins q + reward) (kills q + 1)) s,
     [STATE_CHANGED player_coins (Some (coins (player s))) (coins (player s) + reward);
      STATE_CHANGED player_kills (Some (kills (player s))) (kills (player s) + 1);
      if isHeadshot then ENEMY_HEADSHOT else ENEMY_KILLED]).
Proof. reflexivity. Qed.

(** What one shot changes. *)
Lemma shoot_step damage intersects now w s w' s' l :
  shoot damage intersects now w s = Some (w', s', l) →
  ∃ k : bool,
    Z.of_nat (deadCount w') = Z.of_nat (deadCount w) + (if k then 1 else 0) ∧
    kills (player s') = kills (player s) + (if k then 1 else 0) ∧
    (if k then REWARDS_KILL ≤ coins (player s') - coins (player s) ≤ REWARDS_HEADSHOT
     else coins (player s') = coins (player s)) ∧
    health (player s') = health (player s) ∧
    armor (player s') = armor (player s) ∧
    weapons s' = weapons s ∧
    List.length (heap w') = List.length (heap w) ∧
    enemies w' = enemies w ∧ deadEnemies w' = deadEnemies w.
Proof.
  unfold shoot. destruct intersects as [|first _]; 
    [intros [= <- <- <-]; exists false; repeat split; lia|].
  destruct (heap w !! parentEnemy first) as [obj|] eqn:Hobj; [|done].
  destruct (Enemy.isDead obj) eqn:Hdead; cbn [negb];
    [intros [= <- <- <-]; exists false; repeat split; lia|].
  pose proof (takeDamage_killed now damage
    (bool_decide (y (Enemy.position obj) + ZOMBIE_HEADSHOT_Y_THRESHOLD
                  < point_y first)%R) obj) as Hk.
  cbv zeta in Hk.
  destruct (Enemy.takeDamage _ _ _ _) as [killed obj']. cbn [fst snd] in Hk.
  pose proof (deadCount_insert w _ obj obj' Hobj) as Hcount.
  rewrite Hk, Hdead in Hcount. cbn [orb] in Hcount.
  destruct killed.
  - rewrite reward_run. intros [= <- <- <-]. exists true.
    unfold deadCount in *. cbn in Hcount |- *.
    rewrite length_insert. repeat split; try lia.
    all: case_bool_decide; unfold REWARDS_KILL, REWARDS_HEADSHOT; lia.
  - intros [= <- <- <-]. exists false.
    unfold deadCount in *. cbn in Hcount |- *. rewrite length_insert.
    repeat split; lia.
Qed.

Lemma shoot_returns damage intersects now w s :
  aimed w (mkShot damage intersects now) →
  ∃ w' s' l, shoot damage intersects now w s = Some (w', s', l).
Proof.
  unfold aimed, shoot. cbn. destruct intersects as [|first rest]; [eauto|].
  intros H. destruct (lookup_lt_is_Some_2 (heap w) (parentEnemy first)) as [obj ->];
    [by apply H|].
  destruct (negb _); [|eauto].
  destruct (Enemy.takeDamage _ _ _ _) as [[] obj']; [|eauto].
  rewrite reward_run. eauto.
Qed.

(** X26. Over any run of shots the kill counter rises by exactly the number of
    enemies that died, and the coins by between the plain and the headshot
    reward for each of them; a shot changes nothing else of the player, and
    it neither adds nor removes an enemy. *)
Theorem shoot_all_rewards_each_kill
    (shots : list shot) (w : world) (s : state) :
  Forall (aimed w) shots →
  ∃ w' s' l, shoot_all shots w s = Some (w', s', l) ∧
    let killed := Z.of_nat (deadCount w') - Z.of_nat (deadCount w) in
    kills (player s') - kills (player s) = killed ∧
    0 ≤ killed ≤ Z.of_nat (List.length shots) ∧
    REWARDS_KILL * killed ≤ coins (player s') - coins (player s)
      ≤ REWARDS_HEADSHOT * killed ∧
    health (player s') = health (player s) ∧
    armor (player s') = armor (player s) ∧
    weapons s' = weapons s ∧
    enemies w' = enemies w ∧ deadEnemies w' = deadEnemies w.
Proof.
  revert w s. induction shots as [|[d ints now] rest IH]; intros w s Haim.
  - exists w, s, []. cbn. repeat split; lia.
  - apply Forall_cons in Haim as [Hfirst Hrest].
    destruct (shoot_returns d ints now w s Hfirst) as (w1 & s1 & l1 & Hshot).
    destruct (shoot_step _ _ _ _ _ _ _ _ Hshot)
      as (k & Hdead & Hkills & Hcoins & Hh & Ha & Hw & Hlen & Hen & Hde).
    destruct (IH w1 s1) as (w2 & s2 & l2 & Hall & IHk & IHn & IHc & IHh & IHa & IHw & IHe & IHd).
    { eapply Forall_impl; [exact Hrest|]. intros sh Hsh first Hf.
      rewrite Hlen. by apply Hsh. }
    exists w2, s2, (l1 ++ l2). split.
    { cbn [shoot_all]. cbn. rewrite Hshot. cbn. by rewrite Hall. }
    cbv zeta in *. cbn [List.length].
    unfold REWARDS_KILL, REWARDS_HEADSHOT in *.
    repeat split; try congruence; destruct k; lia.
Qed.

Lemma shoot_all_rewards_each_kill_witness :
  ∃ w' s' l,
    shoot_all [mkShot 100 [mkIntersection 0 1] 2000] one_alive initialState
      = Some (w', s', l).
Proof.
  destruct (shoot_all_rewards_each_kill
              [mkShot 100 [mkIntersection 0 1] 2000] one_alive initialState)
    as (w' & s' & l & Hrun & _).
  - apply List.Forall_cons; [|apply List.Forall_nil].
    intros first [= <-]. vm_compute. lia.
  - exists w', s', l. exact Hrun.
Defined.

End RaycastProperties.

(** ** The frame loop and the trigger *)

Section GameProperties.
Import Vector3 Constants GameState Store SpawnerSystem SpawnerQueries Game.








Lemma getDamage_type (wp wp' : Weapon.weapon) :
  Weapon.type wp' = Weapon.type wp → getDamage wp' = getDamage wp.
Proof. unfold getDamage. by intros ->. Qed.

Lemma init_keyed : keyed init.
Proof.
  intros k wp. unfold init. cbn.
  intros [[<- <-]|[_ [<- <-]%lookup_singleton_Some]]%lookup_insert_Some;
    split; try done; by eexists.
Qed.

(** What one pull of the trigger changes. *)
Lemma pull_step now now' now'' intersects g a :
  keyed g → aimed g (mkPull now now' now'' intersects) →
  ammo (weapons (store g)) !! current (weapons (store g)) = Some a → 0 ≤ a →
  ∃ g' log a' (k : bool),
    shoot now now' now'' intersects g = Some (g', log) ∧
    keyed g' ∧
    current (weapons (store g')) = current (weapons (store g)) ∧
    ammo (weapons (store g')) !! current (weapons (store g)) = Some a' ∧
    0 ≤ a' ≤ a ∧
    kills (player (store g')) = kills (player (store g)) + (if k then 1 else 0) ∧
    (if k then 1 else 0) ≤ a - a' ∧
    Z.of_nat (RaycastSystem.deadCount (spawner g')) =
      Z.of_nat (RaycastSystem.deadCount (spawner g)) + (if k then 1 else 0) ∧
    List.length (heap (spawner g')) = List.length (heap (spawner g)).
Proof.
  intros Hkeyed Haim Ha Hpos. unfold shoot.
  destruct (arsenal g !! current (weapons (store g))) as [wp|] eqn:Hwp.
  2:{ exists g, ([], []), a, false. split; [done|]. split; [done|].
      repeat split; try done; lia. }
  destruct (Hkeyed _ _ Hwp) as [Htype [d Hd]].
  destruct (Weapon.canFire now wp (store g)) eqn:Hcan.
  - rewrite (fire_fired _ _ _ _ Hcan).
    set (wp' := Weapon.mkWeapon _ _ _).
    rewrite (getDamage_type wp wp' eq_refl), Hd. cbn [mbind option_bind].
    assert (0 < a) as Hlt.
    { unfold Weapon.canFire in Hcan. cbn in Hcan. rewrite Htype, Ha in Hcan.
      apply andb_prop in Hcan as [?%Z.ltb_lt _]. done. }
    pose proof (useAmmo_run (store g)) as Hu. cbv zeta in Hu.
    rewrite Ha, (proj2 (Z.ltb_lt 0 a) Hlt) in Hu.
    set (s1 := state_of (useAmmo (store g))) in *.
    assert (s1 = write (weapons_ammo (current (weapons (store g)))) (a - 1) (store g))
      as Hs1 by (subst s1; by rewrite Hu).
    destruct (shoot_returns d intersects now'' (spawner g) s1)
      as (w2 & s2 & l2 & Hshot); [exact Haim|].
    destruct (shoot_step _ _ _ _ _ _ _ _ Hshot)
      as (k & Hdead & Hkills & _ & _ & _ & Hweapons & Hlen & _).
    rewrite Hshot. cbn.
    eexists _, _, (a - 1), k. split; [done|]. cbn.
    rewrite Hweapons, Hkills, Hs1. cbn. rewrite lookup_insert_eq. split.
    { intros k' wp0. cbn [arsenal].
      intros [[<- <-]|[Hne Hw0]]%lookup_insert_Some; [|by apply Hkeyed].
      split; [done|]. rewrite (getDamage_type wp wp' eq_refl). by eexists. }
    repeat split; try done; try lia; destruct k; lia.
  - destruct (fire_refused_state now now' wp (store g) Hcan) as [l ->].
    eexists _, _, a, false. split; [done|]. cbn. split.
    { intros k' wp0. cbn [arsenal].
      intros [[<- <-]|[Hne Hw0]]%lookup_insert_Some; by apply Hkeyed. }
    repeat split; try done; lia.
Qed.

(** X28. A magazine bounds the kills: over any run of pulls of the trigger,
    with no reload and the same weapon in hand, the kill counter rises by
    exactly the number of enemies that died, and by no more than the rounds
    the run took out of the magazine. *)
Theorem magazine_bounds_kills (pulls : list pull) (g : game) (a : Z) :
  keyed g → Forall (aimed g) pulls →
  ammo (weapons (store g)) !! current (weapons (store g)) = Some a → 0 ≤ a →
  ∃ g' a', shoot_all pulls g = Some g' ∧
    current (weapons (store g')) = current (weapons (store g)) ∧
    ammo (weapons (store g')) !! current (weapons (store g)) = Some a' ∧
    0 ≤ a' ≤ a ∧
    let killed := kills (player (store g')) - kills (player (store g)) in
    killed = Z.of_nat (RaycastSystem.deadCount (spawner g')) -
             Z.of_nat (RaycastSystem.deadCount (spawner g)) ∧
    0 ≤ killed ≤ a - a'.
Proof.
  revert g a. induction pulls as [|[now now' now'' ints] rest IH];
    intros g a Hkeyed Haim Ha Hpos.
  - exists g, a. cbn. repeat split; try done; lia.
  - apply Forall_cons in Haim as [Hfirst Hrest].
    destruct (pull_step now now' now'' ints g a Hkeyed Hfirst Ha Hpos)
      as (g1 & log & a1 & k & Hshot & Hkeyed1 & Hcur & Ha1 & Hbound & Hkills &
          Hk & Hdead & Hlen).
    destruct (IH g1 a1 Hkeyed1) as (g2 & a2 & Hall & Hcur2 & Ha2 & Hb2 & Hk2 & Hkb2).
    { eapply Forall_impl; [exact Hrest|]. intros p Hp first Hf.
      rewrite Hlen. by apply Hp. }
    { by rewrite Hcur. }
    { lia. }
    exists g2, a2. split.
    { cbn [shoot_all]. cbn. rewrite Hshot. cbn. done. }
    rewrite Hcur in *. cbv zeta in *.
    repeat split; try done; destruct k; lia.
Qed.

Lemma magazine_bounds_kills_witness :
  ∃ g' a', shoot_all [mkPull 1000 1001 1002 []; mkPull 1400 1401 1402 []] init
             = Some g' ∧
           ammo (weapons (store g')) !! "pistol"%string = Some a'.
Proof.
  destruct (magazine_bounds_kills
              [mkPull 1000 1001 1002 []; mkPull 1400 1401 1402 []] init 12
              init_keyed) as (g' & a' & Hrun & _ & Ha' & _).
  - repeat (apply List.Forall_cons; [by intros first [=]|]).
    apply List.Forall_nil.
  - reflexivity.
  - lia.
  - exists g', a'. split; [exact Hrun|exact Ha'].
Defined.

End GameProperties.

(** ** The player's movement *)

Section PlayerProperties.
Import Vector3 Queries Player.
Local Open Scope R_scope.

Lemma checkCollision_level (p q : vec3) (barriers : list barrier) :
  x p = x q → z p = z q → checkCollision p barriers = checkCollision q barriers.
Proof.
  intros Hx Hz. induction barriers as [|b rest IH]; [done|].
  cbn [checkCollision]. cbv zeta. by rewrite Hx, Hz, IH.
Qed.

Lemma applyAxisAngleY_level (v : vec3) (angle : R) :
  let v' := applyAxisAngleY v angle in
  x v' * x v' + z v' * z v' = x v * x v + z v * z v.
Proof.
  cbv zeta. unfold applyAxisAngleY. cbn.
  pose proof (sin2_cos2 angle) as H. unfold Rsqr in H.
  set (s := sin angle) in *. set (c := cos angle) in *. nra.
Qed.

Lemma moveDirection_level (k : keys) : y (moveDirection k) = 0.
Proof. reflexivity. Qed.

Lemma normalize_level (d : vec3) :
  0 < length d → y d = 0 →
  x (normalize d) * x (normalize d) + z (normalize d) * z (normalize d) = 1.
Proof.
  intros Hl Hy. pose proof (normalize_unit d Hl) as H. unfold dot in H.
  assert (y (normalize d) = 0) as Hy'.
  { unfold normalize, multiplyScalar. cbn. rewrite Hy. lra. }
  rewrite Hy' in H. lra.
Qed.

(** One frame keeps the player on or above the ground, and at rest on it
    unless a jump is under way. *)
Lemma update_stays_grounded
    (deltaTime : R) (barriers : list barrier) (p : player) :
  let p' := update deltaTime barriers p in
  (0 <= y (position p) → 0 <= y (position p')) ∧
  ((isJumping p = false → y (position p) = 0 ∧ velocity_y p = 0) →
   isJumping p' = false → y (position p') = 0 ∧ velocity_y p' = 0) ∧
  rotation_x p' = rotation_x p.
Proof.
  cbv zeta. unfold update. cbv zeta.
  set (pos := if decide (0 < length _) then _ else _).
  assert (y pos = y (position p)) as Hy.
  { subst pos. destruct (decide _); [|done]. by destruct (negb _). }
  destruct (decide (_ <= 0)) as [Hle|Hgt]; cbn.
  - split; [lra|]. done.
  - split; [lra|]. split; [|done]. intros Hrest Hj.
    destruct (Hrest Hj) as [H0 Hv]. rewrite Hy, H0, Hv in Hgt. nra.
Qed.

(** X29. A frame never walks the player into a barrier and never lets the
    player sink below the ground: the horizontal position either stays, or
    moves by exactly the walking speed times the frame time (in whatever
    direction the keys ask for, diagonals included) to a place clear of all
    barriers. *)
Theorem update_stays_clear
    (deltaTime : R) (barriers : list barrier) (p : player) :
  let p' := update deltaTime barriers p in
  let dx := x (position p') - x (position p) in
  let dz := z (position p') - z (position p) in
  0 <= y (position p') ∧
  ((dx = 0 ∧ dz = 0) ∨
   (dx * dx + dz * dz = (PLAYER_SPEED * deltaTime) * (PLAYER_SPEED * deltaTime) ∧
    checkCollision (position p') barriers = false)) ∧
  (checkCollision (position p) barriers = false →
   checkCollision (position p') barriers = false) ∧
  rotation_y p' = rotation_y p ∧ pressed p' = pressed p.
Proof.
  cbv zeta. unfold update. cbv zeta.
  set (d := moveDirection (pressed p)).
  set (u := applyAxisAngleY (normalize d) (rotation_y p)).
  set (q := {| x := x (position p) + x u * PLAYER_SPEED * deltaTime;
               y := y (position p);
               z := z (position p) + z u * PLAYER_SPEED * deltaTime |}).
  set (pos := if decide (0 < length d)
              then if negb (checkCollision q barriers) then q else position p
              else position p).
  assert ((pos = position p) ∨
          (x pos = x q ∧ z pos = z q ∧ checkCollision q barriers = false ∧
           x u * x u + z u * z u = 1)) as Hpos.
  { subst pos. destruct (decide (0 < length d)) as [Hl|]; [|by left].
    destruct (checkCollision q barriers) eqn:Hq; cbn [negb]; [by left|].
    right. repeat split; try done. subst u.
    rewrite applyAxisAngleY_level. by apply normalize_level. }
  assert (∀ h, checkCollision {| x := x pos; y := h; z := z pos |} barriers
               = checkCollision pos barriers) as Hlevel.
  { intros h. by apply checkCollision_level. }
  assert (∀ h,
    let r := {| x := x pos; y := h; z := z pos |} in
    ((x r - x (position p) = 0 ∧ z r - z (position p) = 0) ∨
     ((x r - x (position p)) * (x r - x (position p)) +
      (z r - z (position p)) * (z r - z (position p)) =
      PLAYER_SPEED * deltaTime * (PLAYER_SPEED * deltaTime) ∧
      checkCollision r barriers = false)) ∧
    (checkCollision (position p) barriers = false →
     checkCollision r barriers = false)) as Hmain.
  { intros h. cbv zeta. rewrite Hlevel. cbn [x z].
    destruct Hpos as [->|(Hx & Hz & Hclear & Hunit)].
    - split; [left; lra|done].
    - rewrite (checkCollision_level pos q) by done. split; [|done].
      right. split; [|done]. rewrite Hx, Hz. subst q. cbn [x z].
      set (v := PLAYER_SPEED * deltaTime).
      replace (x (position p) + x u * PLAYER_SPEED * deltaTime - x (position p))
        with (x u * v) by (subst v; ring).
      replace (z (position p) + z u * PLAYER_SPEED * deltaTime - z (position p))
        with (z u * v) by (subst v; ring).
      transitivity ((x u * x u + z u * z u) * (v * v)); [ring|].
      rewrite Hunit. ring. }
  destruct (decide (_ <= 0)) as [Hy|Hy]; cbn [position rotation_y pressed].
  - destruct (Hmain 0) as [H1 H2]. cbn [y]. split; [lra|done].
  - match goal with |- context [mkVec3 _ ?h _] =>
      destruct (Hmain h) as [H1 H2]; cbn [y]; split; [lra|done] end.
Qed.

(** X30. A jump starts from the ground only. Whatever keys, mouse moves and
    frames reach a new player, the player is never below the ground; while
    not jumping the player stands on it at rest, so the space bar, which
    acts only then, never adds to a jump under way; and the pitch stays
    within a quarter turn up and down. *)
Theorem jump_only_from_ground (p : player) :
  reachable p →
  0 <= y (position p) ∧
  (isJumping p = false → y (position p) = 0 ∧ velocity_y p = 0) ∧
  (isJumping p = true → ∀ s, onKeyDown s Space p = p) ∧
  - PI / 2 <= rotation_x p <= PI / 2.
Proof.
  assert (0 < PI / 2) as Hpi by (pose proof PI_RGT_0; lra).
  intros Hp.
  assert (0 <= y (position p) ∧
          (isJumping p = false → y (position p) = 0 ∧ velocity_y p = 0) ∧
          - PI / 2 <= rotation_x p <= PI / 2) as (H1 & H2 & H3).
  { induction Hp as [|c p Hp (IH1 & IH2 & IH3)].
    - cbn. repeat split; try done; lra.
    - destruct c as [s c|c|s locked mx my|dt barriers]; cbn [run].
      + unfold onKeyDown. destruct (negb _ || _); [done|].
        destruct c; cbn; try tauto.
        destruct (isJumping p) eqn:Hj; cbn; [rewrite Hj; tauto|].
        split; [done|]. split; [done|]. done.
      + destruct c; cbn; tauto.
      + unfold onMouseMove. destruct (negb _ || _); [done|].
        destruct locked; [|done]. cbn. split; [done|]. split; [done|].
        unfold Rmax, Rmin. repeat destruct (Rle_dec _ _); lra.
      + destruct (update_stays_grounded dt barriers p) as (Hu1 & Hu2 & Hu3).
        split; [by apply Hu1|]. split; [by apply Hu2|]. by rewrite Hu3. }
  repeat split; try tauto. intros Hj s. unfold onKeyDown.
  destruct (negb _ || _); [done|]. by rewrite Hj.
Qed.

Lemma jump_only_from_ground_witness :
  0 <= y (position
            (run (Update (1 / 60) [])
               (run (KeyDown (GameState.mkState true false false false
                                (GameState.player GameState.initialState)
                                (GameState.weapons GameState.initialState))
                             Space) new))).
Proof.
  apply (proj1 (jump_only_from_ground _
                  (reachable_run (Update (1 / 60) []) _
                     (reachable_run
                        (KeyDown (GameState.mkState true false false false
                                    (GameState.player GameState.initialState)
                                    (GameState.weapons GameState.initialState))
                                 Space) _ reachable_new)))).
Defined.

End PlayerProperties.
